(* ===================================================================== *)
(*  node-DeepResearch: a shallow embedding of the agent loop              *)
(*  (src/agent.ts), the chat-completions server helpers (app.ts) and the  *)
(*  token tracker (src/utils/token-tracker.ts), with the properties of    *)
(*  the specification stated and settled against them.                    *)
(*                                                                        *)
(*  Conventions.                                                          *)
(*   - A JS string is the list of its UTF-16 code units ([list N]).       *)
(*   - Token counts and budgets are integers ([Z]).                       *)
(*   - A JS object used as a dictionary is a [gmap].                      *)
(*   - External collaborators (LLM, search, fetch, reranker, sandbox and  *)
(*     the helper modules that are not part of the embedded sources) are  *)
(*     fields of an environment record [Env]; every statement quantifies  *)
(*     over it.                                                           *)
(* ===================================================================== *)

From Stdlib Require Import ZArith NArith QArith List Ascii String Lia Bool.
From stdpp Require Import base option list gmap.

Local Open Scope Z_scope.

(* --------------------------------------------------------------------- *)
(*  JS strings                                                            *)
(* --------------------------------------------------------------------- *)

Abbreviation jsstring := (list N).

(** A string literal as code units (ASCII only). *)
Definition js (s : string) : jsstring :=
  map N_of_ascii (list_ascii_of_string s).

(** The characters matched by the regular-expression class [\s], which are
    also the characters removed by [String.prototype.trim]. *)
Definition is_space (c : N) : bool :=
  ((9 <=? c) && (c <=? 13) || (c =? 32) || (c =? 160) || (c =? 5760)
   || (8192 <=? c) && (c <=? 8202) || (c =? 8232) || (c =? 8233)
   || (c =? 8239) || (c =? 8287) || (c =? 12288) || (c =? 65279))%N.

Fixpoint trimStart (s : jsstring) : jsstring :=
  match s with
  | c :: s' => if is_space c then trimStart s' else s
  | [] => []
  end.

Definition trimEnd (s : jsstring) : jsstring := rev (trimStart (rev s)).

(** [s.trim()] *)
Definition trim (s : jsstring) : jsstring := trimEnd (trimStart s).

(** [a.indexOf(x)]: the first index holding a value equal to [x]; [None]
    stands for -1. *)
Fixpoint indexOf {A} `{EqDecision A} (x : A) (l : list A) : option nat :=
  match l with
  | [] => None
  | y :: l' => if decide (y = x) then Some O else S <$> indexOf x l'
  end.

(** [a.includes(x)] *)
Definition includes {A} `{EqDecision A} (x : A) (l : list A) : bool :=
  bool_decide (x ∈ l).

(** [a.slice(k)] for an index; [slice None] is [a.slice(-1)]. *)
Definition slice_from {A} (k : option nat) (l : list A) : list A :=
  match k with
  | Some i => drop i l
  | None => drop (length l - 1) l
  end.

(** [a.join('')] on an array of strings. *)
Definition join_empty (l : list jsstring) : jsstring := concat l.

(** A JS value that may be [undefined] or [null]. *)
Inductive optional (A : Type) : Type :=
| Undefined
| Null
| Value (a : A).
Arguments Undefined {A}.
Arguments Null {A}.
Arguments Value {A} a.

(* --------------------------------------------------------------------- *)
(*  src/utils/token-tracker.ts                                            *)
(* --------------------------------------------------------------------- *)

Record LanguageModelUsage := {
  promptTokens : Z;
  completionTokens : Z;
  totalTokens : Z
}.

Record TokenUsage := {
  tool : jsstring;
  usage : LanguageModelUsage
}.

Record SnakeUsage := {
  prompt_tokens : Z;
  completion_tokens : Z;
  total_tokens : Z
}.

(** The class [TokenTracker]: its private fields. The ['usage'] event it
    emits has no listener that changes the tracker. *)
Record TokenTracker := {
  usages : list TokenUsage;
  budget : option Z
}.

(** [new TokenTracker(budget)] *)
Definition newTokenTracker (b : option Z) : TokenTracker :=
  {| usages := []; budget := b |}.

(** [trackUsage(tool, usage)]: [this.usages.push({tool, usage})]. *)
Definition trackUsage (t : jsstring) (u : LanguageModelUsage)
    (tr : TokenTracker) : TokenTracker :=
  {| usages := usages tr ++ [{| tool := t; usage := u |}];
     budget := budget tr |}.

(** [getTotalUsage()]: a left-to-right [reduce] from the zero record. *)
Definition getTotalUsage (tr : TokenTracker) : LanguageModelUsage :=
  fold_left
    (fun acc tu =>
       {| promptTokens := promptTokens acc + promptTokens (usage tu);
          completionTokens :=
            completionTokens acc + completionTokens (usage tu);
          totalTokens := totalTokens acc + totalTokens (usage tu) |})
    (usages tr)
    {| promptTokens := 0; completionTokens := 0; totalTokens := 0 |}.

(** [getTotalUsageSnakeCase()] *)
Definition getTotalUsageSnakeCase (tr : TokenTracker) : SnakeUsage :=
  fold_left
    (fun acc tu =>
       {| prompt_tokens := prompt_tokens acc + promptTokens (usage tu);
          completion_tokens :=
            completion_tokens acc + completionTokens (usage tu);
          total_tokens := total_tokens acc + totalTokens (usage tu) |})
    (usages tr)
    {| prompt_tokens := 0; completion_tokens := 0; total_tokens := 0 |}.

(** [reset()] *)
Definition resetTracker (tr : TokenTracker) : TokenTracker :=
  {| usages := []; budget := budget tr |}.

(** A sequence of [trackUsage] calls, applied in order. *)
Definition trackAll (calls : list (jsstring * LanguageModelUsage))
    (tr : TokenTracker) : TokenTracker :=
  fold_left (fun t c => trackUsage (fst c) (snd c) t) calls tr.

(** The sum of a field over recorded usages, as the specification words
    it; compared below with what the two reducers compute. *)
Definition sum_field (f : LanguageModelUsage -> Z) (l : list TokenUsage) : Z :=
  foldr Z.add 0 (map (fun tu => f (usage tu)) l).

(* --------------------------------------------------------------------- *)
(*  app.ts: budget mapping                                                *)
(* --------------------------------------------------------------------- *)

Inductive ReasoningEffort := low | medium | high.

Record Budget := {
  tokenBudget : Z;
  maxBadAttempts : Z
}.

(** A default parameter value replaces [undefined] only. *)
Definition with_default {A} (d : optional A) (x : optional A) : optional A :=
  match x with
  | Undefined => d
  | _ => x
  end.

Definition getTokenBudgetAndMaxAttempts
    (reasoningEffort : optional ReasoningEffort)
    (maxCompletionTokens : optional Z) : Budget :=
  let reasoningEffort := with_default (Value medium) reasoningEffort in
  let maxCompletionTokens := with_default Null maxCompletionTokens in
  match maxCompletionTokens with
  | Value n => {| tokenBudget := n; maxBadAttempts := 1 |}
  | _ =>
      match reasoningEffort with
      | Value low => {| tokenBudget := 100000; maxBadAttempts := 1 |}
      | Value high => {| tokenBudget := 1000000; maxBadAttempts := 2 |}
      | _ => {| tokenBudget := 500000; maxBadAttempts := 1 |}
      end
  end.

(** The fields of the request body read by the budget code. *)
Record ChatCompletionRequest := {
  reasoning_effort : optional ReasoningEffort;
  max_completion_tokens : optional Z;
  budget_tokens : optional Z;
  max_attempts : optional Z
}.

(** [if (x)] on an optional number. *)
Definition truthy_num (x : optional Z) : bool :=
  match x with
  | Value n => negb (n =? 0)
  | _ => false
  end.

Definition num_or (x : optional Z) (d : Z) : Z :=
  match x with
  | Value n => n
  | _ => d
  end.

(** The budget handed to [getResponse] by the handler of
    [POST /v1/chat/completions]. *)
Definition requestBudget (body : ChatCompletionRequest) : Budget :=
  let b := getTokenBudgetAndMaxAttempts
             (reasoning_effort body) (max_completion_tokens body) in
  let tb := if truthy_num (budget_tokens body)
            then num_or (budget_tokens body) (tokenBudget b)
            else tokenBudget b in
  let mba := if truthy_num (max_attempts body)
             then num_or (max_attempts body) (maxBadAttempts b)
             else maxBadAttempts b in
  {| tokenBudget := tb; maxBadAttempts := mba |}.

(* --------------------------------------------------------------------- *)
(*  app.ts: splitTextIntoChunks and streamTextNaturally                   *)
(* --------------------------------------------------------------------- *)

(** [/[\u4e00-\u9fff\u3040-\u30ff\uac00-\ud7af]/.test(char)] *)
Definition is_cjk (c : N) : bool :=
  ((19968 <=? c) && (c <=? 40959) || (12352 <=? c) && (c <=? 12543)
   || (44032 <=? c) && (c <=? 55215))%N.

(** The class of characters that end a URL run: white space and the
    characters ] ) } and the two quote characters. *)
Definition is_url_end (c : N) : bool :=
  (is_space c || (c =? 93) || (c =? 41) || (c =? 125) || (c =? 34)
   || (c =? 39))%N.

(** [/[.!?,;:]/.test(char)] *)
Definition is_break (c : N) : bool :=
  ((c =? 46) || (c =? 33) || (c =? 63) || (c =? 44) || (c =? 59)
   || (c =? 58))%N.

(** A regular-expression test on [text[i + 1] || '']: the empty string
    matches none of the classes used. *)
Definition test_next (p : N -> bool) (nextChar : option N) : bool :=
  match nextChar with
  | Some c => p c
  | None => false
  end.

Fixpoint starts_with (p s : jsstring) : bool :=
  match p, s with
  | [], _ => true
  | a :: p', b :: s' => (a =? b)%N && starts_with p' s'
  | _ :: _, [] => false
  end.

(** [s.match(/https?:\/\//)]: an unanchored search, so the scheme may
    start at any offset of [s]. *)
Fixpoint match_http (s : jsstring) : bool :=
  starts_with (js "http://") s || starts_with (js "https://") s
  || match s with
     | [] => false
     | _ :: s' => match_http s'
     end.

(** The three variables the loop of [splitTextIntoChunks] mutates. *)
Record Splitter := {
  sp_chunks : list jsstring;
  currentChunk : jsstring;
  inURL : bool
}.

Definition pushCurrentChunk (st : Splitter) : Splitter :=
  match currentChunk st with
  | [] => st
  | _ :: _ =>
      {| sp_chunks := sp_chunks st ++ [currentChunk st];
         currentChunk := [];
         inURL := inURL st |}
  end.

Definition push_chunk (c : jsstring) (st : Splitter) : Splitter :=
  {| sp_chunks := sp_chunks st ++ [c];
     currentChunk := currentChunk st;
     inURL := inURL st |}.

Definition append_char (c : N) (st : Splitter) : Splitter :=
  {| sp_chunks := sp_chunks st;
     currentChunk := currentChunk st ++ [c];
     inURL := inURL st |}.

Definition set_inURL (b : bool) (st : Splitter) : Splitter :=
  {| sp_chunks := sp_chunks st;
     currentChunk := currentChunk st;
     inURL := b |}.

(** The body of the [for] loop, run on the suffix [text.slice(i)]: its
    head is [text[i]], the head of its tail is [text[i + 1]], and the tail
    is empty exactly when [i === text.length - 1]. *)
Fixpoint split_loop (suffix : jsstring) (st : Splitter) : Splitter :=
  match suffix with
  | [] => st
  | char :: rest =>
      let nextChar := head rest in
      let st :=
        if (char =? 104)%N && match_http (take 8 suffix)
        then set_inURL true (pushCurrentChunk st)
        else st in
      if inURL st then
        let st := append_char char st in
        let st :=
          if test_next is_url_end nextChar || bool_decide (rest = [])
          then set_inURL false (pushCurrentChunk st)
          else st in
        split_loop rest st
      else if is_cjk char then
        split_loop rest (push_chunk [char] (pushCurrentChunk st))
      else if is_space char then
        split_loop rest (push_chunk [char] (pushCurrentChunk st))
      else
        let st := append_char char st in
        let st :=
          if test_next is_break nextChar then pushCurrentChunk st else st in
        split_loop rest st
  end.

Definition splitTextIntoChunks (text : jsstring) : list jsstring :=
  let st :=
    split_loop text {| sp_chunks := []; currentChunk := []; inURL := false |} in
  filter (fun chunk => chunk <> []) (sp_chunks (pushCurrentChunk st)).

(** [streamTextNaturally(text, streamingState)], as the list of the strings
    it yields. [streaming i] is the value of
    [streamingState.currentlyStreaming] read by iteration [i] of the loop
    (the flag is written by other tasks while the generator is suspended).
    The delay computed for each chunk only times the yields. *)
Fixpoint stream_loop (chunks : list jsstring) (streaming : nat -> bool)
    (i : nat) (todo : list jsstring) : list jsstring :=
  match todo with
  | [] => []
  | chunk :: todo' =>
      if negb (streaming i)
      then [join_empty (slice_from (indexOf chunk chunks) chunks)]
      else chunk :: stream_loop chunks streaming (S i) todo'
  end.

Definition streamTextNaturally (text : jsstring) (streaming : nat -> bool)
    : list jsstring :=
  let chunks := splitTextIntoChunks text in
  stream_loop chunks streaming 0 chunks.

(** The flag is on for the first [k] iterations and off afterwards. *)
Definition off_after (k : nat) : nat -> bool :=
  fun i => bool_decide (i < k)%nat.

(* --------------------------------------------------------------------- *)
(*  src/types.ts: the data the agent loop works on                        *)
(* --------------------------------------------------------------------- *)

Inductive EvaluationType :=
| definitive | freshness | plurality | attribution | completeness | strict.

Global Instance EvaluationType_eq_dec : EqDecision EvaluationType.
Proof. solve_decision. Defined.

Record RepeatEvaluationType := {
  ev_type : EvaluationType;
  numEvalsRequired : Z
}.

(** A reference. The loop reads the fields the LLM may leave out only
    through their truthiness, so a missing field is the empty string. *)
Record Reference := {
  exactQuote : jsstring;
  ref_title : jsstring;
  ref_url : jsstring;
  dateTime : jsstring
}.

Record SearchSnippet := {
  title : jsstring;
  url : jsstring;
  description : jsstring;
  weight : Z;
  date : option jsstring
}.

(** A ranked URL; the score components are computed by the ranking code,
    which is a parameter here. *)
Record BoostedSearchSnippet := {
  b_url : jsstring;
  b_snippet : SearchSnippet
}.

Record SERPQuery := {
  q : jsstring;
  tbs : option jsstring
}.

(** [URLTargets: number[] | string[]]: the 1-based indices the LLM
    returns, replaced by URLs during dispatch. *)
Inductive Targets :=
| Indices (idx : list Z)
| Urls (urls : list jsstring).

(** [StepAction]: the tagged union of the five actions. For an answer,
    [isFinal] absent and [isFinal = false] are both read as not final. *)
Inductive StepAction :=
| SearchAction (think : jsstring) (searchRequests : list jsstring)
| AnswerAction (think : jsstring) (answer : jsstring)
    (references : list Reference) (isFinal : bool)
| ReflectAction (think : jsstring) (questionsToAnswer : list jsstring)
| VisitAction (think : jsstring) (URLTargets : Targets)
| CodingAction (think : jsstring) (codingIssue : jsstring).

(** The object the LLM returns under the agent schema: the chosen action,
    [think], and the payload of that action. *)
Inductive AgentObject :=
| O_search (think : jsstring) (searchRequests : list jsstring)
| O_answer (think : jsstring) (answer : jsstring)
    (references : list Reference)
| O_reflect (think : jsstring) (questionsToAnswer : list jsstring)
| O_visit (think : jsstring) (URLTargets : list Z)
| O_coding (think : jsstring) (codingIssue : jsstring).

(** [{action: o.action, think: o.think, ...o[o.action]}] *)
Definition toStep (o : AgentObject) : StepAction :=
  match o with
  | O_search t r => SearchAction t r
  | O_answer t a refs => AnswerAction t a refs false
  | O_reflect t qs => ReflectAction t qs
  | O_visit t idx => VisitAction t (Indices idx)
  | O_coding t c => CodingAction t c
  end.

(** [(thisStep as AnswerAction).isFinal], read as a condition. *)
Definition isFinal_of (a : StepAction) : bool :=
  match a with
  | AnswerAction _ _ _ f => f
  | _ => false
  end.

Inductive KnowledgeType := qa | side_info | k_url | k_coding | chat_history.

(** The question of a knowledge item; the templates of the source are kept
    as constructors carrying what is interpolated. *)
Inductive KnowledgeQuestion :=
| KQ_question (question : jsstring)
| KQ_internet_say (oldQuery : jsstring)
| KQ_why_bad (question answer : jsstring)
| KQ_coding_solution (codingIssue : jsstring)
| KQ_page (page : jsstring).

Record KnowledgeItem := {
  k_question : KnowledgeQuestion;
  k_answer : jsstring;
  k_references : list Reference;
  k_type : KnowledgeType
}.

Record EvaluationResponse := {
  pass : bool;
  e_think : jsstring;
  e_type : option EvaluationType;
  improvement_plan : option jsstring
}.

Record ErrorAnalysis := {
  recap : jsstring;
  blame : jsstring;
  improvement : jsstring
}.

(** The diary: one constructor per narrative template of the loop. *)
Inductive DiaryEntry :=
| D_answer_good (step : nat) (question answer evalThink : jsstring)
| D_answer_bad (step : nat) (question answer evalThink : jsstring)
| D_sub_answer_good (step : nat) (question answer evalThink : jsstring)
| D_reflect_new (step : nat) (question : jsstring) (subs : list jsstring)
| D_reflect_nothing (step : nat) (question : jsstring)
| D_search_found (step : nat) (question : jsstring) (keywords : list jsstring)
| D_search_nothing (step : nat) (question : jsstring) (keywords : list jsstring)
| D_visit_read (step : nat) (urls : list jsstring)
| D_visit_failed (step : nat)
| D_visit_nothing (step : nat)
| D_coding_solved (step : nat) (codingIssue : jsstring)
| D_coding_failed (step : nat) (codingIssue : jsstring).

Inductive Role := user | assistant | system.

Global Instance Role_eq_dec : EqDecision Role.
Proof. solve_decision. Defined.

Inductive ContentPart :=
| TextPart (text : jsstring)
| ImagePart (image : jsstring).

Inductive Content :=
| CString (s : jsstring)
| CParts (parts : list ContentPart).

Record CoreMessage := {
  role : Role;
  content : Content
}.

(* --------------------------------------------------------------------- *)
(*  src/agent.ts: prompts                                                 *)
(* --------------------------------------------------------------------- *)

(** The action sections [getPrompt] can put in the system prompt. *)
Inductive ActionSection :=
| action_visit (urlList : list jsstring)
| action_search (badRequests : list jsstring)
| action_answer
| action_answer_beast
| action_reflect
| action_coding.

Record Prompt := {
  p_context : list DiaryEntry;
  p_actions : list ActionSection;
  p_urlList : list jsstring
}.

(** [SchemaGen.getAgentSchema(allowReflect, allowRead, allowAnswer,
    allowSearch, allowCoding, currentQuestion)] *)
Record AgentSchema := {
  s_reflect : bool;
  s_read : bool;
  s_answer : bool;
  s_search : bool;
  s_coding : bool;
  s_question : option jsstring
}.

(** [composeMsgs(messages, knowledge, question, finalAnswerPIP)]: the
    knowledge pairs, the conversation, and a last user message made of the
    question and, when [finalAnswerPIP] is given and not empty, the
    reviewers' feedback. *)
Record Msgs := {
  m_knowledge : list KnowledgeItem;
  m_messages : list CoreMessage;
  m_question : jsstring;
  m_reviewers : list jsstring
}.

Definition composeMsgs (messages : list CoreMessage)
    (knowledge : list KnowledgeItem) (question : jsstring)
    (finalAnswerPIP : option (list jsstring)) : Msgs :=
  {| m_knowledge := knowledge;
     m_messages := messages;
     m_question := question;
     m_reviewers := default [] finalAnswerPIP |}.

(** The argument of [generator.generateObject]. *)
Record Request := {
  r_schema : AgentSchema;
  r_system : Prompt;
  r_messages : Msgs
}.

(** What the loop does that is visible from outside, in order. *)
Inductive Event :=
| EvStep (totalStep : nat) (totalTokens : Z)
| EvEvaluateQuestion (question : jsstring)
| EvGenerateObject (req : Request)
| EvTrackAction (totalStep : nat) (thisStep : StepAction)
| EvGetLastModified (u : jsstring)
| EvProcessURLs (urls : list jsstring)
| EvEvaluateAnswer (question : jsstring) (criteria : list EvaluationType)
| EvAnalyzeSteps
| EvDedupQueries (queries existing : list jsstring)
| EvSearch (query : jsstring)
| EvRewriteQuery
| EvSolve (codingIssue : jsstring)
| EvUpdateContext (totalStep : nat) (thisStep : StepAction).

Inductive JsError :=
| TypeError (what : string)
| ReferenceError (identifier : string)
| Rejected (callee : string).

(** An awaited call to a collaborator: it rejects ([None]) or resolves to a
    value, having recorded some usages in the shared token tracker. *)
Definition ext (A : Type) : Type := option (A * list TokenUsage).

Record ProcessResult := {
  pr_knowledge : list KnowledgeItem;
  pr_allURLs : gmap jsstring SearchSnippet;
  pr_visited : list jsstring;
  pr_bad : list jsstring;
  urlResults : list jsstring;
  success : bool
}.

Record Solution := {
  sol_code : jsstring;
  sol_output : jsstring
}.

(** Everything [getResponse] uses that the embedded sources do not define:
    the constants and helpers of [utils/schemas], [utils/url-tools],
    [utils/text-tools] and [tools/*], and the LLM behind
    [ObjectGeneratorSafe]. Calls that the loop awaits are indexed by
    [totalStep], so that an environment can answer differently at each
    step. *)
Record Env := {
  MAX_QUERIES_PER_STEP : nat;
  MAX_REFLECT_PER_STEP : nat;
  MAX_URLS_PER_STEP : nat;
  setLanguage : jsstring -> ext unit;
  extractUrlsWithDescription : jsstring -> list SearchSnippet;
  addToAllURLs :
    SearchSnippet -> gmap jsstring SearchSnippet ->
    Z * gmap jsstring SearchSnippet;
  filterURLs :
    gmap jsstring SearchSnippet -> list jsstring -> list jsstring ->
    list jsstring -> list SearchSnippet;
  rankURLs :
    list SearchSnippet -> jsstring -> list jsstring ->
    list BoostedSearchSnippet;
  keepKPerHostname :
    list BoostedSearchSnippet -> nat -> list BoostedSearchSnippet;
  sortSelectURLs :
    list BoostedSearchSnippet -> nat -> list BoostedSearchSnippet;
  normalizeUrl : jsstring -> option jsstring;
  sanitizeQuote : jsstring -> jsstring;
  removeHTMLtags : jsstring -> jsstring;
  getLastModified : jsstring -> ext (option jsstring);
  evaluateQuestion : jsstring -> ext (list EvaluationType);
  generateObject : nat -> Request -> ext AgentObject;
  evaluateAnswer :
    nat -> jsstring -> StepAction -> list EvaluationType ->
    ext (option EvaluationResponse);
  analyzeSteps : nat -> list DiaryEntry -> ext ErrorAnalysis;
  dedupQueries : list jsstring -> list jsstring -> ext (list jsstring);
  chooseK : list jsstring -> nat -> list jsstring;
  rewriteQuery : nat -> StepAction -> jsstring -> ext (list SERPQuery);
  searchProvider : jsstring -> ext (list SearchSnippet);
  processURLs :
    nat -> list jsstring -> gmap jsstring SearchSnippet ->
    list jsstring -> list jsstring -> ext ProcessResult;
  solve : nat -> jsstring -> ext Solution;
  markdownTrivial : StepAction -> jsstring;
  markdownRepaired :
    StepAction -> gmap jsstring SearchSnippet -> ext jsstring
}.

(* --------------------------------------------------------------------- *)
(*  src/agent.ts: the local variables of getResponse                      *)
(* --------------------------------------------------------------------- *)

(** The mutable locals of [getResponse], the token tracker of its context
    and the events performed so far. *)
Record State := {
  step : nat;
  totalStep : nat;
  gaps : list jsstring;
  allQuestions : list jsstring;
  allKeywords : list jsstring;
  allKnowledge : list KnowledgeItem;
  diaryContext : list DiaryEntry;
  weightedURLs : list BoostedSearchSnippet;
  allowAnswer : bool;
  allowSearch : bool;
  allowRead : bool;
  allowReflect : bool;
  allowCoding : bool;
  thisStep : StepAction;
  allURLs : gmap jsstring SearchSnippet;
  visitedURLs : list jsstring;
  badURLs : list jsstring;
  evaluationMetrics : gmap jsstring (list RepeatEvaluationType);
  finalAnswerPIP : list jsstring;
  trivialQuestion : bool;
  tokenTracker : TokenTracker;
  events : list Event
}.

Definition set_step (v : nat) (s : State) : State :=
  {| step := v; totalStep := totalStep s; gaps := gaps s;
     allQuestions := allQuestions s; allKeywords := allKeywords s;
     allKnowledge := allKnowledge s; diaryContext := diaryContext s;
     weightedURLs := weightedURLs s; allowAnswer := allowAnswer s;
     allowSearch := allowSearch s; allowRead := allowRead s;
     allowReflect := allowReflect s; allowCoding := allowCoding s;
     thisStep := thisStep s; allURLs := allURLs s;
     visitedURLs := visitedURLs s; badURLs := badURLs s;
     evaluationMetrics := evaluationMetrics s;
     finalAnswerPIP := finalAnswerPIP s;
     trivialQuestion := trivialQuestion s; tokenTracker := tokenTracker s;
     events := events s |}.

Definition set_totalStep (v : nat) (s : State) : State :=
  {| step := step s; totalStep := v; gaps := gaps s;
     allQuestions := allQuestions s; allKeywords := allKeywords s;
     allKnowledge := allKnowledge s; diaryContext := diaryContext s;
     weightedURLs := weightedURLs s; allowAnswer := allowAnswer s;
     allowSearch := allowSearch s; allowRead := allowRead s;
     allowReflect := allowReflect s; allowCoding := allowCoding s;
     thisStep := thisStep s; allURLs := allURLs s;
     visitedURLs := visitedURLs s; badURLs := badURLs s;
     evaluationMetrics := evaluationMetrics s;
     finalAnswerPIP := finalAnswerPIP s;
     trivialQuestion := trivialQuestion s; tokenTracker := tokenTracker s;
     events := events s |}.

Definition set_gaps (v : list jsstring) (s : State) : State :=
  {| step := step s; totalStep := totalStep s; gaps := v;
     allQuestions := allQuestions s; allKeywords := allKeywords s;
     allKnowledge := allKnowledge s; diaryContext := diaryContext s;
     weightedURLs := weightedURLs s; allowAnswer := allowAnswer s;
     allowSearch := allowSearch s; allowRead := allowRead s;
     allowReflect := allowReflect s; allowCoding := allowCoding s;
     thisStep := thisStep s; allURLs := allURLs s;
     visitedURLs := visitedURLs s; badURLs := badURLs s;
     evaluationMetrics := evaluationMetrics s;
     finalAnswerPIP := finalAnswerPIP s;
     trivialQuestion := trivialQuestion s; tokenTracker := tokenTracker s;
     events := events s |}.

Definition set_allQuestions (v : list jsstring) (s : State) : State :=
  {| step := step s; totalStep := totalStep s; gaps := gaps s;
     allQuestions := v; allKeywords := allKeywords s;
     allKnowledge := allKnowledge s; diaryContext := diaryContext s;
     weightedURLs := weightedURLs s; allowAnswer := allowAnswer s;
     allowSearch := allowSearch s; allowRead := allowRead s;
     allowReflect := allowReflect s; allowCoding := allowCoding s;
     thisStep := thisStep s; allURLs := allURLs s;
     visitedURLs := visitedURLs s; badURLs := badURLs s;
     evaluationMetrics := evaluationMetrics s;
     finalAnswerPIP := finalAnswerPIP s;
     trivialQuestion := trivialQuestion s; tokenTracker := tokenTracker s;
     events := events s |}.

Definition set_allKeywords (v : list jsstring) (s : State) : State :=
  {| step := step s; totalStep := totalStep s; gaps := gaps s;
     allQuestions := allQuestions s; allKeywords := v;
     allKnowledge := allKnowledge s; diaryContext := diaryContext s;
     weightedURLs := weightedURLs s; allowAnswer := allowAnswer s;
     allowSearch := allowSearch s; allowRead := allowRead s;
     allowReflect := allowReflect s; allowCoding := allowCoding s;
     thisStep := thisStep s; allURLs := allURLs s;
     visitedURLs := visitedURLs s; badURLs := badURLs s;
     evaluationMetrics := evaluationMetrics s;
     finalAnswerPIP := finalAnswerPIP s;
     trivialQuestion := trivialQuestion s; tokenTracker := tokenTracker s;
     events := events s |}.

Definition set_allKnowledge (v : list KnowledgeItem) (s : State) : State :=
  {| step := step s; totalStep := totalStep s; gaps := gaps s;
     allQuestions := allQuestions s; allKeywords := allKeywords s;
     allKnowledge := v; diaryContext := diaryContext s;
     weightedURLs := weightedURLs s; allowAnswer := allowAnswer s;
     allowSearch := allowSearch s; allowRead := allowRead s;
     allowReflect := allowReflect s; allowCoding := allowCoding s;
     thisStep := thisStep s; allURLs := allURLs s;
     visitedURLs := visitedURLs s; badURLs := badURLs s;
     evaluationMetrics := evaluationMetrics s;
     finalAnswerPIP := finalAnswerPIP s;
     trivialQuestion := trivialQuestion s; tokenTracker := tokenTracker s;
     events := events s |}.

Definition set_diaryContext (v : list DiaryEntry) (s : State) : State :=
  {| step := step s; totalStep := totalStep s; gaps := gaps s;
     allQuestions := allQuestions s; allKeywords := allKeywords s;
     allKnowledge := allKnowledge s; diaryContext := v;
     weightedURLs := weightedURLs s; allowAnswer := allowAnswer s;
     allowSearch := allowSearch s; allowRead := allowRead s;
     allowReflect := allowReflect s; allowCoding := allowCoding s;
     thisStep := thisStep s; allURLs := allURLs s;
     visitedURLs := visitedURLs s; badURLs := badURLs s;
     evaluationMetrics := evaluationMetrics s;
     finalAnswerPIP := finalAnswerPIP s;
     trivialQuestion := trivialQuestion s; tokenTracker := tokenTracker s;
     events := events s |}.

Definition set_weightedURLs (v : list BoostedSearchSnippet) (s : State) : State :=
  {| step := step s; totalStep := totalStep s; gaps := gaps s;
     allQuestions := allQuestions s; allKeywords := allKeywords s;
     allKnowledge := allKnowledge s; diaryContext := diaryContext s;
     weightedURLs := v; allowAnswer := allowAnswer s;
     allowSearch := allowSearch s; allowRead := allowRead s;
     allowReflect := allowReflect s; allowCoding := allowCoding s;
     thisStep := thisStep s; allURLs := allURLs s;
     visitedURLs := visitedURLs s; badURLs := badURLs s;
     evaluationMetrics := evaluationMetrics s;
     finalAnswerPIP := finalAnswerPIP s;
     trivialQuestion := trivialQuestion s; tokenTracker := tokenTracker s;
     events := events s |}.

Definition set_allowAnswer (v : bool) (s : State) : State :=
  {| step := step s; totalStep := totalStep s; gaps := gaps s;
     allQuestions := allQuestions s; allKeywords := allKeywords s;
     allKnowledge := allKnowledge s; diaryContext := diaryContext s;
     weightedURLs := weightedURLs s; allowAnswer := v;
     allowSearch := allowSearch s; allowRead := allowRead s;
     allowReflect := allowReflect s; allowCoding := allowCoding s;
     thisStep := thisStep s; allURLs := allURLs s;
     visitedURLs := visitedURLs s; badURLs := badURLs s;
     evaluationMetrics := evaluationMetrics s;
     finalAnswerPIP := finalAnswerPIP s;
     trivialQuestion := trivialQuestion s; tokenTracker := tokenTracker s;
     events := events s |}.

Definition set_allowSearch (v : bool) (s : State) : State :=
  {| step := step s; totalStep := totalStep s; gaps := gaps s;
     allQuestions := allQuestions s; allKeywords := allKeywords s;
     allKnowledge := allKnowledge s; diaryContext := diaryContext s;
     weightedURLs := weightedURLs s; allowAnswer := allowAnswer s;
     allowSearch := v; allowRead := allowRead s;
     allowReflect := allowReflect s; allowCoding := allowCoding s;
     thisStep := thisStep s; allURLs := allURLs s;
     visitedURLs := visitedURLs s; badURLs := badURLs s;
     evaluationMetrics := evaluationMetrics s;
     finalAnswerPIP := finalAnswerPIP s;
     trivialQuestion := trivialQuestion s; tokenTracker := tokenTracker s;
     events := events s |}.

Definition set_allowRead (v : bool) (s : State) : State :=
  {| step := step s; totalStep := totalStep s; gaps := gaps s;
     allQuestions := allQuestions s; allKeywords := allKeywords s;
     allKnowledge := allKnowledge s; diaryContext := diaryContext s;
     weightedURLs := weightedURLs s; allowAnswer := allowAnswer s;
     allowSearch := allowSearch s; allowRead := v;
     allowReflect := allowReflect s; allowCoding := allowCoding s;
     thisStep := thisStep s; allURLs := allURLs s;
     visitedURLs := visitedURLs s; badURLs := badURLs s;
     evaluationMetrics := evaluationMetrics s;
     finalAnswerPIP := finalAnswerPIP s;
     trivialQuestion := trivialQuestion s; tokenTracker := tokenTracker s;
     events := events s |}.

Definition set_allowReflect (v : bool) (s : State) : State :=
  {| step := step s; totalStep := totalStep s; gaps := gaps s;
     allQuestions := allQuestions s; allKeywords := allKeywords s;
     allKnowledge := allKnowledge s; diaryContext := diaryContext s;
     weightedURLs := weightedURLs s; allowAnswer := allowAnswer s;
     allowSearch := allowSearch s; allowRead := allowRead s;
     allowReflect := v; allowCoding := allowCoding s;
     thisStep := thisStep s; allURLs := allURLs s;
     visitedURLs := visitedURLs s; badURLs := badURLs s;
     evaluationMetrics := evaluationMetrics s;
     finalAnswerPIP := finalAnswerPIP s;
     trivialQuestion := trivialQuestion s; tokenTracker := tokenTracker s;
     events := events s |}.

Definition set_allowCoding (v : bool) (s : State) : State :=
  {| step := step s; totalStep := totalStep s; gaps := gaps s;
     allQuestions := allQuestions s; allKeywords := allKeywords s;
     allKnowledge := allKnowledge s; diaryContext := diaryContext s;
     weightedURLs := weightedURLs s; allowAnswer := allowAnswer s;
     allowSearch := allowSearch s; allowRead := allowRead s;
     allowReflect := allowReflect s; allowCoding := v;
     thisStep := thisStep s; allURLs := allURLs s;
     visitedURLs := visitedURLs s; badURLs := badURLs s;
     evaluationMetrics := evaluationMetrics s;
     finalAnswerPIP := finalAnswerPIP s;
     trivialQuestion := trivialQuestion s; tokenTracker := tokenTracker s;
     events := events s |}.

Definition set_thisStep (v : StepAction) (s : State) : State :=
  {| step := step s; totalStep := totalStep s; gaps := gaps s;
     allQuestions := allQuestions s; allKeywords := allKeywords s;
     allKnowledge := allKnowledge s; diaryContext := diaryContext s;
     weightedURLs := weightedURLs s; allowAnswer := allowAnswer s;
     allowSearch := allowSearch s; allowRead := allowRead s;
     allowReflect := allowReflect s; allowCoding := allowCoding s;
     thisStep := v; allURLs := allURLs s; visitedURLs := visitedURLs s;
     badURLs := badURLs s; evaluationMetrics := evaluationMetrics s;
     finalAnswerPIP := finalAnswerPIP s;
     trivialQuestion := trivialQuestion s; tokenTracker := tokenTracker s;
     events := events s |}.

Definition set_allURLs (v : gmap jsstring SearchSnippet) (s : State) : State :=
  {| step := step s; totalStep := totalStep s; gaps := gaps s;
     allQuestions := allQuestions s; allKeywords := allKeywords s;
     allKnowledge := allKnowledge s; diaryContext := diaryContext s;
     weightedURLs := weightedURLs s; allowAnswer := allowAnswer s;
     allowSearch := allowSearch s; allowRead := allowRead s;
     allowReflect := allowReflect s; allowCoding := allowCoding s;
     thisStep := thisStep s; allURLs := v; visitedURLs := visitedURLs s;
     badURLs := badURLs s; evaluationMetrics := evaluationMetrics s;
     finalAnswerPIP := finalAnswerPIP s;
     trivialQuestion := trivialQuestion s; tokenTracker := tokenTracker s;
     events := events s |}.

Definition set_visitedURLs (v : list jsstring) (s : State) : State :=
  {| step := step s; totalStep := totalStep s; gaps := gaps s;
     allQuestions := allQuestions s; allKeywords := allKeywords s;
     allKnowledge := allKnowledge s; diaryContext := diaryContext s;
     weightedURLs := weightedURLs s; allowAnswer := allowAnswer s;
     allowSearch := allowSearch s; allowRead := allowRead s;
     allowReflect := allowReflect s; allowCoding := allowCoding s;
     thisStep := thisStep s; allURLs := allURLs s; visitedURLs := v;
     badURLs := badURLs s; evaluationMetrics := evaluationMetrics s;
     finalAnswerPIP := finalAnswerPIP s;
     trivialQuestion := trivialQuestion s; tokenTracker := tokenTracker s;
     events := events s |}.

Definition set_badURLs (v : list jsstring) (s : State) : State :=
  {| step := step s; totalStep := totalStep s; gaps := gaps s;
     allQuestions := allQuestions s; allKeywords := allKeywords s;
     allKnowledge := allKnowledge s; diaryContext := diaryContext s;
     weightedURLs := weightedURLs s; allowAnswer := allowAnswer s;
     allowSearch := allowSearch s; allowRead := allowRead s;
     allowReflect := allowReflect s; allowCoding := allowCoding s;
     thisStep := thisStep s; allURLs := allURLs s;
     visitedURLs := visitedURLs s; badURLs := v;
     evaluationMetrics := evaluationMetrics s;
     finalAnswerPIP := finalAnswerPIP s;
     trivialQuestion := trivialQuestion s; tokenTracker := tokenTracker s;
     events := events s |}.

Definition set_evaluationMetrics (v : gmap jsstring (list RepeatEvaluationType)) (s : State) : State :=
  {| step := step s; totalStep := totalStep s; gaps := gaps s;
     allQuestions := allQuestions s; allKeywords := allKeywords s;
     allKnowledge := allKnowledge s; diaryContext := diaryContext s;
     weightedURLs := weightedURLs s; allowAnswer := allowAnswer s;
     allowSearch := allowSearch s; allowRead := allowRead s;
     allowReflect := allowReflect s; allowCoding := allowCoding s;
     thisStep := thisStep s; allURLs := allURLs s;
     visitedURLs := visitedURLs s; badURLs := badURLs s;
     evaluationMetrics := v; finalAnswerPIP := finalAnswerPIP s;
     trivialQuestion := trivialQuestion s; tokenTracker := tokenTracker s;
     events := events s |}.

Definition set_finalAnswerPIP (v : list jsstring) (s : State) : State :=
  {| step := step s; totalStep := totalStep s; gaps := gaps s;
     allQuestions := allQuestions s; allKeywords := allKeywords s;
     allKnowledge := allKnowledge s; diaryContext := diaryContext s;
     weightedURLs := weightedURLs s; allowAnswer := allowAnswer s;
     allowSearch := allowSearch s; allowRead := allowRead s;
     allowReflect := allowReflect s; allowCoding := allowCoding s;
     thisStep := thisStep s; allURLs := allURLs s;
     visitedURLs := visitedURLs s; badURLs := badURLs s;
     evaluationMetrics := evaluationMetrics s; finalAnswerPIP := v;
     trivialQuestion := trivialQuestion s; tokenTracker := tokenTracker s;
     events := events s |}.

Definition set_trivialQuestion (v : bool) (s : State) : State :=
  {| step := step s; totalStep := totalStep s; gaps := gaps s;
     allQuestions := allQuestions s; allKeywords := allKeywords s;
     allKnowledge := allKnowledge s; diaryContext := diaryContext s;
     weightedURLs := weightedURLs s; allowAnswer := allowAnswer s;
     allowSearch := allowSearch s; allowRead := allowRead s;
     allowReflect := allowReflect s; allowCoding := allowCoding s;
     thisStep := thisStep s; allURLs := allURLs s;
     visitedURLs := visitedURLs s; badURLs := badURLs s;
     evaluationMetrics := evaluationMetrics s;
     finalAnswerPIP := finalAnswerPIP s; trivialQuestion := v;
     tokenTracker := tokenTracker s; events := events s |}.

Definition set_tokenTracker (v : TokenTracker) (s : State) : State :=
  {| step := step s; totalStep := totalStep s; gaps := gaps s;
     allQuestions := allQuestions s; allKeywords := allKeywords s;
     allKnowledge := allKnowledge s; diaryContext := diaryContext s;
     weightedURLs := weightedURLs s; allowAnswer := allowAnswer s;
     allowSearch := allowSearch s; allowRead := allowRead s;
     allowReflect := allowReflect s; allowCoding := allowCoding s;
     thisStep := thisStep s; allURLs := allURLs s;
     visitedURLs := visitedURLs s; badURLs := badURLs s;
     evaluationMetrics := evaluationMetrics s;
     finalAnswerPIP := finalAnswerPIP s;
     trivialQuestion := trivialQuestion s; tokenTracker := v;
     events := events s |}.

Definition set_events (v : list Event) (s : State) : State :=
  {| step := step s; totalStep := totalStep s; gaps := gaps s;
     allQuestions := allQuestions s; allKeywords := allKeywords s;
     allKnowledge := allKnowledge s; diaryContext := diaryContext s;
     weightedURLs := weightedURLs s; allowAnswer := allowAnswer s;
     allowSearch := allowSearch s; allowRead := allowRead s;
     allowReflect := allowReflect s; allowCoding := allowCoding s;
     thisStep := thisStep s; allURLs := allURLs s;
     visitedURLs := visitedURLs s; badURLs := badURLs s;
     evaluationMetrics := evaluationMetrics s;
     finalAnswerPIP := finalAnswerPIP s;
     trivialQuestion := trivialQuestion s; tokenTracker := tokenTracker s;
     events := v |}.


(* --------------------------------------------------------------------- *)
(*  A state and exception monad for the body of getResponse               *)
(* --------------------------------------------------------------------- *)

Inductive Res (A : Type) : Type :=
| Ok (a : A) (s : State)
| Throw (e : JsError) (s : State).
Arguments Ok {A} a s.
Arguments Throw {A} e s.

Definition M (A : Type) : Type := State -> Res A.

Definition ret {A} (a : A) : M A := fun s => Ok a s.

Definition bind {A B} (m : M A) (k : A -> M B) : M B :=
  fun s =>
    match m s with
    | Ok a s' => k a s'
    | Throw e s' => Throw e s'
    end.

Notation "x <- m ;; k" := (bind m (fun x => k))
  (at level 100, m at next level, right associativity).
Notation "m ;;; k" := (bind m (fun _ => k))
  (at level 100, right associativity).

Definition get : M State := fun s => Ok s s.

Definition modify (f : State -> State) : M unit := fun s => Ok tt (f s).

Definition throw {A} (e : JsError) : M A := fun s => Throw e s.

Definition when (b : bool) (m : M unit) : M unit :=
  if b then m else ret tt.

(** One more event. *)
Definition emit (e : Event) : M unit :=
  modify (fun s => set_events (events s ++ [e]) s).

(** The collaborator calls [context.tokenTracker.trackUsage] for each of
    the usages. *)
Definition track (us : list TokenUsage) : M unit :=
  modify (fun s =>
    set_tokenTracker
      (fold_left (fun t u => trackUsage (tool u) (usage u) t) us
         (tokenTracker s)) s).

(** [await f(...)] outside any [try]: a rejection leaves the function. *)
Definition await {A} (callee : string) (r : ext A) : M A :=
  match r with
  | Some (a, us) => track us ;;; ret a
  | None => throw (Rejected callee)
  end.

(** A [for ... of] loop threading an accumulator. *)
Fixpoint for_of {A B} (l : list A) (acc : B) (f : A -> B -> M B) : M B :=
  match l with
  | [] => ret acc
  | x :: l' => acc' <- f x acc ;; for_of l' acc' f
  end.

(** [[...new Set(l)]]: the first occurrence of each value, in order. *)
Fixpoint new_Set (seen l : list jsstring) : list jsstring :=
  match l with
  | [] => []
  | x :: l' =>
      if includes x seen then new_Set seen l'
      else x :: new_Set (x :: seen) l'
  end.

(** [a.splice(k, 1)] where [k] is the result of [indexOf]: index -1
    removes the last element. *)
Definition splice1 {A} (k : option nat) (l : list A) : list A :=
  match k with
  | Some i => delete i l
  | None => removelast l
  end.

(** Truthiness of a string. *)
Definition nonempty {A} (l : list A) : bool :=
  match l with
  | [] => false
  | _ :: _ => true
  end.

(** [a || b] on strings. *)
Definition or_else (a b : jsstring) : jsstring :=
  if nonempty a then a else b.

(* --------------------------------------------------------------------- *)
(*  src/agent.ts: getPrompt, updateReferences, executeSearchQueries       *)
(* --------------------------------------------------------------------- *)

(** The parameters of [getResponse] once the question is extracted. *)
Record Config := {
  question : jsstring;
  messages : list CoreMessage;
  c_tokenBudget : Z;
  c_maxBadAttempts : Z;
  numReturnedURLs : nat;
  noDirectAnswer : bool;
  boostHostnames : list jsstring;
  badHostnames : list jsstring;
  onlyHostnames : list jsstring
}.

Inductive LoopCtl := Next | Break.

Section Agent.

Variable E : Env.

Definition getPrompt (context : list DiaryEntry)
    (allKeywords : list jsstring)
    (allowReflect allowAnswer allowRead allowSearch allowCoding : bool)
    (allURLs : list BoostedSearchSnippet) (beastMode : bool) : Prompt :=
  let urlList := sortSelectURLs E allURLs 20 in
  {| p_context := context;
     p_actions :=
       (if allowRead && nonempty urlList
        then [action_visit (map b_url urlList)] else [])
       ++ (if allowSearch then [action_search allKeywords] else [])
       ++ (if allowAnswer then [action_answer] else [])
       ++ (if beastMode then [action_answer_beast] else [])
       ++ (if allowReflect then [action_reflect] else [])
       ++ (if allowCoding then [action_coding] else []);
     p_urlList := map b_url urlList |}.

Definition getAgentSchema
    (allowReflect allowRead allowAnswer allowSearch allowCoding : bool)
    (currentQuestion : option jsstring) : AgentSchema :=
  {| s_reflect := allowReflect; s_read := allowRead;
     s_answer := allowAnswer; s_search := allowSearch;
     s_coding := allowCoding; s_question := currentQuestion |}.

(** [includesEval(allChecks, evalType)] *)
Definition includesEval (allChecks : list RepeatEvaluationType)
    (evalType : EvaluationType) : bool :=
  existsb (fun c => bool_decide (ev_type c = evalType)) allChecks.

(** [normalizeUrl(u)], read as a condition: [undefined] and the empty
    string are both falsy. *)
Definition normalized (u : jsstring) : option jsstring :=
  match normalizeUrl E u with
  | Some (c :: n) => Some (c :: n)
  | _ => None
  end.

(** The first half of [updateReferences]: the references with a URL that
    normalizes, rebuilt from the URL store. *)
Definition normalizeReferences (allURLs : gmap jsstring SearchSnippet)
    (refs : list Reference) : list Reference :=
  omap
    (fun ref =>
       if nonempty (ref_url ref) then
         match normalized (ref_url ref) with
         | None => None
         | Some normalizedUrl =>
             let known := allURLs !! normalizedUrl in
             Some
               {| exactQuote :=
                    sanitizeQuote E
                      (or_else (exactQuote ref)
                         (or_else (from_option description [] known)
                            (from_option title [] known)));
                  ref_title := from_option title [] known;
                  ref_url := normalizedUrl;
                  dateTime :=
                    or_else (dateTime ref)
                      (default [] (known ≫= date)) |}
         end
       else None)
    refs.

Definition set_dateTime (d : jsstring) (r : Reference) : Reference :=
  {| exactQuote := exactQuote r; ref_title := ref_title r;
     ref_url := ref_url r; dateTime := d |}.

(** The second half: every reference without a date is given the
    last-modified date of its URL. *)
Definition fillDates (refs : list Reference) : M (list Reference) :=
  for_of refs []
    (fun ref done =>
       if nonempty (dateTime ref) then ret (done ++ [ref])
       else
         emit (EvGetLastModified (ref_url ref)) ;;;
         d <- await "getLastModified" (getLastModified E (ref_url ref)) ;;
         ret (done ++ [set_dateTime (default [] d) ref])).

Definition updateReferences (refs : list Reference) : M (list Reference) :=
  s <- get ;;
  fillDates (normalizeReferences (allURLs s) refs).

(** [query.q] once the [site:] constraints are appended. *)
Definition with_sites (query : jsstring) (onlyHostnames : list jsstring)
    : jsstring :=
  match onlyHostnames with
  | [] => query
  | h :: hs =>
      query ++ js " site:" ++ h
      ++ concat (map (fun h' => js " OR site:" ++ h') hs)
  end.

(** [a.join(sep)] *)
Fixpoint join (sep : jsstring) (l : list jsstring) : jsstring :=
  match l with
  | [] => []
  | [x] => x
  | x :: l' => x ++ sep ++ join sep l'
  end.

(** One round of the loop of [executeSearchQueries]: a failed or empty
    search is skipped; another extends the URL store and produces one
    knowledge item. *)
Definition search_one (onlyHostnames : list jsstring) (query : SERPQuery)
    (acc : list KnowledgeItem * list jsstring)
    : M (list KnowledgeItem * list jsstring) :=
  let oldQuery := q query in
  let query_q := with_sites (q query) onlyHostnames in
  emit (EvSearch query_q) ;;;
  match searchProvider E query_q with
  | None => ret acc
  | Some (results, us) =>
      track us ;;;
      if nonempty results then
        let minResults :=
          omap
            (fun r =>
               match normalized (url r) with
               | Some u =>
                   Some {| title := title r; url := u;
                           description := description r;
                           weight := 1; date := date r |}
               | None => None
               end)
            results in
        modify (fun s =>
          set_allURLs
            (fold_left (fun m r => snd (addToAllURLs E r m))
               minResults (allURLs s)) s) ;;;
        ret (fst acc ++
               [{| k_question := KQ_internet_say oldQuery;
                   k_answer :=
                     removeHTMLtags E
                       (join (js "; ") (map description minResults));
                   k_references := [];
                   k_type := side_info |}],
             snd acc ++ [query_q])
      else ret acc
  end.

(** [executeSearchQueries(keywordsQueries, context, allURLs, SchemaGen,
    onlyHostnames)], returning the new knowledge and the searched
    queries. *)
Definition executeSearchQueries (keywordsQueries : list SERPQuery)
    (onlyHostnames : list jsstring)
    : M (list KnowledgeItem * list jsstring) :=
  for_of keywordsQueries ([], []) (search_one onlyHostnames).

(* --------------------------------------------------------------------- *)
(*  src/agent.ts: one iteration of the main loop                          *)
(* --------------------------------------------------------------------- *)

Variable C : Config.

(** [step++; totalStep++], the progress line written to the console, and
    [allowReflect = allowReflect && (gaps.length <= MAX_REFLECT_PER_STEP)]. *)
Definition begin_step : M unit :=
  modify (fun s => set_step (S (step s)) s) ;;;
  modify (fun s => set_totalStep (S (totalStep s)) s) ;;;
  s <- get ;;
  emit (EvStep (totalStep s)
          (totalTokens (getTotalUsage (tokenTracker s)))) ;;;
  modify (fun s =>
    set_allowReflect
      (allowReflect s
       && (length (gaps s) <=? MAX_REFLECT_PER_STEP E)%nat) s).

(** [const currentQuestion = gaps[totalStep % gaps.length]]. With no gap
    left the index is NaN, the value is undefined, and the next statement,
    [currentQuestion.trim()], throws. *)
Definition pick_question : M jsstring :=
  s <- get ;;
  match gaps s !! (totalStep s mod length (gaps s))%nat with
  | Some currentQuestion => ret currentQuestion
  | None => throw (TypeError "currentQuestion.trim")
  end.

(** [evaluationMetrics[currentQuestion]], used as an array. *)
Definition metrics_of (currentQuestion : jsstring)
    : M (list RepeatEvaluationType) :=
  s <- get ;;
  match evaluationMetrics s !! currentQuestion with
  | Some l => ret l
  | None => throw (TypeError "evaluationMetrics[currentQuestion]")
  end.

(** The criteria of the original question are chosen once, at step 1; a
    sub-question gets none. *)
Definition seed_criteria (currentQuestion : jsstring) : M unit :=
  s <- get ;;
  if bool_decide (trim currentQuestion = question C)
     && bool_decide (totalStep s = 1%nat)
  then
    emit (EvEvaluateQuestion currentQuestion) ;;;
    types <- await "evaluateQuestion" (evaluateQuestion E currentQuestion) ;;
    modify (fun s =>
      set_evaluationMetrics
        (<[currentQuestion :=
             map (fun e => {| ev_type := e;
                              numEvalsRequired := c_maxBadAttempts C |})
               types
             ++ [{| ev_type := strict;
                    numEvalsRequired := c_maxBadAttempts C |}]]>
           (evaluationMetrics s)) s)
  else if negb (bool_decide (trim currentQuestion = question C))
  then
    modify (fun s =>
      set_evaluationMetrics
        (<[currentQuestion := []]> (evaluationMetrics s)) s)
  else ret tt.

(** A freshness criterion forbids answering and reflecting at step 1. *)
Definition freshness_lockout (currentQuestion : jsstring) : M unit :=
  s <- get ;;
  if bool_decide (totalStep s = 1%nat) then
    checks <- metrics_of currentQuestion ;;
    when (includesEval checks freshness)
      (modify (fun s => set_allowReflect false (set_allowAnswer false s)))
  else ret tt.

(** Re-rank the URL store (when it is not empty), keep two URLs per
    hostname. *)
Definition rank_urls (currentQuestion : jsstring) : M unit :=
  modify (fun s =>
    if bool_decide (allURLs s = ∅) then s
    else
      set_weightedURLs
        (keepKPerHostname E
           (rankURLs E
              (filterURLs E (allURLs s) (visitedURLs s) (badHostnames C)
                 (onlyHostnames C))
              currentQuestion (boostHostnames C))
           2) s).

(** [allowRead = allowRead && (weightedURLs.length > 0)] and
    [allowSearch = allowSearch && (weightedURLs.length < 200)]. *)
Definition gate_actions : M unit :=
  modify (fun s =>
    set_allowRead
      (allowRead s && (0 <? length (weightedURLs s))%nat) s) ;;;
  modify (fun s =>
    set_allowSearch
      (allowSearch s && (length (weightedURLs s) <? 200)%nat) s).

(** Build the prompt, ask the LLM for the next action, publish it, and
    set the five flags back to true. The URL list shown in the prompt is
    returned for the visit dispatch. *)
Definition ask_llm (currentQuestion : jsstring) : M (list jsstring) :=
  s <- get ;;
  let prompt :=
    getPrompt (diaryContext s) (allKeywords s) (allowReflect s)
      (allowAnswer s) (allowRead s) (allowSearch s) (allowCoding s)
      (weightedURLs s) false in
  let req :=
    {| r_schema :=
         getAgentSchema (allowReflect s) (allowRead s) (allowAnswer s)
           (allowSearch s) (allowCoding s) (Some currentQuestion);
       r_system := prompt;
       r_messages :=
         composeMsgs (messages C) (allKnowledge s) currentQuestion
           (if bool_decide (currentQuestion = question C)
            then Some (finalAnswerPIP s) else None) |} in
  emit (EvGenerateObject req) ;;;
  object <- await "generateObject" (generateObject E (totalStep s) req) ;;
  modify (set_thisStep (toStep object)) ;;;
  emit (EvTrackAction (totalStep s) (toStep object)) ;;;
  modify (fun s =>
    set_allowCoding true (set_allowSearch true (set_allowRead true
      (set_allowReflect true (set_allowAnswer true s))))) ;;;
  ret (p_urlList prompt).

(** [updateContext({totalStep, ...thisStep, ...})] *)
Definition updateContext : M unit :=
  s <- get ;;
  emit (EvUpdateContext (totalStep s) (thisStep s)).

(** [await processURLs(urls, context, allKnowledge, allURLs, visitedURLs,
    badURLs, SchemaGen, currentQuestion)], which extends the four
    collections it is given. *)
Definition run_processURLs (urls : list jsstring) : M ProcessResult :=
  s <- get ;;
  emit (EvProcessURLs urls) ;;;
  r <- await "processURLs"
         (processURLs E (totalStep s) urls (allURLs s) (visitedURLs s)
            (badURLs s)) ;;
  modify (fun s =>
    set_allKnowledge (allKnowledge s ++ pr_knowledge r)
      (set_allURLs (pr_allURLs r)
         (set_visitedURLs (visitedURLs s ++ pr_visited r)
            (set_badURLs (badURLs s ++ pr_bad r) s)))) ;;;
  ret r.

Definition push_diary (d : DiaryEntry) : M unit :=
  modify (fun s => set_diaryContext (diaryContext s ++ [d]) s).

Definition push_knowledge (k : list KnowledgeItem) : M unit :=
  modify (fun s => set_allKnowledge (allKnowledge s ++ k) s).

(* --------------------------------------------------------------------- *)
(*  src/agent.ts: the five dispatch handlers                              *)
(* --------------------------------------------------------------------- *)

Definition passed : EvaluationResponse :=
  {| pass := true; e_think := []; e_type := None; improvement_plan := None |}.

(** [e.numEvalsRequired--] on the criterion that failed, then drop the
    criteria that have no attempt left. *)
Definition consume_attempt (failed : option EvaluationType)
    (checks : list RepeatEvaluationType) : list RepeatEvaluationType :=
  List.filter (fun e => 0 <? numEvalsRequired e)
    (map
       (fun e =>
          if bool_decide (Some (ev_type e) = failed)
          then {| ev_type := ev_type e;
                  numEvalsRequired := numEvalsRequired e - 1 |}
          else e)
       checks).

(** The answer dispatch: normalize the references; accept a first-step
    answer without references as trivial; otherwise read the referenced
    pages, evaluate the answer against the criteria of the question, and
    accept it, or charge the failed criterion and go on, or give up when
    no criterion is left. An accepted answer to a sub-question becomes
    knowledge and the sub-question leaves the gaps. *)
Definition dispatch_answer (currentQuestion think answer : jsstring)
    (references : list Reference) : M LoopCtl :=
  refs <- updateReferences references ;;
  modify (set_thisStep (AnswerAction think answer refs false)) ;;;
  s <- get ;;
  if bool_decide (totalStep s = 1%nat) && negb (nonempty refs)
     && negb (noDirectAnswer C)
  then
    modify (fun s =>
      set_trivialQuestion true
        (set_thisStep (AnswerAction think answer refs true) s)) ;;;
    ret Break
  else
    refs <-
      (if nonempty refs then
         let urls :=
           map ref_url
             (List.filter
                (fun ref => negb (includes (ref_url ref) (visitedURLs s)))
                refs) in
         run_processURLs (new_Set [] urls) ;;;
         s <- get ;;
         ret (List.filter
                (fun ref => negb (includes (ref_url ref) (badURLs s))) refs)
       else ret refs) ;;
    modify (set_thisStep (AnswerAction think answer refs false)) ;;;
    updateContext ;;;
    checks <- metrics_of currentQuestion ;;
    s <- get ;;
    evaluation <-
      (if nonempty checks then
         emit (EvEvaluateAnswer currentQuestion (map ev_type checks)) ;;;
         r <- await "evaluateAnswer"
                (evaluateAnswer E (totalStep s) currentQuestion (thisStep s)
                   (map ev_type checks)) ;;
         ret (default passed r)
       else ret passed) ;;
    if bool_decide (trim currentQuestion = question C) then
      modify (set_allowCoding false) ;;;
      if pass evaluation then
        push_diary
          (D_answer_good (step s) currentQuestion answer
             (e_think evaluation)) ;;;
        modify (set_thisStep (AnswerAction think answer refs true)) ;;;
        ret Break
      else
        let checks' := consume_attempt (e_type evaluation) checks in
        modify (fun s =>
          set_evaluationMetrics
            (<[currentQuestion := checks']> (evaluationMetrics s)) s) ;;;
        when (bool_decide (e_type evaluation = Some strict)
              && nonempty (default [] (improvement_plan evaluation)))
          (modify (fun s =>
             set_finalAnswerPIP
               (finalAnswerPIP s
                ++ [default [] (improvement_plan evaluation)]) s)) ;;;
        if negb (nonempty checks') then
          modify (set_thisStep (AnswerAction think answer refs false)) ;;;
          ret Break
        else
          push_diary
            (D_answer_bad (step s) currentQuestion answer
               (e_think evaluation)) ;;;
          s <- get ;;
          emit EvAnalyzeSteps ;;;
          errorAnalysis <-
            await "analyzeSteps"
              (analyzeSteps E (totalStep s) (diaryContext s)) ;;
          push_knowledge
            [{| k_question := KQ_why_bad currentQuestion answer;
                k_answer :=
                  e_think evaluation ++ recap errorAnalysis
                  ++ blame errorAnalysis ++ improvement errorAnalysis;
                k_references := [];
                k_type := qa |}] ;;;
          modify (fun s =>
            set_step 0%nat (set_diaryContext [] (set_allowAnswer false s))) ;;;
          ret Next
    else if pass evaluation then
      push_diary
        (D_sub_answer_good (step s) currentQuestion answer
           (e_think evaluation)) ;;;
      push_knowledge
        [{| k_question := KQ_question currentQuestion;
            k_answer := answer;
            k_references := refs;
            k_type := qa |}] ;;;
      modify (fun s =>
        set_gaps (splice1 (indexOf currentQuestion (gaps s)) (gaps s)) s) ;;;
      ret Next
    else ret Next.

(** The reflect dispatch: the sub-questions that are new, capped, join the
    gaps and the history of questions. *)
Definition dispatch_reflect (currentQuestion think : jsstring)
    (questionsToAnswer : list jsstring) : M LoopCtl :=
  s <- get ;;
  emit (EvDedupQueries questionsToAnswer (allQuestions s)) ;;;
  unique <- await "dedupQueries"
              (dedupQueries E questionsToAnswer (allQuestions s)) ;;
  let newGapQuestions := chooseK E unique (MAX_REFLECT_PER_STEP E) in
  modify (set_thisStep (ReflectAction think newGapQuestions)) ;;;
  (if nonempty newGapQuestions then
     push_diary (D_reflect_new (step s) currentQuestion newGapQuestions) ;;;
     modify (fun s =>
       set_allQuestions (allQuestions s ++ newGapQuestions)
         (set_gaps (gaps s ++ newGapQuestions) s)) ;;;
     updateContext
   else
     push_diary (D_reflect_nothing (step s) currentQuestion) ;;;
     updateContext) ;;;
  modify (set_allowReflect false) ;;;
  ret Next.

(** The rewritten queries kept for the second pass: for each surviving
    string, the query object it came from, or a bare query when several
    objects share it. A string that matches no object gives [undefined]. *)
Definition rebuild_queries (keywordsQueries : list SERPQuery)
    (uniqQOnly : list jsstring) : list (option SERPQuery) :=
  map
    (fun x =>
       let matches :=
         List.filter (fun kq => bool_decide (q kq = x)) keywordsQueries in
       if (1 <? length matches)%nat
       then Some {| q := x; tbs := None |}
       else head matches)
    uniqQOnly.

(** The first search pass: the requests of the LLM, deduplicated with an
    empty history and capped, are searched; what was searched joins
    [allKeywords]. *)
Definition search_first_pass (think : jsstring)
    (searchRequests : list jsstring) : M (list KnowledgeItem) :=
  emit (EvDedupQueries searchRequests []) ;;;
  unique <- await "dedupQueries" (dedupQueries E searchRequests []) ;;
  let searchRequests := chooseK E unique (MAX_QUERIES_PER_STEP E) in
  modify (set_thisStep (SearchAction think searchRequests)) ;;;
  first_pass <-
    executeSearchQueries
      (map (fun x => {| q := x; tbs := None |}) searchRequests) [] ;;
  modify (fun s => set_allKeywords (allKeywords s ++ snd first_pass) s) ;;;
  push_knowledge (fst first_pass) ;;;
  ret (fst first_pass).

(** The second pass: the queries rewritten from the first results,
    deduplicated against [allKeywords] and capped, are searched. *)
Definition search_second_pass (currentQuestion : jsstring)
    (newKnowledge : list KnowledgeItem) : M unit :=
  let soundBites := join (js " ") (map k_answer newKnowledge) in
  s <- get ;;
  emit EvRewriteQuery ;;;
  keywordsQueries <-
    await "rewriteQuery"
      (rewriteQuery E (totalStep s) (thisStep s) soundBites) ;;
  let qOnly :=
    map q (List.filter (fun kq => nonempty (q kq)) keywordsQueries) in
  emit (EvDedupQueries qOnly (allKeywords s)) ;;;
  unique <- await "dedupQueries" (dedupQueries E qOnly (allKeywords s)) ;;
  let uniqQOnly := chooseK E unique (MAX_QUERIES_PER_STEP E) in
  let rebuilt := rebuild_queries keywordsQueries uniqQOnly in
  anyResult <-
    (if nonempty rebuilt then
       match mapM id rebuilt with
       | None => throw (TypeError "q.q")
       | Some keywordsQueries =>
           second_pass <-
             executeSearchQueries keywordsQueries (onlyHostnames C) ;;
           if nonempty (snd second_pass) then
             modify (fun s =>
               set_allKeywords (allKeywords s ++ snd second_pass) s) ;;;
             push_knowledge (fst second_pass) ;;;
             push_diary
               (D_search_found (step s) currentQuestion
                  (map (fun kq => with_sites (q kq) (onlyHostnames C))
                     keywordsQueries)) ;;;
             updateContext ;;;
             ret true
           else ret false
       end
     else ret false) ;;
  when (negb anyResult || negb (nonempty rebuilt))
    (push_diary
       (D_search_nothing (step s) currentQuestion
          (map (fun kq => with_sites (q kq) (onlyHostnames C))
             (default [] (mapM id rebuilt)))) ;;;
     updateContext).

Definition dispatch_search (currentQuestion think : jsstring)
    (searchRequests : list jsstring) : M LoopCtl :=
  newKnowledge <- search_first_pass think searchRequests ;;
  search_second_pass currentQuestion newKnowledge ;;;
  modify (set_allowSearch false) ;;;
  ret Next.

(** The indices chosen by the LLM are looked up in the URL list of the
    prompt; an index that points outside the list gives no URL. The URLs
    not visited yet, followed by the ranked URLs, without repetition, are
    cut to [MAX_URLS_PER_STEP] and read. *)
Definition dispatch_visit (currentQuestion think : jsstring)
    (URLTargets : list Z) (urlList : list jsstring) : M LoopCtl :=
  s <- get ;;
  let chosen :=
    omap
      (fun idx =>
         match (if 1 <=? idx then urlList !! Z.to_nat (idx - 1) else None) with
         | Some u =>
             match normalized u with
             | Some n => if includes n (visitedURLs s) then None else Some n
             | None => None
             end
         | None => None
         end)
      URLTargets in
  let uniqueURLs :=
    take (MAX_URLS_PER_STEP E)
      (new_Set [] (chosen ++ map b_url (weightedURLs s))) in
  modify (set_thisStep (VisitAction think (Urls uniqueURLs))) ;;;
  (if nonempty uniqueURLs then
     r <- run_processURLs uniqueURLs ;;
     push_diary
       (if success r then D_visit_read (step s) (urlResults r)
        else D_visit_failed (step s)) ;;;
     updateContext
   else
     push_diary (D_visit_nothing (step s)) ;;;
     updateContext) ;;;
  modify (set_allowRead false) ;;;
  ret Next.

(** [sandbox.solve] runs inside [try]: a failure is narrated. *)
Definition dispatch_coding (think codingIssue : jsstring) : M LoopCtl :=
  s <- get ;;
  emit (EvSolve codingIssue) ;;;
  match solve E (totalStep s) codingIssue with
  | Some (solution, us) =>
      track us ;;;
      push_knowledge
        [{| k_question := KQ_coding_solution codingIssue;
            k_answer := sol_output solution;
            k_references := [];
            k_type := k_coding |}] ;;;
      push_diary (D_coding_solved (step s) codingIssue) ;;;
      updateContext
  | None =>
      push_diary (D_coding_failed (step s) codingIssue) ;;;
      updateContext
  end ;;;
  modify (set_allowCoding false) ;;;
  ret Next.

(** The chain of [if ... else if] on the chosen action; an action whose
    payload is empty falls through every branch. *)
Definition dispatch (currentQuestion : jsstring) (urlList : list jsstring)
    : M LoopCtl :=
  s <- get ;;
  match thisStep s with
  | AnswerAction think answer references _ =>
      if nonempty answer
      then dispatch_answer currentQuestion think answer references
      else ret Next
  | ReflectAction think questionsToAnswer =>
      dispatch_reflect currentQuestion think questionsToAnswer
  | SearchAction think searchRequests =>
      dispatch_search currentQuestion think searchRequests
  | VisitAction think (Indices URLTargets) =>
      if nonempty URLTargets && nonempty urlList
      then dispatch_visit currentQuestion think URLTargets urlList
      else ret Next
  | VisitAction _ (Urls _) => ret Next
  | CodingAction think codingIssue =>
      if nonempty codingIssue
      then dispatch_coding think codingIssue
      else ret Next
  end.

(** The first half of the body of the [while] loop, up to the choice of
    an action by the LLM. *)
Definition choose_action : M (jsstring * list jsstring) :=
  begin_step ;;;
  currentQuestion <- pick_question ;;
  seed_criteria currentQuestion ;;;
  freshness_lockout currentQuestion ;;;
  rank_urls currentQuestion ;;;
  gate_actions ;;;
  urlList <- ask_llm currentQuestion ;;
  ret (currentQuestion, urlList).

(** The body of the [while] loop. The snapshot written by [storeContext]
    and the sleep that end it change nothing here. *)
Definition loop_body : M LoopCtl :=
  chosen <- choose_action ;;
  dispatch (fst chosen) (snd chosen).

(* --------------------------------------------------------------------- *)
(*  src/agent.ts: the main loop                                           *)
(* --------------------------------------------------------------------- *)

(** [const regularBudget = tokenBudget * 0.85]. The product is taken
    exactly; on integer token counts the comparison below agrees with the
    one on doubles for every budget below 2^49. *)
Definition regularBudget : Q := (inject_Z (c_tokenBudget C) * (85 # 100))%Q.

(** The loop guard:
    [context.tokenTracker.getTotalUsage().totalTokens < regularBudget]. *)
Definition within_budget (s : State) : bool :=
  negb (Qle_bool regularBudget
          (inject_Z (totalTokens (getTotalUsage (tokenTracker s))))).

Inductive LoopExit :=
| Exited (s : State)
| Failed (e : JsError) (s : State)
| Running (s : State).

(** The [while] loop, for at most [fuel] iterations; [Running] is a loop
    that has not ended yet. *)
Fixpoint main_loop (fuel : nat) (s : State) : LoopExit :=
  match fuel with
  | O => Running s
  | S fuel' =>
      if within_budget s then
        match loop_body s with
        | Ok Next s' => main_loop fuel' s'
        | Ok Break s' => Exited s'
        | Throw e s' => Failed e s'
        end
      else Exited s
  end.

End Agent.

(* --------------------------------------------------------------------- *)
(*  src/agent.ts: getResponse                                             *)
(* --------------------------------------------------------------------- *)

(** The arguments of [getResponse]; the optional ones with a default value
    are given after defaulting. *)
Record Args := {
  a_question : option jsstring;
  a_tokenBudget : Z;
  a_maxBadAttempts : Z;
  a_tokenTracker : option TokenTracker;
  a_messages : option (list CoreMessage);
  a_numReturnedURLs : nat;
  a_noDirectAnswer : bool;
  a_boostHostnames : list jsstring;
  a_badHostnames : list jsstring;
  a_onlyHostnames : list jsstring
}.

Definition text_parts (parts : list ContentPart) : list jsstring :=
  omap (fun c => match c with TextPart t => Some t | _ => None end) parts.

(** The question and the conversation: the last message gives the
    question, trimmed when its content is a string, and taken as it is
    from the last text part when its content is an array. *)
Definition extract_question (a : Args)
    : JsError + (jsstring * list CoreMessage) :=
  let question := trim <$> a_question a in
  let messages :=
    List.filter (fun m => negb (bool_decide (role m = system)))
      <$> a_messages a in
  match messages with
  | Some (m :: ms) =>
      match content (List.last ms m) with
      | CString lastContent => inr (trim lastContent, m :: ms)
      | CParts lastContent =>
          inr (List.last (text_parts lastContent) [], m :: ms)
      end
  | _ =>
      match question with
      | Some question =>
          inr (question, [{| role := user; content := CString (trim question) |}])
      | None => inl (TypeError "question.trim")
      end
  end.

Definition message_text (m : CoreMessage) : jsstring :=
  match content m with
  | CString c => trim c
  | CParts parts => trim (join [10%N] (text_parts parts))
  end.

(** The URLs mentioned in the conversation are put in the URL store. *)
Definition preload_urls (E : Env) (messages : list CoreMessage)
    : gmap jsstring SearchSnippet :=
  fold_left
    (fun m msg =>
       fold_left (fun m u => snd (addToAllURLs E u m))
         (extractUrlsWithDescription E (message_text msg)) m)
    messages ∅.

Definition initial_state (E : Env) (a : Args) (question : jsstring)
    (messages : list CoreMessage) : State :=
  {| step := 0; totalStep := 0;
     gaps := [question]; allQuestions := [question]; allKeywords := [];
     allKnowledge := []; diaryContext := []; weightedURLs := [];
     allowAnswer := true; allowSearch := true; allowRead := true;
     allowReflect := true; allowCoding := false;
     thisStep := AnswerAction [] [] [] false;
     allURLs := preload_urls E messages;
     visitedURLs := []; badURLs := [];
     evaluationMetrics := ∅; finalAnswerPIP := [];
     trivialQuestion := false;
     tokenTracker :=
       default (newTokenTracker (Some (a_tokenBudget a))) (a_tokenTracker a);
     events := [] |}.

Definition config_of (a : Args) (question : jsstring)
    (messages : list CoreMessage) : Config :=
  {| question := question; messages := messages;
     c_tokenBudget := a_tokenBudget a;
     c_maxBadAttempts := a_maxBadAttempts a;
     numReturnedURLs := a_numReturnedURLs a;
     noDirectAnswer := a_noDirectAnswer a;
     boostHostnames := a_boostHostnames a;
     badHostnames := a_badHostnames a;
     onlyHostnames := a_onlyHostnames a |}.

(** The names that denote a value where the forced-answer call is
    written: the value imports and the module-level declarations of
    agent.ts, then the parameters and the locals of [getResponse]. *)
Definition bound_identifiers : list string :=
  [ "SEARCH_PROVIDER"; "STEP_SLEEP"; "fs"; "SafeSearchType"; "duckSearch";
    "braveSearch"; "rewriteQuery"; "dedupQueries"; "evaluateAnswer";
    "evaluateQuestion"; "analyzeSteps"; "TokenTracker"; "ActionTracker";
    "search"; "zodToJsonSchema"; "ObjectGeneratorSafe"; "CodeSandbox";
    "serperSearch"; "addToAllURLs"; "rankURLs"; "filterURLs";
    "normalizeUrl"; "sortSelectURLs"; "getLastModified"; "keepKPerHostname";
    "processURLs"; "fixBadURLMdLinks"; "extractUrlsWithDescription";
    "buildMdFromAnswer"; "chooseK"; "convertHtmlTablesToMd";
    "fixCodeBlockIndentation"; "removeExtraLineBreaks"; "removeHTMLtags";
    "repairMarkdownFinal"; "repairMarkdownFootnotesOuter";
    "MAX_QUERIES_PER_STEP"; "MAX_REFLECT_PER_STEP"; "MAX_URLS_PER_STEP";
    "Schemas"; "formatDateBasedOnType"; "formatDateRange"; "fixMarkdown";
    "repairUnknownChars";
    "sleep"; "BuildMsgsFromKnowledge"; "composeMsgs"; "getPrompt";
    "allContext"; "updateContext"; "updateReferences";
    "executeSearchQueries"; "includesEval"; "getResponse"; "storeContext";
    "main";
    "question"; "tokenBudget"; "maxBadAttempts"; "existingContext";
    "messages"; "numReturnedURLs"; "noDirectAnswer"; "boostHostnames";
    "badHostnames"; "onlyHostnames"; "step"; "totalStep"; "SchemaGen";
    "context"; "generator"; "schema"; "gaps"; "allQuestions"; "allKeywords";
    "allKnowledge"; "diaryContext"; "weightedURLs"; "allowAnswer";
    "allowSearch"; "allowRead"; "allowReflect"; "allowCoding";
    "msgWithKnowledge"; "thisStep"; "allURLs"; "visitedURLs"; "badURLs";
    "evaluationMetrics"; "regularBudget"; "finalAnswerPIP";
    "trivialQuestion"; "system"; "systemToBeast" ]%string.

(** An argument expression of a call: a name to look up, or a function
    expression, which evaluates to a closure without running its body. *)
Inductive ArgExpr :=
| Ident (name : string)
| Arrow.

(** The arguments of the call written in the forced-answer block:
    [getResponse(question, context, async () => ..., SchemaGen,
    async (r) => ..., skipEval, finalAnswerPIP)]. *)
Definition forced_answer_call : list ArgExpr :=
  [ Ident "question"; Ident "context"; Arrow; Ident "SchemaGen"; Arrow;
    Ident "skipEval"; Ident "finalAnswerPIP" ]%string.

(** Arguments are evaluated from left to right before the call; a name
    bound nowhere raises a [ReferenceError]. *)
Fixpoint first_unbound (args : list ArgExpr) : option string :=
  match args with
  | [] => None
  | Ident x :: args' =>
      if bool_decide (x ∈ bound_identifiers) then first_unbound args'
      else Some x
  | Arrow :: args' => first_unbound args'
  end.

(** The block run when the loop leaves without a final answer. The prompt
    for an answer-only step is built; then comes, not a call to the
    generator, but a call to [getResponse] itself. Evaluating its
    arguments already fails. Were all the names bound, the callee would
    receive a function as [messages] and fail on [messages.filter]. The
    second function, the only place that sets [isFinal], is never run. *)
Definition beast_mode (E : Env) (C : Config) : M unit :=
  modify (fun s => set_step (S (step s)) s) ;;;
  modify (fun s => set_totalStep (S (totalStep s)) s) ;;;
  s <- get ;;
  let system :=
    getPrompt E (diaryContext s) (allKeywords s) false true false false false
      (weightedURLs s) true in
  let schema := getAgentSchema false false true false false (Some (question C)) in
  let msgWithKnowledge :=
    composeMsgs (messages C) (allKnowledge s) (question C)
      (Some (finalAnswerPIP s)) in
  match first_unbound forced_answer_call with
  | Some x => throw (ReferenceError x)
  | None => throw (TypeError "messages.filter")
  end.

Record Response := {
  result : StepAction;
  mdAnswer : jsstring;
  r_visitedURLs : list jsstring;
  readURLs : list jsstring;
  r_allURLs : list jsstring
}.

Inductive Outcome :=
| Returned (r : Response) (s : State)
| Threw (e : JsError) (s : option State)
| Unfinished (s : State).

(** What follows the loop: the forced answer when the last step is not
    final, the Markdown of the answer, and the returned record. *)
Definition finish (E : Env) (C : Config) : M Response :=
  s <- get ;;
  when (negb (isFinal_of (thisStep s))) (beast_mode E C) ;;;
  s <- get ;;
  md <-
    (if negb (trivialQuestion s)
     then await "repairUnknownChars"
            (markdownRepaired E (thisStep s) (allURLs s))
     else ret (markdownTrivial E (thisStep s))) ;;
  s <- get ;;
  ret {| result := thisStep s;
         mdAnswer := md;
         r_visitedURLs :=
           map b_url (take (numReturnedURLs C) (weightedURLs s));
         readURLs :=
           List.filter (fun u => negb (includes u (badURLs s)))
             (visitedURLs s);
         r_allURLs := map b_url (weightedURLs s) |}.

Definition getResponse (E : Env) (fuel : nat) (a : Args) : Outcome :=
  match extract_question a with
  | inl e => Threw e None
  | inr (question, messages) =>
      let C := config_of a question messages in
      match await "setLanguage" (setLanguage E question)
              (initial_state E a question messages) with
      | Throw e s => Threw e (Some s)
      | Ok _ s =>
          match main_loop E C fuel s with
          | Running s' => Unfinished s'
          | Failed e s' => Threw e (Some s')
          | Exited s' =>
              match finish E C s' with
              | Ok r s'' => Returned r s''
              | Throw e s'' => Threw e (Some s'')
              end
          end
      end
  end.

(* --------------------------------------------------------------------- *)
(*  Notions used to state the properties                                  *)
(* --------------------------------------------------------------------- *)

(** The text consumed so far: the chunks pushed, then the open chunk. *)
Definition consumed (st : Splitter) : jsstring :=
  concat (sp_chunks st) ++ currentChunk st.

Definition chunks_nonempty (st : Splitter) : Prop :=
  Forall (fun chunk => chunk <> []) (sp_chunks st).

(** [m], run from a state where [I] holds, ends in a state where [I]
    holds, whether it returns or throws. *)
Definition preserves {A} (I : State -> Prop) (m : M A) : Prop :=
  forall s, I s ->
    match m s with
    | Ok _ s' => I s'
    | Throw _ s' => I s'
    end.

(** An invariant that reads the state through [events] only. *)
Definition on_events (J : list Event -> Prop) : State -> Prop :=
  fun s => J (events s).

(** Events that keep an invariant [J] when appended. *)
Definition keeps (J : list Event -> Prop) (ev : Event) : Prop :=
  forall evs, J evs -> J (evs ++ [ev]).

(** The events the first half of an iteration can emit; the dispatch
    handlers emit the others. *)
Definition is_choice_event (ev : Event) : bool :=
  match ev with
  | EvStep _ _ | EvEvaluateQuestion _ | EvGenerateObject _
  | EvTrackAction _ _ => true
  | _ => false
  end.

Definition is_step_event (ev : Event) : bool :=
  match ev with
  | EvStep _ _ => true
  | _ => false
  end.

(** The state [getResponse] ended in, when it got as far as having one. *)
Definition final_events (o : Outcome) : list Event :=
  match o with
  | Returned _ s => events s
  | Threw _ (Some s) => events s
  | Threw _ None => []
  | Unfinished s => events s
  end.

(** [m], run from a state where [P] holds, returns [a] in a state where
    [Q a] holds, or throws in a state where [X] holds. *)
Definition hoare {A} (P : State -> Prop) (m : M A)
    (Q : A -> State -> Prop) (X : State -> Prop) : Prop :=
  forall s, P s ->
    match m s with
    | Ok a s' => Q a s'
    | Throw _ s' => X s'
    end.

(** The original question is the first of the gaps. *)
Definition original_first (C : Config) (s : State) : Prop :=
  head (gaps s) = Some (question C).

(** The gaps are the list [g0]. *)
Definition gaps_are (g0 : list jsstring) (s : State) : Prop := gaps s = g0.

(** The state of an iteration, and its question, of a loop run from [s]:
    the states the guard lets through. *)
Inductive iterates (E : Env) (C : Config) (s : State) : State -> Prop :=
| iterates_first : within_budget C s = true -> iterates E C s s
| iterates_next s1 s2 :
    iterates E C s s1 ->
    loop_body E C s1 = Ok Next s2 ->
    within_budget C s2 = true ->
    iterates E C s s2.

(** The state a loop stopped in. *)
Definition loop_state (r : LoopExit) : State :=
  match r with
  | Exited s => s
  | Failed _ s => s
  | Running s => s
  end.

(** A progress line [Step n / Budget used ...] written while the usage
    [t] is below 85% of the budget. *)
Definition step_within_budget (budget : Z) (ev : Event) : Prop :=
  match ev with
  | EvStep _ t => 100 * t < 85 * budget
  | _ => True
  end.

(** Events of an answer evaluation, a search, a visit or a probe of a
    page. *)
Definition is_work_event (ev : Event) : bool :=
  match ev with
  | EvEvaluateAnswer _ _ | EvAnalyzeSteps | EvDedupQueries _ _
  | EvSearch _ | EvRewriteQuery | EvProcessURLs _ | EvGetLastModified _ =>
      true
  | _ => false
  end.

Definition is_generateObject (ev : Event) : bool :=
  match ev with
  | EvGenerateObject _ => true
  | _ => false
  end.

(* --------------------------------------------------------------------- *)
(*  A small environment for the examples                                  *)
(* --------------------------------------------------------------------- *)

Definition usage_of (n : Z) : list TokenUsage :=
  [{| tool := js "agent";
      usage := {| promptTokens := 0; completionTokens := n;
                  totalTokens := n |} |}].

(** Collaborators that keep quiet: no URL in the conversation, searches
    that fail, pages that are read, an evaluator that asks for a
    definitive answer and accepts answers, exact-match deduplication and
    a cap that keeps the first [k] entries. The LLM is the parameter. Every
    URL of the examples has a hostname of its own, so the two-per-hostname
    cap keeps them all. *)
Definition exampleEnv (llm : nat -> Request -> ext AgentObject) : Env :=
  {| MAX_QUERIES_PER_STEP := 5;
     MAX_REFLECT_PER_STEP := 2;
     MAX_URLS_PER_STEP := 4;
     setLanguage := fun _ => Some (tt, []);
     extractUrlsWithDescription := fun _ => [];
     addToAllURLs := fun r m => (1, <[url r := r]> m);
     filterURLs := fun m visited _ _ =>
       List.filter (fun r => negb (includes (url r) visited))
         (map snd (map_to_list m));
     rankURLs := fun l _ _ =>
       map (fun r => {| b_url := url r; b_snippet := r |}) l;
     keepKPerHostname := fun l _ => l;
     sortSelectURLs := fun l k => take k l;
     normalizeUrl := Some;
     sanitizeQuote := fun x => x;
     removeHTMLtags := fun x => x;
     getLastModified := fun _ => Some (None, []);
     evaluateQuestion := fun _ => Some ([definitive], usage_of 10);
     generateObject := llm;
     evaluateAnswer := fun _ _ _ _ => Some (Some passed, usage_of 10);
     analyzeSteps := fun _ _ =>
       Some ({| recap := []; blame := []; improvement := [] |}, usage_of 10);
     dedupQueries := fun queries existing =>
       Some (new_Set existing queries, []);
     chooseK := fun l k => take k l;
     rewriteQuery := fun _ _ _ => Some ([], usage_of 10);
     searchProvider := fun _ => None;
     processURLs := fun _ urls m _ _ =>
       Some ({| pr_knowledge := []; pr_allURLs := m; pr_visited := urls;
                pr_bad := []; urlResults := urls; success := true |}, []);
     solve := fun _ _ => None;
     markdownTrivial := fun a =>
       match a with AnswerAction _ answer _ _ => answer | _ => [] end;
     markdownRepaired := fun a _ =>
       Some (match a with AnswerAction _ answer _ _ => answer | _ => [] end,
             []) |}.

(** An LLM that greets back, with no reference. *)
Definition llm_greets : nat -> Request -> ext AgentObject :=
  fun _ _ => Some (O_answer (js "greeting") (js "hello") [], usage_of 100).

(** An LLM that chooses the answer action and leaves the answer empty. *)
Definition llm_silent : nat -> Request -> ext AgentObject :=
  fun _ _ => Some (O_answer (js "thinking") [] [], usage_of 100).

(** An LLM that searches again for a keyword. *)
Definition llm_searches : nat -> Request -> ext AgentObject :=
  fun _ _ => Some (O_search (js "look it up") [js "a"], usage_of 100).

Definition args_of (messages : list CoreMessage) (tokenBudget : Z)
    (noDirectAnswer : bool) : Args :=
  {| a_question := None;
     a_tokenBudget := tokenBudget;
     a_maxBadAttempts := 1;
     a_tokenTracker := Some (newTokenTracker None);
     a_messages := Some messages;
     a_numReturnedURLs := 100;
     a_noDirectAnswer := noDirectAnswer;
     a_boostHostnames := [];
     a_badHostnames := [];
     a_onlyHostnames := [] |}.

(** The conversation [{role: 'user', content: 'hi'}]. *)
Definition says_hi : list CoreMessage :=
  [{| role := user; content := CString (js "hi") |}].

(** The conversation [{role: 'user', content: [{type: 'text', text: 'hi '}]}]:
    the text ends with a space. *)
Definition says_hi_in_parts : list CoreMessage :=
  [{| role := user; content := CParts [TextPart (js "hi ")] |}].

(** The greeting request with a budget of 1000 tokens. *)
Definition hiArgs : Args := args_of says_hi 1000 false.

Definition hiConfig : Config := config_of hiArgs (js "hi") says_hi.

Definition hiState (E : Env) : State :=
  initial_state E hiArgs (js "hi") says_hi.

(** Two hundred URLs, each on a host of its own. *)
Definition snippet_of (i : nat) : SearchSnippet :=
  {| title := []; url := js "https://h" ++ [N.of_nat i];
     description := []; weight := 1; date := None |}.

Definition two_hundred_urls : gmap jsstring SearchSnippet :=
  list_to_map (map (fun i => (url (snippet_of i), snippet_of i)) (seq 0 200)).

(** A state of the greeting request whose URL store holds them. *)
Definition crowdedState (E : Env) : State :=
  set_allURLs two_hundred_urls (hiState E).

(** A state of the greeting request in which [a] was searched before. *)
Definition searchedState (E : Env) : State :=
  set_allKeywords [js "a"] (hiState E).

(* --------------------------------------------------------------------- *)
(*  src/utils/token-tracker.ts: the breakdown by tool                     *)
(* --------------------------------------------------------------------- *)

(** The accumulator of [getUsageBreakdown] is an object literal, so a
    read [acc[tool]] goes through the prototype chain: the names below
    are the properties of [Object.prototype], which the empty object
    answers with a function (with the prototype itself for [__proto__])
    rather than with [undefined]. *)
Definition object_prototype_names : list jsstring :=
  map js
    ["constructor"; "__defineGetter__"; "__defineSetter__";
     "hasOwnProperty"; "__lookupGetter__"; "__lookupSetter__";
     "isPrototypeOf"; "propertyIsEnumerable"; "toString"; "valueOf";
     "__proto__"; "toLocaleString"]%string.

(** A value of the breakdown: a number, or the string that [+] makes of
    an inherited member and the numbers added to it since, namely the
    text of [Object.prototype[member]] followed by the decimal text of
    each number of [appended]. Such a string is never empty. *)
Inductive BreakdownValue :=
| BNumber (n : Z)
| BText (member : jsstring) (appended : list Z).

(** [acc[tool] = (acc[tool] || 0) + usage.totalTokens]. An own number is
    added to; an own string, being truthy, is appended to; with no own
    property the read falls to the prototype: an inherited function makes
    a string, which the assignment stores as an own property, except for
    [__proto__], whose setter ignores a string, so that nothing is
    stored; any other name reads [undefined] and starts from 0. *)
Definition breakdown_step (acc : gmap jsstring BreakdownValue)
    (tu : TokenUsage) : gmap jsstring BreakdownValue :=
  let n := totalTokens (usage tu) in
  match acc !! tool tu with
  | Some (BNumber v) => <[tool tu := BNumber (v + n)]> acc
  | Some (BText member appended) =>
      <[tool tu := BText member (appended ++ [n])]> acc
  | None =>
      if bool_decide (tool tu = js "__proto__") then acc
      else if bool_decide (tool tu ∈ object_prototype_names)
      then <[tool tu := BText (tool tu) [n]]> acc
      else <[tool tu := BNumber n]> acc
  end.

(** [getUsageBreakdown()]: the reduction of the recorded usages from the
    empty object. *)
Definition getUsageBreakdown (tr : TokenTracker)
    : gmap jsstring BreakdownValue :=
  fold_left breakdown_step (usages tr) ∅.

(** The total tokens recorded for one tool. *)
Definition tool_total (t : jsstring) (l : list TokenUsage) : Z :=
  sum_field totalTokens (List.filter (fun tu => bool_decide (tool tu = t)) l).

(** The sum of the numbers of a breakdown. *)
Definition number_of (v : BreakdownValue) : Z :=
  match v with
  | BNumber n => n
  | BText _ _ => 0
  end.

Definition breakdown_sum (m : gmap jsstring BreakdownValue) : Z :=
  map_fold (fun _ v acc => number_of v + acc) 0 m.

(** The same reduction on numbers alone, which is what the breakdown
    computes when no tool bears an inherited name. *)
Definition add_tokens (acc : gmap jsstring Z) (tu : TokenUsage)
    : gmap jsstring Z :=
  <[tool tu := default 0 (acc !! tool tu) + totalTokens (usage tu)]> acc.

Definition numbers_sum (m : gmap jsstring Z) : Z :=
  map_fold (fun _ v acc => v + acc) 0 m.

(** A tracker of two tools, and one whose tools bear inherited names. *)
Definition two_tools : TokenTracker :=
  trackAll
    [(js "agent", {| promptTokens := 1; completionTokens := 2;
                     totalTokens := 3 |});
     (js "search", {| promptTokens := 0; completionTokens := 5;
                      totalTokens := 5 |});
     (js "agent", {| promptTokens := 2; completionTokens := 2;
                     totalTokens := 4 |})]
    (newTokenTracker None).

Definition inherited_tools : TokenTracker :=
  trackAll
    [(js "constructor", {| promptTokens := 0; completionTokens := 5;
                           totalTokens := 5 |});
     (js "__proto__", {| promptTokens := 0; completionTokens := 7;
                         totalTokens := 7 |});
     (js "constructor", {| promptTokens := 0; completionTokens := 3;
                           totalTokens := 3 |})]
    (newTokenTracker None).

(* --------------------------------------------------------------------- *)
(*  app.ts: the pacing of streamTextNaturally                             *)
(* --------------------------------------------------------------------- *)

(** [getEffectiveLength(chunk)]: a CJK code unit counts for two. *)
Definition getEffectiveLength (chunk : jsstring) : nat :=
  let cjkCount := length (List.filter is_cjk chunk) in
  let regularCount := (length chunk - cjkCount)%nat in
  (regularCount + cjkCount * 2)%nat.

(** The test [getEffectiveLength(chunk) <= 3 && chunk.trim().length > 0]
    of the loop of [streamTextNaturally]. *)
Definition is_short_item (chunk : jsstring) : bool :=
  (getEffectiveLength chunk <=? 3)%nat && (0 <? length (trim chunk))%nat.

(** The value of [burstMode] handed to [calculateDelay] for each chunk of
    a stream that is not interrupted. The delay of a chunk is computed
    before the counter of consecutive short items is updated with it. *)
Fixpoint burst_modes (consecutiveShortItems : nat) (burstMode : bool)
    (chunks : list jsstring) : list bool :=
  match chunks with
  | [] => []
  | chunk :: chunks' =>
      burstMode ::
      (if is_short_item chunk then
         let consecutiveShortItems := S consecutiveShortItems in
         burst_modes consecutiveShortItems
           (if (3 <=? consecutiveShortItems)%nat then true else burstMode)
           chunks'
       else burst_modes 0 false chunks')
  end.

(** [let burstMode = false; let consecutiveShortItems = 0] and the loop. *)
Definition streamBurstModes (text : jsstring) : list bool :=
  burst_modes 0 false (splitTextIntoChunks text).

(** The number of short items that end a list of chunks. *)
Definition short_run (chunks : list jsstring) : nat :=
  fold_left (fun n chunk => if is_short_item chunk then S n else 0%nat)
    chunks 0%nat.

(** A chunk in which a white-space character stands alone. *)
Definition space_alone (chunk : jsstring) : Prop :=
  forall c, c ∈ chunk -> is_space c = true -> chunk = [c].

(** The invariant of [split_loop] behind it: white space stands alone in
    the pushed chunks, the open chunk has none, and a URL run is never
    entered or continued on a white-space character. *)
Definition splitter_spaces (suffix : jsstring) (st : Splitter) : Prop :=
  Forall space_alone (sp_chunks st)
  /\ Forall (fun c => is_space c = false) (currentChunk st)
  /\ (inURL st = true -> test_next is_space (head suffix) = false).

(* --------------------------------------------------------------------- *)
(*  Further notions                                                       *)
(* --------------------------------------------------------------------- *)

(** The evaluations a question can still fail: the sum of the attempts
    left to its criteria. *)
Definition attempts_left (checks : list RepeatEvaluationType) : Z :=
  fold_right (fun e n => numEvalsRequired e + n) 0 checks.

(** A batch of URLs handed to [processURLs] holds no URL twice. *)
Definition batch_without_repeats (ev : Event) : Prop :=
  match ev with
  | EvProcessURLs urls => NoDup urls
  | _ => True
  end.

Definition is_batch_event (ev : Event) : bool :=
  match ev with
  | EvProcessURLs _ => true
  | _ => false
  end.

(** Some references, and an answer that cites them, for the examples. *)
Definition cited : list Reference :=
  [{| exactQuote := js "q"; ref_title := []; ref_url := js "https://a";
      dateTime := [] |};
   {| exactQuote := js "r"; ref_title := []; ref_url := [];
      dateTime := [] |};
   {| exactQuote := js "s"; ref_title := []; ref_url := js "https://a";
      dateTime := js "2024" |}].

Definition llm_cites : nat -> Request -> ext AgentObject :=
  fun _ _ => Some (O_answer (js "sure") (js "hello") cited, usage_of 100).

(** The tokens used so far, as the loop guard reads them. *)
Definition tokens_used (s : State) : Z :=
  totalTokens (getTotalUsage (tokenTracker s)).

Definition at_least (t : Z) (s : State) : Prop := t <= tokens_used s.

(** A call that, when it resolves, has recorded usages of [n] tokens or
    more in total. *)
Definition charges {A} (n : Z) (r : ext A) : Prop :=
  forall a us, r = Some (a, us) -> n <= sum_field totalTokens us.

(** Collaborators that never record a negative total, with an LLM that
    records one token or more for each action it chooses. *)
Record metered (E : Env) : Prop := {
  metered_setLanguage : forall q, charges 0 (setLanguage E q);
  metered_getLastModified : forall u, charges 0 (getLastModified E u);
  metered_evaluateQuestion : forall q, charges 0 (evaluateQuestion E q);
  metered_generateObject :
    forall n req, charges 1 (generateObject E n req);
  metered_evaluateAnswer :
    forall n q a c, charges 0 (evaluateAnswer E n q a c);
  metered_analyzeSteps : forall n d, charges 0 (analyzeSteps E n d);
  metered_dedupQueries : forall q e, charges 0 (dedupQueries E q e);
  metered_rewriteQuery : forall n a b, charges 0 (rewriteQuery E n a b);
  metered_searchProvider : forall q, charges 0 (searchProvider E q);
  metered_processURLs :
    forall n u m v b, charges 0 (processURLs E n u m v b);
  metered_solve : forall n c, charges 0 (solve E n c)
}.

(** The five actions, by name. *)
Inductive ActionName :=
| act_answer | act_reflect | act_search | act_visit | act_coding.

Definition kind_of (a : StepAction) : ActionName :=
  match a with
  | SearchAction _ _ => act_search
  | AnswerAction _ _ _ _ => act_answer
  | ReflectAction _ _ => act_reflect
  | VisitAction _ _ => act_visit
  | CodingAction _ _ => act_coding
  end.

(** The local [allowAnswer], [allowReflect], ... of an action. *)
Definition allowed (k : ActionName) (s : State) : bool :=
  match k with
  | act_answer => allowAnswer s
  | act_reflect => allowReflect s
  | act_search => allowSearch s
  | act_visit => allowRead s
  | act_coding => allowCoding s
  end.

Definition in_schema (k : ActionName) (sch : AgentSchema) : bool :=
  match k with
  | act_answer => s_answer sch
  | act_reflect => s_reflect sch
  | act_search => s_search sch
  | act_visit => s_read sch
  | act_coding => s_coding sch
  end.

Definition is_section (k : ActionName) (sec : ActionSection) : bool :=
  match k, sec with
  | act_visit, action_visit _ => true
  | act_search, action_search _ => true
  | act_answer, action_answer => true
  | act_reflect, action_reflect => true
  | act_coding, action_coding => true
  | _, _ => false
  end.

(** A request that offers an action to the LLM, in the schema of the
    object to return or in a section of the system prompt. *)
Definition offered (k : ActionName) (req : Request) : bool :=
  in_schema k (r_schema req)
  || existsb (is_section k) (p_actions (r_system req)).

Definition not_offering (k : ActionName) (ev : Event) : Prop :=
  match ev with
  | EvGenerateObject req => offered k req = false
  | _ => True
  end.

(** The action an iteration has carried out, read off the step it
    leaves: a search or a reflection, a visit whose targets were replaced
    by URLs, a coding step with an issue. *)
Definition carried_out (s : State) : option ActionName :=
  match thisStep s with
  | SearchAction _ _ => Some act_search
  | ReflectAction _ _ => Some act_reflect
  | VisitAction _ (Urls _) => Some act_visit
  | CodingAction _ c => if nonempty c then Some act_coding else None
  | _ => None
  end.

Definition res_state {A} (r : Res A) : State :=
  match r with
  | Ok _ s => s
  | Throw _ s => s
  end.

(** The step is an action of kind [k]. *)
Definition step_kind (k : ActionName) (s : State) : Prop :=
  kind_of (thisStep s) = k.

(** An action that stays disabled while the events from the [n]-th on
    do not offer it. *)
Definition kept_off (k : ActionName) (n : nat) (s : State) : Prop :=
  allowed k s = false /\ Forall (not_offering k) (drop n (events s)).

(** The exception of an iteration left without a question. *)
Definition no_question : JsError := TypeError "currentQuestion.trim".

(** [m] does not fail for want of a question, whatever state it runs
    from. *)
Definition finds_question {A} (m : M A) : Prop :=
  forall s,
    match m s with
    | Ok _ _ => True
    | Throw e _ => e <> no_question
    end.

(** The URL detection of [splitTextIntoChunks] at the first character of
    [suffix]: [char === 'h' && text.slice(i, i + 8).match(/https?:\/\//)]. *)
Definition url_start (suffix : jsstring) : bool :=
  match suffix with
  | [] => false
  | char :: _ => (char =? 104)%N && match_http (take 8 suffix)
  end.

(** The splitter once the open chunk, extended by [run], is pushed and
    the URL run is left. *)
Definition close_run (run : jsstring) (st : Splitter) : Splitter :=
  {| sp_chunks := sp_chunks st ++ [currentChunk st ++ run];
     currentChunk := [];
     inURL := false |}.

(** What the agent has learnt in [s0] is still there, in the same order,
    in [s]: the knowledge, the keywords searched, the questions asked,
    and the URLs visited or found bad. *)
Definition remembers (s0 s : State) : Prop :=
  allKnowledge s0 `prefix_of` allKnowledge s
  /\ allKeywords s0 `prefix_of` allKeywords s
  /\ allQuestions s0 `prefix_of` allQuestions s
  /\ visitedURLs s0 `prefix_of` visitedURLs s
  /\ badURLs s0 `prefix_of` badURLs s.

(** A step that, when it is a final answer, has a text. *)
Definition final_with_text (a : StepAction) : Prop :=
  match a with
  | AnswerAction _ answer _ true => answer <> []
  | _ => True
  end.

(** The numbers of the progress lines [Step n / Budget used ...], in the
    order written. *)
Definition step_numbers (evs : list Event) : list nat :=
  omap (fun ev => match ev with EvStep n _ => Some n | _ => None end) evs.

(** The local [totalStep] is [n] and the progress lines written so far
    are numbered [l]. *)
Definition steps_are (n : nat) (l : list nat) (s : State) : Prop :=
  totalStep s = n /\ step_numbers (events s) = l.

(** The iterations the main loop begins in [main_loop E C fuel s]: one
    each time the guard lets the loop through. *)
Fixpoint iterations_begun (E : Env) (C : Config) (fuel : nat) (s : State)
    : nat :=
  match fuel with
  | O => O
  | S fuel' =>
      if within_budget C s then
        match loop_body E C s with
        | Ok Next s' => S (iterations_begun E C fuel' s')
        | Ok Break _ => 1%nat
        | Throw _ _ => 1%nat
        end
      else O
  end.

(** The iterations a run of [getResponse] begins: none when it fails
    before the loop. *)
Definition iterations_of (E : Env) (fuel : nat) (a : Args) : nat :=
  match extract_question a with
  | inl _ => O
  | inr (question, messages) =>
      match await "setLanguage" (setLanguage E question)
              (initial_state E a question messages) with
      | Throw _ _ => O
      | Ok _ s => iterations_begun E (config_of a question messages) fuel s
      end
  end.

(* --------------------------------------------------------------------- *)
(*  The searches that find something                                      *)
(* --------------------------------------------------------------------- *)

(** A query whose search resolves with results: the only queries that
    [executeSearchQueries] pushes on [searchedQueries]. *)
Definition search_found (E : Env) (query : jsstring) : bool :=
  match searchProvider E query with
  | Some (results, _) => nonempty results
  | None => false
  end.

(** An environment with another search provider, for the examples. *)
Definition with_searchProvider (f : jsstring -> ext (list SearchSnippet))
    (E : Env) : Env :=
  {| MAX_QUERIES_PER_STEP := MAX_QUERIES_PER_STEP E;
     MAX_REFLECT_PER_STEP := MAX_REFLECT_PER_STEP E;
     MAX_URLS_PER_STEP := MAX_URLS_PER_STEP E;
     setLanguage := setLanguage E;
     extractUrlsWithDescription := extractUrlsWithDescription E;
     addToAllURLs := addToAllURLs E;
     filterURLs := filterURLs E;
     rankURLs := rankURLs E;
     keepKPerHostname := keepKPerHostname E;
     sortSelectURLs := sortSelectURLs E;
     normalizeUrl := normalizeUrl E;
     sanitizeQuote := sanitizeQuote E;
     removeHTMLtags := removeHTMLtags E;
     getLastModified := getLastModified E;
     evaluateQuestion := evaluateQuestion E;
     generateObject := generateObject E;
     evaluateAnswer := evaluateAnswer E;
     analyzeSteps := analyzeSteps E;
     dedupQueries := dedupQueries E;
     chooseK := chooseK E;
     rewriteQuery := rewriteQuery E;
     searchProvider := f;
     processURLs := processURLs E;
     solve := solve E;
     markdownTrivial := markdownTrivial E;
     markdownRepaired := markdownRepaired E |}.

(** A provider that finds one page for every query. *)
Definition finds_one_page : jsstring -> ext (list SearchSnippet) :=
  fun _ => Some ([snippet_of 0], []).

(* ===================================================================== *)
(*  Properties                                                            *)
(* ===================================================================== *)

(* --------------------------------------------------------------------- *)
(*  Token tracker                                                         *)
(* --------------------------------------------------------------------- *)

Lemma camel_fold (l : list TokenUsage) (acc : LanguageModelUsage) :
  fold_left
    (fun acc tu =>
       {| promptTokens := promptTokens acc + promptTokens (usage tu);
          completionTokens :=
            completionTokens acc + completionTokens (usage tu);
          totalTokens := totalTokens acc + totalTokens (usage tu) |})
    l acc
  = {| promptTokens := promptTokens acc + sum_field promptTokens l;
       completionTokens :=
         completionTokens acc + sum_field completionTokens l;
       totalTokens := totalTokens acc + sum_field totalTokens l |}.
Proof.
  revert acc. induction l as [|tu l IH]; intros acc.
  - destruct acc. unfold sum_field. simpl. f_equal; lia.
  - simpl fold_left. rewrite IH. unfold sum_field. simpl. f_equal; lia.
Qed.

Lemma snake_fold (l : list TokenUsage) (acc : SnakeUsage) :
  fold_left
    (fun acc tu =>
       {| prompt_tokens := prompt_tokens acc + promptTokens (usage tu);
          completion_tokens :=
            completion_tokens acc + completionTokens (usage tu);
          total_tokens := total_tokens acc + totalTokens (usage tu) |})
    l acc
  = {| prompt_tokens := prompt_tokens acc + sum_field promptTokens l;
       completion_tokens :=
         completion_tokens acc + sum_field completionTokens l;
       total_tokens := total_tokens acc + sum_field totalTokens l |}.
Proof.
  revert acc. induction l as [|tu l IH]; intros acc.
  - destruct acc. unfold sum_field. simpl. f_equal; lia.
  - simpl fold_left. rewrite IH. unfold sum_field. simpl. f_equal; lia.
Qed.

Lemma trackAll_usages calls tr :
  usages (trackAll calls tr)
  = usages tr ++ map (fun c => {| tool := fst c; usage := snd c |}) calls.
Proof.
  revert tr. induction calls as [|c calls IH]; intros tr; simpl.
  - by rewrite app_nil_r.
  - unfold trackAll in *. simpl. rewrite IH. simpl. by rewrite <- app_assoc.
Qed.

(** C10. After any sequence of [trackUsage] calls on any tracker, the
    recorded usages are the earlier ones followed by the tracked ones in
    order, [getTotalUsageSnakeCase] and [getTotalUsage] return the same
    three totals, and each total is the sum of its field over all the
    recorded usages. *)
Theorem C10_snake_case_totals_agree
    (tr : TokenTracker) (calls : list (jsstring * LanguageModelUsage)) :
  let tr' := trackAll calls tr in
  usages tr'
  = usages tr ++ map (fun c => {| tool := fst c; usage := snd c |}) calls
  /\ prompt_tokens (getTotalUsageSnakeCase tr')
     = promptTokens (getTotalUsage tr')
  /\ completion_tokens (getTotalUsageSnakeCase tr')
     = completionTokens (getTotalUsage tr')
  /\ total_tokens (getTotalUsageSnakeCase tr')
     = totalTokens (getTotalUsage tr')
  /\ promptTokens (getTotalUsage tr') = sum_field promptTokens (usages tr')
  /\ completionTokens (getTotalUsage tr')
     = sum_field completionTokens (usages tr')
  /\ totalTokens (getTotalUsage tr') = sum_field totalTokens (usages tr').
Proof.
  intros tr'. split; [apply trackAll_usages|].
  unfold getTotalUsageSnakeCase, getTotalUsage.
  rewrite camel_fold, snake_fold. simpl. repeat split; lia.
Qed.

(* --------------------------------------------------------------------- *)
(*  Budget mapping                                                        *)
(* --------------------------------------------------------------------- *)

(** C7, as amended. With [max_completion_tokens] unset the mapping is
    100000 / 1 for low, 500000 / 1 for medium or an absent effort and
    1000000 / 2 for high; a set [max_completion_tokens] is the token
    budget; and [budget_tokens] or [max_attempts] replaces the mapped value
    when it is provided and is not zero, while a provided zero leaves the
    mapped value in place. *)
Theorem C7_budget_mapping_nonzero_override :
  getTokenBudgetAndMaxAttempts (Value low) Undefined
  = {| tokenBudget := 100000; maxBadAttempts := 1 |}
  /\ getTokenBudgetAndMaxAttempts (Value medium) Undefined
     = {| tokenBudget := 500000; maxBadAttempts := 1 |}
  /\ getTokenBudgetAndMaxAttempts Undefined Undefined
     = {| tokenBudget := 500000; maxBadAttempts := 1 |}
  /\ getTokenBudgetAndMaxAttempts (Value high) Undefined
     = {| tokenBudget := 1000000; maxBadAttempts := 2 |}
  /\ (forall effort n,
        tokenBudget (getTokenBudgetAndMaxAttempts effort (Value n)) = n)
  /\ (forall body,
        tokenBudget (requestBudget body)
        = match budget_tokens body with
          | Value b =>
              if b =? 0
              then tokenBudget
                     (getTokenBudgetAndMaxAttempts (reasoning_effort body)
                        (max_completion_tokens body))
              else b
          | _ =>
              tokenBudget
                (getTokenBudgetAndMaxAttempts (reasoning_effort body)
                   (max_completion_tokens body))
          end)
  /\ (forall body,
        maxBadAttempts (requestBudget body)
        = match max_attempts body with
          | Value m =>
              if m =? 0
              then maxBadAttempts
                     (getTokenBudgetAndMaxAttempts (reasoning_effort body)
                        (max_completion_tokens body))
              else m
          | _ =>
              maxBadAttempts
                (getTokenBudgetAndMaxAttempts (reasoning_effort body)
                   (max_completion_tokens body))
          end).
Proof.
  do 4 (split; [reflexivity|]).
  split; [|split].
  - intros effort n. by destruct effort.
  - intros body. unfold requestBudget. simpl.
    destruct (budget_tokens body) as [| |b]; simpl; try reflexivity.
    by destruct (b =? 0).
  - intros body. unfold requestBudget. simpl.
    destruct (max_attempts body) as [| |m]; simpl; try reflexivity.
    by destruct (m =? 0).
Qed.

(** C7, the claim as stated fails: a request that provides
    [budget_tokens = 0] and [max_attempts = 0] with a low effort is run
    with the mapped values 100000 and 1, not with the provided ones. *)
Lemma C7_counterexample_zero_override :
  let body :=
    {| reasoning_effort := Value low; max_completion_tokens := Undefined;
       budget_tokens := Value 0; max_attempts := Value 0 |} in
  tokenBudget (requestBudget body) = 100000
  /\ tokenBudget (requestBudget body) <> 0
  /\ maxBadAttempts (requestBudget body) = 1
  /\ maxBadAttempts (requestBudget body) <> 0.
Proof. simpl. repeat split; lia. Qed.

(* --------------------------------------------------------------------- *)
(*  splitTextIntoChunks                                                   *)
(* --------------------------------------------------------------------- *)

Lemma consumed_pushCurrentChunk st :
  consumed (pushCurrentChunk st) = consumed st.
Proof.
  unfold pushCurrentChunk, consumed.
  destruct (currentChunk st) as [|c cur] eqn:Hcur; simpl.
  - by rewrite Hcur.
  - rewrite concat_app. simpl. by rewrite !app_nil_r.
Qed.

Lemma currentChunk_pushCurrentChunk st :
  currentChunk (pushCurrentChunk st) = [].
Proof.
  unfold pushCurrentChunk.
  by destruct (currentChunk st) as [|c cur] eqn:Hcur.
Qed.

Lemma nonempty_pushCurrentChunk st :
  chunks_nonempty st -> chunks_nonempty (pushCurrentChunk st).
Proof.
  unfold pushCurrentChunk, chunks_nonempty. intros H.
  destruct (currentChunk st) as [|c cur] eqn:Hcur; [done|]. simpl.
  apply Forall_app. split; [done|]. by constructor.
Qed.

Lemma consumed_push_single c st :
  currentChunk st = [] ->
  consumed (push_chunk [c] st) = consumed st ++ [c].
Proof.
  unfold consumed, push_chunk. simpl. intros ->.
  rewrite concat_app. simpl. by rewrite !app_nil_r.
Qed.

Lemma nonempty_push_single c st :
  chunks_nonempty st -> chunks_nonempty (push_chunk [c] st).
Proof.
  unfold chunks_nonempty, push_chunk. simpl. intros H.
  apply Forall_app. split; [done|]. by constructor.
Qed.

Lemma consumed_append_char c st :
  consumed (append_char c st) = consumed st ++ [c].
Proof. unfold consumed, append_char. simpl. by rewrite app_assoc. Qed.

Lemma split_loop_consumes suffix :
  forall st,
    chunks_nonempty st ->
    consumed (split_loop suffix st) = consumed st ++ suffix
    /\ chunks_nonempty (split_loop suffix st).
Proof.
  induction suffix as [|char rest IH]; intros st Hne.
  - simpl. by rewrite app_nil_r.
  - cbn [split_loop].
    set (st1 := if (char =? 104)%N && match_http (take 8 (char :: rest))
                then set_inURL true (pushCurrentChunk st) else st).
    assert (H1 : consumed st1 = consumed st /\ chunks_nonempty st1).
    { subst st1. destruct (_ && _); [|done]. split.
      - apply consumed_pushCurrentChunk.
      - by apply nonempty_pushCurrentChunk. }
    destruct H1 as [Hc1 Hn1].
    replace (consumed st ++ char :: rest)
      with ((consumed st1 ++ [char]) ++ rest)
      by (rewrite Hc1, <- app_assoc; done).
    destruct (inURL st1).
    + match goal with
      | |- context [split_loop rest ?st2] =>
          assert (H2 : consumed st2 = consumed st1 ++ [char]
                       /\ chunks_nonempty st2)
      end.
      { destruct (_ || _).
        - split.
          + unfold consumed at 1. simpl. fold (consumed (pushCurrentChunk
              (append_char char st1))).
            by rewrite consumed_pushCurrentChunk, consumed_append_char.
          + apply (nonempty_pushCurrentChunk (append_char char st1)), Hn1.
        - split; [apply consumed_append_char | apply Hn1]. }
      destruct H2 as [Hc2 Hn2]. rewrite <- Hc2. by apply IH.
    + destruct (is_cjk char); [|destruct (is_space char)].
      * rewrite <- (consumed_pushCurrentChunk st1).
        rewrite <- (consumed_push_single char)
          by apply currentChunk_pushCurrentChunk.
        apply IH. by apply nonempty_push_single, nonempty_pushCurrentChunk.
      * rewrite <- (consumed_pushCurrentChunk st1).
        rewrite <- (consumed_push_single char)
          by apply currentChunk_pushCurrentChunk.
        apply IH. by apply nonempty_push_single, nonempty_pushCurrentChunk.
      * match goal with
        | |- context [split_loop rest ?st2] =>
            assert (H2 : consumed st2 = consumed st1 ++ [char]
                         /\ chunks_nonempty st2)
        end.
        { destruct (test_next is_break (head rest)).
          - split.
            + by rewrite consumed_pushCurrentChunk, consumed_append_char.
            + apply (nonempty_pushCurrentChunk (append_char char st1)), Hn1.
          - split; [apply consumed_append_char | apply Hn1]. }
        destruct H2 as [Hc2 Hn2]. rewrite <- Hc2. by apply IH.
Qed.

Lemma concat_filter_nonempty (l : list jsstring) :
  concat (filter (fun chunk => chunk <> []) l) = concat l.
Proof.
  induction l as [|x l IH]; [done|].
  rewrite filter_cons. destruct (decide (x <> [])) as [Hx|Hx]; simpl.
  - by rewrite IH.
  - rewrite IH. destruct x; [done|]. by destruct Hx.
Qed.

Lemma splitTextIntoChunks_concat (s : jsstring) :
  concat (splitTextIntoChunks s) = s.
Proof.
  unfold splitTextIntoChunks.
  set (st0 := {| sp_chunks := []; currentChunk := []; inURL := false |}).
  destruct (split_loop_consumes s st0) as [Hc Hn]; [constructor|].
  rewrite concat_filter_nonempty.
  pose proof (consumed_pushCurrentChunk (split_loop s st0)) as Hp.
  unfold consumed at 1 in Hp.
  rewrite currentChunk_pushCurrentChunk, app_nil_r in Hp.
  by rewrite Hp, Hc.
Qed.

(** C9. For every string, the chunks returned by [splitTextIntoChunks]
    concatenate, in order, to the string, and none of them is empty. *)
Theorem C9_split_chunks_partition_text (s : jsstring) :
  concat (splitTextIntoChunks s) = s
  /\ Forall (fun chunk => chunk <> []) (splitTextIntoChunks s).
Proof.
  split; [apply splitTextIntoChunks_concat|].
  unfold splitTextIntoChunks. apply Forall_forall. intros x Hx.
  by apply list_elem_of_filter in Hx as [Hx _].
Qed.

(* --------------------------------------------------------------------- *)
(*  streamTextNaturally                                                   *)
(* --------------------------------------------------------------------- *)

(** C8, evaluated where it fails. The text [a a] is split into the chunks
    [a], a space and [a]. When the flag is read false by the third
    iteration, [indexOf] finds the chunk [a] at index 0, so the generator
    yields the whole text again: the yields concatenate to [a a a], not
    to the text, and the first two chunks are sent twice. *)
Theorem C8_stream_flush_repeats_text :
  splitTextIntoChunks (js "a a") = [js "a"; js " "; js "a"]
  /\ streamTextNaturally (js "a a") (off_after 2)
     = [js "a"; js " "; js "a a"]
  /\ concat (streamTextNaturally (js "a a") (off_after 2)) = js "a a a"
  /\ concat (streamTextNaturally (js "a a") (off_after 2)) <> js "a a".
Proof.
  repeat split; try (vm_compute; reflexivity).
  vm_compute. intros H. discriminate H.
Qed.

Lemma indexOf_NoDup {A} `{EqDecision A} (l : list A) :
  NoDup l -> forall i x, l !! i = Some x -> indexOf x l = Some i.
Proof.
  induction 1 as [|y l Hy Hnd IH]; intros i x Hl; [done|].
  simpl. destruct i as [|i]; simpl in Hl.
  - injection Hl as ->. by rewrite decide_True.
  - rewrite decide_False.
    + by rewrite (IH i x Hl).
    + intros ->. apply Hy. eapply list_elem_of_lookup_2, Hl.
Qed.

Lemma stream_loop_without_repeats chunks streaming :
  NoDup chunks ->
  forall todo i,
    drop i chunks = todo ->
    concat (stream_loop chunks streaming i todo) = concat todo.
Proof.
  intros Hnd. induction todo as [|chunk todo IH]; intros i Hdrop; [done|].
  assert (Hi : chunks !! i = Some chunk).
  { rewrite <- (Nat.add_0_r i), <- lookup_drop, Hdrop. done. }
  simpl. destruct (streaming i); simpl.
  - f_equal. apply IH. rewrite (drop_S _ _ _ Hi) in Hdrop. congruence.
  - rewrite (indexOf_NoDup chunks Hnd i chunk Hi). simpl.
    by rewrite Hdrop, app_nil_r.
Qed.

(** The flush is right when no chunk of the text occurs twice: then,
    whenever the flag is turned off, what is yielded concatenates to the
    text. The failure of C8 needs a repeated chunk. *)
Lemma stream_without_repeated_chunk text streaming :
  NoDup (splitTextIntoChunks text) ->
  concat (streamTextNaturally text streaming) = text.
Proof.
  intros Hnd. unfold streamTextNaturally.
  etrans; [by apply (stream_loop_without_repeats _ streaming Hnd _ 0%nat)|].
  apply splitTextIntoChunks_concat.
Qed.



(* --------------------------------------------------------------------- *)
(*  Invariants of monadic code                                            *)
(* --------------------------------------------------------------------- *)

Section Preserves.

Variable I : State -> Prop.

Lemma preserves_ret {A} (a : A) : preserves I (ret a).
Proof. intros s Hs. exact Hs. Qed.

Lemma preserves_get : preserves I get.
Proof. intros s Hs. exact Hs. Qed.

Lemma preserves_throw {A} (e : JsError) : preserves I (@throw A e).
Proof. intros s Hs. exact Hs. Qed.

Lemma preserves_modify (f : State -> State) :
  (forall s, I s -> I (f s)) -> preserves I (modify f).
Proof. intros Hf s Hs. by apply Hf. Qed.

Lemma preserves_bind {A B} (m : M A) (k : A -> M B) :
  preserves I m -> (forall a, preserves I (k a)) -> preserves I (bind m k).
Proof.
  intros Hm Hk s Hs. unfold bind. specialize (Hm s Hs).
  destruct (m s) as [a s'|e s']; [by apply Hk | done].
Qed.

Lemma preserves_when (b : bool) (m : M unit) :
  preserves I m -> preserves I (when b m).
Proof. intros Hm. destruct b; [done | apply preserves_ret]. Qed.

Lemma preserves_for_of {A B} (l : list A) (f : A -> B -> M B) :
  (forall x acc, preserves I (f x acc)) ->
  forall acc, preserves I (for_of l acc f).
Proof.
  intros Hf. induction l as [|x l IH]; intros acc; simpl.
  - apply preserves_ret.
  - apply preserves_bind; [apply Hf | done].
Qed.

End Preserves.

(** Invariants that read neither the token tracker nor the events. *)
Lemma preserves_track_frame (I : State -> Prop) us :
  (forall s t, I s -> I (set_tokenTracker t s)) -> preserves I (track us).
Proof. intros H. apply preserves_modify. intros s Hs. by apply H. Qed.

Lemma preserves_await_frame (I : State -> Prop) {A} callee (r : ext A) :
  (forall s t, I s -> I (set_tokenTracker t s)) ->
  preserves I (await callee r).
Proof.
  intros H. destruct r as [[a us]|]; simpl.
  - apply preserves_bind; [by apply preserves_track_frame|].
    intros; apply preserves_ret.
  - apply preserves_throw.
Qed.

Lemma preserves_emit_frame (I : State -> Prop) ev :
  (forall s evs, I s -> I (set_events evs s)) -> preserves I (emit ev).
Proof. intros H. apply preserves_modify. intros s Hs. by apply H. Qed.

Lemma preserves_track J us : preserves (on_events J) (track us).
Proof. apply preserves_modify. intros s Hs. exact Hs. Qed.

Lemma preserves_await J {A} callee (r : ext A) :
  preserves (on_events J) (await callee r).
Proof.
  destruct r as [[a us]|]; simpl.
  - apply preserves_bind; [apply preserves_track | intros; apply preserves_ret].
  - apply preserves_throw.
Qed.

Lemma preserves_emit (J : list Event -> Prop) ev :
  keeps J ev -> preserves (on_events J) (emit ev).
Proof. intros H. apply preserves_modify. intros s Hs. by apply H. Qed.

(** One step of a proof that a computation preserves an invariant on the
    events: split the computation, and leave the emitted events to the
    caller. *)
Ltac preserves_step :=
  match goal with
  | |- preserves _ (bind _ _) => apply preserves_bind; [|intros ?]
  | |- preserves _ (ret _) => apply preserves_ret
  | |- preserves _ get => apply preserves_get
  | |- preserves _ (throw _) => apply preserves_throw
  | |- preserves _ (when _ _) => apply preserves_when
  | |- preserves _ (await _ _) => apply preserves_await
  | |- preserves _ (track _) => apply preserves_track
  | |- preserves _ (for_of _ _ _) => apply preserves_for_of; intros ? ?
  | |- preserves _ (modify _) =>
      apply preserves_modify; intros ? ?;
      first [ assumption
            | unfold on_events in *; simpl; repeat case_match; assumption ]
  | |- preserves _ (if ?b then _ else _) => destruct b
  | |- preserves _ (match ?x with _ => _ end) => destruct x
  | |- preserves _ (let (_, _) := ?x in _) => destruct x
  end.

(** Run [preserves_step] to the leaves; an emitted event keeps the
    invariant by the hypothesis [H]. *)
Ltac emits H :=
  repeat first
    [ preserves_step
    | match goal with
      | |- preserves _ (emit _) =>
          apply preserves_emit; first [ apply H; reflexivity | apply H ]
      end ].

Section AgentInvariants.

Variable E : Env.
Variable C : Config.
Variable J : list Event -> Prop.

Lemma fillDates_preserves refs :
  (forall ev, is_choice_event ev = false -> keeps J ev) ->
  preserves (on_events J) (fillDates E refs).
Proof. intros H. unfold fillDates. emits H. Qed.

Lemma executeSearchQueries_preserves queries hosts :
  (forall ev, is_choice_event ev = false -> keeps J ev) ->
  preserves (on_events J) (executeSearchQueries E queries hosts).
Proof.
  intros H. unfold executeSearchQueries. apply preserves_for_of.
  intros query acc. unfold search_one. emits H.
Qed.

Lemma run_processURLs_preserves urls :
  (forall ev, is_choice_event ev = false -> keeps J ev) ->
  preserves (on_events J) (run_processURLs E urls).
Proof. intros H. unfold run_processURLs. emits H. Qed.

Lemma dispatch_preserves currentQuestion urlList :
  (forall ev, is_choice_event ev = false -> keeps J ev) ->
  preserves (on_events J) (dispatch E C currentQuestion urlList).
Proof.
  intros H.
  pose proof fillDates_preserves as Hf.
  pose proof executeSearchQueries_preserves as Hs.
  pose proof run_processURLs_preserves as Hp.
  unfold dispatch. apply preserves_bind; [apply preserves_get|]. intros s.
  destruct (thisStep s) as [t r|t a refs f|t qs|t [idx|urls]|t c].
  - unfold dispatch_search, search_first_pass, search_second_pass,
      push_diary, push_knowledge, updateContext.
    emits H; by apply Hs.
  - destruct (nonempty a); [|apply preserves_ret].
    unfold dispatch_answer, updateReferences, metrics_of, push_diary,
      push_knowledge, updateContext.
    emits H; first [ by apply Hf | by apply Hp ].
  - unfold dispatch_reflect, push_diary, updateContext. emits H.
  - destruct (_ && _); [|apply preserves_ret].
    unfold dispatch_visit, push_diary, updateContext.
    emits H; by apply Hp.
  - apply preserves_ret.
  - destruct (nonempty c); [|apply preserves_ret].
    unfold dispatch_coding, push_diary, push_knowledge, updateContext.
    emits H.
Qed.

Lemma after_begin_step_preserves :
  (forall ev,
     is_choice_event ev = true -> is_step_event ev = false -> keeps J ev) ->
  preserves (on_events J)
    (currentQuestion <- pick_question ;;
     seed_criteria E C currentQuestion ;;;
     freshness_lockout currentQuestion ;;;
     rank_urls E C currentQuestion ;;;
     gate_actions ;;;
     urlList <- ask_llm E C currentQuestion ;;
     ret (currentQuestion, urlList)).
Proof.
  intros H.
  unfold pick_question, seed_criteria, freshness_lockout, metrics_of,
    rank_urls, gate_actions, ask_llm.
  emits H.
Qed.

Lemma finish_preserves : preserves (on_events J) (finish E C).
Proof.
  unfold finish, beast_mode.
  repeat preserves_step.
Qed.

End AgentInvariants.

(* --------------------------------------------------------------------- *)
(*  The loop guard                                                        *)
(* --------------------------------------------------------------------- *)

Lemma within_budget_bound C s :
  within_budget C s = true ->
  100 * totalTokens (getTotalUsage (tokenTracker s)) < 85 * c_tokenBudget C.
Proof.
  unfold within_budget. intros H. apply negb_true_iff in H.
  destruct (Z_lt_dec
              (100 * totalTokens (getTotalUsage (tokenTracker s)))
              (85 * c_tokenBudget C)) as [Hlt|Hge]; [done|].
  assert (Hle : Qle_bool (regularBudget C)
                  (inject_Z (totalTokens (getTotalUsage (tokenTracker s))))
                = true).
  { apply Qle_bool_iff. unfold regularBudget, Qle, Qmult, inject_Z. simpl.
    lia. }
  congruence.
Qed.

Lemma keeps_within_budget B ev :
  is_step_event ev = false -> keeps (Forall (step_within_budget B)) ev.
Proof.
  intros Hev evs Hevs. apply Forall_app. split; [done|].
  constructor; [|constructor]. by destruct ev.
Qed.

(** The first thing an iteration does is to write its progress line, with
    the usage the guard has just read. *)
Lemma begin_step_event E s :
  exists s1,
    begin_step E s = Ok tt s1
    /\ events s1
       = events s
         ++ [EvStep (S (totalStep s))
               (totalTokens (getTotalUsage (tokenTracker s)))]
    /\ tokenTracker s1 = tokenTracker s.
Proof. eexists. split; [reflexivity|]. by split. Qed.

Lemma loop_body_within_budget E C s :
  within_budget C s = true ->
  Forall (step_within_budget (c_tokenBudget C)) (events s) ->
  match loop_body E C s with
  | Ok _ s' => Forall (step_within_budget (c_tokenBudget C)) (events s')
  | Throw _ s' => Forall (step_within_budget (c_tokenBudget C)) (events s')
  end.
Proof.
  intros Hguard Hevs.
  set (J := Forall (step_within_budget (c_tokenBudget C))).
  destruct (begin_step_event E s) as (s1 & Hs1 & Hev1 & _).
  assert (H1 : on_events J s1).
  { unfold on_events, J. rewrite Hev1. apply Forall_app. split; [done|].
    constructor; [|constructor]. simpl. by apply within_budget_bound. }
  unfold loop_body, choose_action.
  unfold bind at 1. unfold bind at 1. rewrite Hs1.
  match goal with
  | |- context [match ?m s1 with _ => _ end] =>
      assert (Hm : preserves (on_events J) m)
  end.
  { apply after_begin_step_preserves. intros ev _ Hev.
    by apply keeps_within_budget. }
  specialize (Hm s1 H1).
  match goal with
  | |- context [match ?m s1 with _ => _ end] => destruct (m s1) as [a s2|e s2]
  end; [|done].
  apply (dispatch_preserves E C J); [|done].
  intros ev Hev. apply keeps_within_budget. by destruct ev.
Qed.

Lemma main_loop_within_budget E C fuel :
  forall s,
    Forall (step_within_budget (c_tokenBudget C)) (events s) ->
    Forall (step_within_budget (c_tokenBudget C))
      (events (loop_state (main_loop E C fuel s))).
Proof.
  induction fuel as [|fuel IH]; intros s Hs; simpl; [done|].
  destruct (within_budget C s) eqn:Hguard; [|done].
  pose proof (loop_body_within_budget E C s Hguard Hs) as Hbody.
  destruct (loop_body E C s) as [[|] s'|e s']; simpl; by auto.
Qed.

(** C2. In every run of [getResponse], whatever the collaborators answer
    and however long the loop runs, each iteration of the main loop
    begins, and writes its progress line, with a total token usage
    strictly below 0.85 times the token budget: no iteration begins once
    the usage has reached that bound. *)
Theorem C2_iterations_begin_within_budget
    (E : Env) (fuel : nat) (a : Args) (n : nat) (t : Z) :
  EvStep n t ∈ final_events (getResponse E fuel a) ->
  100 * t < 85 * a_tokenBudget a.
Proof.
  intros Hin.
  assert (Hall : Forall (step_within_budget (a_tokenBudget a))
                   (final_events (getResponse E fuel a))).
  { set (J := Forall (step_within_budget (a_tokenBudget a))).
    unfold getResponse.
    destruct (extract_question a) as [e|[question messages]]; [constructor|].
    pose proof (preserves_await J "setLanguage" (setLanguage E question)
                  (initial_state E a question messages)) as H0.
    destruct (await _ _ _) as [[] s0|e s0];
      [|apply H0; constructor].
    specialize (H0 (Forall_nil_2 _)).
    pose proof (main_loop_within_budget E
                  (config_of a question messages) fuel s0 H0) as Hloop.
    destruct (main_loop _ _ _ _) as [s1|e s1|s1]; simpl in Hloop; try done.
    pose proof (finish_preserves E (config_of a question messages) J s1 Hloop)
      as Hfin.
    by destruct (finish _ _ _). }
  rewrite Forall_forall in Hall. exact (Hall _ Hin).
Qed.

(** C2 at the greeting request: its only iteration begins with no token
    used, below 85% of the 1000 tokens of the budget. *)
Lemma C2_iterations_begin_within_budget_witness :
  EvStep 1 0 ∈ final_events (getResponse (exampleEnv llm_greets) 3 hiArgs)
  /\ 100 * 0 < 85 * a_tokenBudget hiArgs.
Proof.
  assert (H : EvStep 1 0
              ∈ final_events (getResponse (exampleEnv llm_greets) 3 hiArgs)).
  { vm_compute. constructor. }
  split; [exact H|].
  exact (C2_iterations_begin_within_budget (exampleEnv llm_greets) 3 hiArgs
           1 0 H).
Defined.

(* --------------------------------------------------------------------- *)
(*  The forced answer                                                     *)
(* --------------------------------------------------------------------- *)

(** Whenever the loop is left with a step that is not final, the block
    that follows throws on the unbound name, before any call is made. *)
Lemma finish_without_final_answer E C s :
  isFinal_of (thisStep s) = false ->
  finish E C s
  = Throw (ReferenceError "skipEval")
      (set_totalStep (S (totalStep s)) (set_step (S (step s)) s)).
Proof.
  intros H. unfold finish, bind at 1, get. rewrite H. reflexivity.
Qed.

(** The prompt built for the forced answer offers the answer action only,
    once in its usual form and once in its forced form. *)
Lemma forced_answer_prompt_answer_only E diary keywords urls :
  p_actions (getPrompt E diary keywords false true false false false urls true)
  = [action_answer; action_answer_beast].
Proof. reflexivity. Qed.

(** [getResponse] returns only with a final step: a loop left without
    one ends in the exception above. *)
Lemma getResponse_returns_final E fuel a r s :
  getResponse E fuel a = Returned r s -> isFinal_of (result r) = true.
Proof.
  unfold getResponse.
  destruct (extract_question a) as [e|[question messages]]; [done|].
  destruct (await _ _ _) as [[] s0|e s0]; [|done].
  destruct (main_loop _ _ _ _) as [s1|e s1|s1]; [|done..].
  destruct (isFinal_of (thisStep s1)) eqn:Hfinal.
  - unfold finish, bind at 1, get. rewrite Hfinal. simpl when.
    unfold bind at 1, ret at 1. unfold bind at 1, get.
    destruct (trivialQuestion s1).
    + simpl. intros [= <- <-]. exact Hfinal.
    + simpl. destruct (markdownRepaired E _ _) as [[md us]|]; [|done].
      simpl. intros [= <- <-]. exact Hfinal.
  - by rewrite finish_without_final_answer.
Qed.

(** C1, evaluated where it fails. With a token budget of 0, as a request
    with [max_completion_tokens: 0] gives, the loop does not run an
    iteration; with a budget of 200 tokens and an LLM that never gives an
    answer text, it runs two. Either way the loop is left without a final
    answer, and [getResponse] rejects with a [ReferenceError] on
    [skipEval]: the generator is never called for a forced answer (it was
    called by the two iterations only), and the last step is still not
    final. *)
Theorem C1_forced_answer_call_fails :
  (forall llm,
     exists s,
       getResponse (exampleEnv llm) 1 (args_of says_hi 0 false)
       = Threw (ReferenceError "skipEval") (Some s)
       /\ events s = []
       /\ isFinal_of (thisStep s) = false)
  /\ exists s,
       getResponse (exampleEnv llm_silent) 10 (args_of says_hi 200 false)
       = Threw (ReferenceError "skipEval") (Some s)
       /\ totalStep s = 3%nat
       /\ length (List.filter is_generateObject (events s)) = 2%nat
       /\ isFinal_of (thisStep s) = false.
Proof.
  split.
  - intros llm. eexists. split; [vm_compute; reflexivity|]. by split.
  - eexists. split; [vm_compute; reflexivity|].
    repeat split; vm_compute; reflexivity.
Qed.

(* --------------------------------------------------------------------- *)
(*  Gating of visit and search                                            *)
(* --------------------------------------------------------------------- *)

(** C6, as amended. After the URL list is filtered, ranked and capped in
    an iteration, visit stays enabled exactly when it was not disabled by
    the previous step and the list is not empty, and search stays enabled
    exactly when it was not disabled by the previous step and the list has
    fewer than 200 entries. So an empty list disables visit, and a list of
    200 entries or more disables search. *)
Theorem C6_gating_of_visit_and_search
    (E : Env) (C : Config) (currentQuestion : jsstring) (s : State) :
  exists s',
    (rank_urls E C currentQuestion ;;; gate_actions) s = Ok tt s'
    /\ allowRead s'
       = allowRead s && (0 <? length (weightedURLs s'))%nat
    /\ allowSearch s'
       = allowSearch s && (length (weightedURLs s') <? 200)%nat
    /\ (length (weightedURLs s') = 0%nat -> allowRead s' = false)
    /\ (allowSearch s' = false
        <-> allowSearch s = false \/ (200 <= length (weightedURLs s'))%nat).
Proof.
  eexists. split; [reflexivity|]. simpl.
  set (s1 := if bool_decide (allURLs s = ∅) then s else _).
  assert (Hr : allowRead s1 = allowRead s) by (subst s1; by case_bool_decide).
  assert (Hs : allowSearch s1 = allowSearch s)
    by (subst s1; by case_bool_decide).
  rewrite Hr, Hs. split; [done|]. split; [done|]. split.
  - intros ->. simpl. apply andb_false_r.
  - rewrite andb_false_iff, Nat.ltb_ge. done.
Qed.

(** C6, the claim as stated fails: with 200 URLs in the list and search
    enabled before, search is disabled for the step although the length
    does not exceed 200. *)
Lemma C6_counterexample_exactly_200 :
  let E := exampleEnv llm_greets in
  exists s',
    (rank_urls E hiConfig (js "hi") ;;; gate_actions) (crowdedState E)
    = Ok tt s'
    /\ allowSearch (crowdedState E) = true
    /\ length (weightedURLs s') = 200%nat
    /\ allowSearch s' = false
    /\ ~ (length (weightedURLs s') > 200)%nat.
Proof.
  eexists. split; [reflexivity|].
  repeat split; try (vm_compute; reflexivity).
  vm_compute. lia.
Qed.

(* --------------------------------------------------------------------- *)
(*  The trivial answer at step 1                                          *)
(* --------------------------------------------------------------------- *)

Lemma choose_action_preserves E C J :
  (forall ev, is_choice_event ev = true -> keeps J ev) ->
  preserves (on_events J) (choose_action E C).
Proof.
  intros H. unfold choose_action. apply preserves_bind.
  - unfold begin_step. emits H.
  - intros _. apply after_begin_step_preserves. intros ev Hev _. by apply H.
Qed.

Lemma keeps_work_events evs0 ev :
  is_work_event ev = false ->
  keeps (fun evs =>
           List.filter is_work_event evs = List.filter is_work_event evs0) ev.
Proof.
  intros Hev evs Hevs. rewrite List.filter_app. simpl. rewrite Hev, Hevs.
  apply app_nil_r.
Qed.

Lemma bind_Ok {A B} (m : M A) (k : A -> M B) s a s' :
  m s = Ok a s' -> bind m k s = k a s'.
Proof. intros H. unfold bind. by rewrite H. Qed.

(** A [break] in the body ends the loop. *)
Lemma main_loop_break E C fuel s s' :
  within_budget C s = true ->
  loop_body E C s = Ok Break s' ->
  main_loop E C (S fuel) s = Exited s'.
Proof. intros Hg Hb. simpl. by rewrite Hg, Hb. Qed.

(** C3, as amended. When, in an iteration with [totalStep = 1] and
    [noDirectAnswer = false], the LLM chooses the answer action with an
    answer text that is not empty, and no reference remains after
    normalization, the iteration marks the answer final, flags the
    question as trivial and breaks out of the loop; from the start of the
    iteration to the exit there is no answer evaluation, no search, no
    query rewriting and no page visit. *)
Theorem C3_trivial_answer_accepted (E : Env) (C : Config) (s s1 : State)
    (currentQuestion : jsstring) (urlList : list jsstring)
    (think answer : jsstring) (refs : list Reference) :
  choose_action E C s = Ok (currentQuestion, urlList) s1 ->
  totalStep s1 = 1%nat ->
  thisStep s1 = AnswerAction think answer refs false ->
  answer <> [] ->
  normalizeReferences E (allURLs s1) refs = [] ->
  noDirectAnswer C = false ->
  exists s2,
    loop_body E C s = Ok Break s2
    /\ thisStep s2 = AnswerAction think answer [] true
    /\ trivialQuestion s2 = true
    /\ List.filter is_work_event (events s2)
       = List.filter is_work_event (events s)
    /\ (forall fuel,
          within_budget C s = true ->
          main_loop E C (S fuel) s = Exited s2).
Proof.
  intros Hchoose Hstep Hthis Hans Hrefs Hnda.
  assert (Hev1 : List.filter is_work_event (events s1)
                 = List.filter is_work_event (events s)).
  { pose proof (choose_action_preserves E C
                  (fun evs => List.filter is_work_event evs
                              = List.filter is_work_event (events s))) as Hp.
    specialize (Hp (fun ev Hev => keeps_work_events (events s) ev
                                    ltac:(by destruct ev)) s eq_refl).
    by rewrite Hchoose in Hp. }
  assert (Hbody :
    loop_body E C s
    = Ok Break
        (set_trivialQuestion true
           (set_thisStep (AnswerAction think answer [] true)
              (set_thisStep (AnswerAction think answer [] false) s1)))).
  { unfold loop_body. rewrite (bind_Ok _ _ _ _ _ Hchoose). simpl fst. simpl snd.
    unfold dispatch. rewrite (bind_Ok get _ s1 s1 s1 eq_refl). rewrite Hthis.
    destruct answer as [|c answer]; [done|].
    change (nonempty (c :: answer)) with true. cbv iota.
    unfold dispatch_answer.
    assert (Hupd : updateReferences E refs s1 = Ok [] s1).
    { unfold updateReferences. rewrite (bind_Ok get _ s1 s1 s1 eq_refl).
      by rewrite Hrefs. }
    rewrite (bind_Ok _ _ _ _ _ Hupd).
    rewrite (bind_Ok (modify _) _ _ tt _ eq_refl).
    rewrite (bind_Ok get _ _ _ _ eq_refl).
    change (totalStep (set_thisStep (AnswerAction think (c :: answer) [] false)
                         s1)) with (totalStep s1).
    rewrite Hstep, Hnda. reflexivity. }
  eexists. split; [exact Hbody|]. split; [reflexivity|].
  split; [reflexivity|]. split; [exact Hev1|].
  intros fuel Hg. by apply main_loop_break.
Qed.

(** C3 at the greeting request: the hypotheses hold there. *)
Lemma C3_trivial_answer_accepted_witness :
  exists s2,
    loop_body (exampleEnv llm_greets) hiConfig
      (hiState (exampleEnv llm_greets)) = Ok Break s2
    /\ thisStep s2 = AnswerAction (js "greeting") (js "hello") [] true
    /\ trivialQuestion s2 = true
    /\ List.filter is_work_event (events s2)
       = List.filter is_work_event
           (events (hiState (exampleEnv llm_greets)))
    /\ (forall fuel,
          within_budget hiConfig (hiState (exampleEnv llm_greets)) = true ->
          main_loop (exampleEnv llm_greets) hiConfig (S fuel)
            (hiState (exampleEnv llm_greets)) = Exited s2).
Proof.
  eapply (C3_trivial_answer_accepted (exampleEnv llm_greets) hiConfig
            (hiState (exampleEnv llm_greets)) _ (js "hi") [] (js "greeting")
            (js "hello") []).
  - vm_compute. reflexivity.
  - reflexivity.
  - reflexivity.
  - discriminate.
  - reflexivity.
  - reflexivity.
Defined.

(** The greeting request end to end: one iteration, one call to the
    generator, and the greeting returned as a final, trivial answer. *)
Lemma greeting_is_answered_at_once :
  exists r s,
    getResponse (exampleEnv llm_greets) 3 hiArgs = Returned r s
    /\ result r = AnswerAction (js "greeting") (js "hello") [] true
    /\ mdAnswer r = js "hello"
    /\ totalStep s = 1%nat
    /\ trivialQuestion s = true
    /\ List.filter is_work_event (events s) = [].
Proof.
  do 2 eexists. split; [vm_compute; reflexivity|].
  repeat split; vm_compute; reflexivity.
Qed.

(** C3, the claim as stated fails: at step 1 of the greeting request the
    LLM chooses the answer action with no reference and an empty answer
    text; direct answers are allowed, yet the answer is not accepted and
    the iteration goes on to the next one. *)
Lemma C3_counterexample_empty_answer :
  exists s',
    loop_body (exampleEnv llm_silent) hiConfig
      (hiState (exampleEnv llm_silent)) = Ok Next s'
    /\ totalStep s' = 1%nat
    /\ noDirectAnswer hiConfig = false
    /\ thisStep s' = AnswerAction (js "thinking") [] [] false
    /\ isFinal_of (thisStep s') = false.
Proof.
  eexists. split; [vm_compute; reflexivity|].
  repeat split; vm_compute; reflexivity.
Qed.

(* --------------------------------------------------------------------- *)
(*  The question of a step and the gaps                                   *)
(* --------------------------------------------------------------------- *)

(** The question of an iteration is [gaps[totalStep % gaps.length]], read
    after [totalStep] is incremented; with no gap left the iteration
    throws. *)
Lemma pick_question_round_robin E s :
  match (begin_step E ;;; pick_question) s with
  | Ok currentQuestion s' =>
      gaps s' = gaps s
      /\ totalStep s' = S (totalStep s)
      /\ gaps s !! (S (totalStep s) mod length (gaps s))%nat
         = Some currentQuestion
  | Throw e _ => gaps s = [] /\ e = TypeError "currentQuestion.trim"
  end.
Proof.
  unfold begin_step, pick_question, bind, modify, get, emit, throw, ret.
  simpl.
  destruct (gaps s !! _) as [currentQuestion|] eqn:Hq; [done|].
  split; [|done]. apply lookup_ge_None in Hq.
  destruct (gaps s) as [|g gs]; [done|].
  pose proof (Nat.mod_upper_bound (S (totalStep s)) (length (g :: gs))) as Hb.
  simpl in *. lia.
Qed.

(** A question that arrives as the string content of the last message is
    trimmed; one that arrives as a text part is not. *)
Lemma extract_question_trims_only_strings :
  extract_question
    (args_of [{| role := user; content := CString (js "hi ") |}] 1000 true)
  = inr (js "hi", [{| role := user; content := CString (js "hi ") |}])
  /\ extract_question (args_of says_hi_in_parts 1000 true)
     = inr (js "hi ", says_hi_in_parts).
Proof. split; vm_compute; reflexivity. Qed.

(** C4, evaluated where it fails. The question [hi] followed by a space
    arrives as a text part, with direct answers disallowed. At step 1 the
    question processed is [gaps[1 % 1]], the original question, but it does
    not equal its own trimmed form, so the loop takes it for a
    sub-question: the accepted answer removes it from [gaps], which is left
    empty, and step 2 throws on the missing question. *)
Theorem C4_original_question_leaves_gaps :
  let E := exampleEnv llm_greets in
  let a := args_of says_hi_in_parts 1000 true in
  let C := config_of a (js "hi ") says_hi_in_parts in
  let s0 := initial_state E a (js "hi ") says_hi_in_parts in
  gaps s0 = [js "hi "]
  /\ exists s1 s2,
       loop_body E C s0 = Ok Next s1
       /\ gaps s1 = []
       /\ loop_body E C s1 = Throw (TypeError "currentQuestion.trim") s2
       /\ getResponse E 5 a
          = Threw (TypeError "currentQuestion.trim") (Some s2).
Proof.
  split; [reflexivity|].
  eexists. eexists. split; [vm_compute; reflexivity|].
  split; [reflexivity|]. split; vm_compute; reflexivity.
Qed.

(* --------------------------------------------------------------------- *)
(*  The search dispatch                                                   *)
(* --------------------------------------------------------------------- *)

Lemma bind_assoc {A B D} (m : M A) (k1 : A -> M B) (k2 : B -> M D) s :
  bind (bind m k1) k2 s = bind m (fun a => bind (k1 a) k2) s.
Proof. unfold bind. by destruct (m s). Qed.

(** [executeSearchQueries] never throws; it issues one search per query,
    in order, records the queries whose search found something, makes one
    knowledge item for each of them, and leaves the chosen step and the
    keywords alone. *)
Lemma search_one_events E hosts query acc s :
  exists acc' s1,
    search_one E hosts query acc s = Ok acc' s1
    /\ events s1 = events s ++ [EvSearch (with_sites (q query) hosts)]
    /\ allKeywords s1 = allKeywords s
    /\ thisStep s1 = thisStep s
    /\ totalStep s1 = totalStep s
    /\ snd acc'
       = snd acc
         ++ List.filter (search_found E) [with_sites (q query) hosts]
    /\ length (fst acc')
       = (length (fst acc)
          + length
              (List.filter (search_found E) [with_sites (q query) hosts]))%nat.
Proof.
  unfold search_one, bind at 1, emit, modify. cbn [List.filter].
  unfold search_found.
  destruct (searchProvider E _) as [[results us]|].
  - destruct results as [|r results]; do 2 eexists;
      (split; [reflexivity|]); simpl;
      rewrite ?app_nil_r, ?length_app; simpl;
      repeat split; lia.
  - do 2 eexists. split; [reflexivity|]. simpl.
    rewrite app_nil_r. repeat split; lia.
Qed.

Lemma executeSearchQueries_run E queries hosts :
  forall acc s,
    exists r s',
      for_of queries acc (search_one E hosts) s = Ok r s'
      /\ events s'
         = events s
           ++ map (fun kq => EvSearch (with_sites (q kq) hosts)) queries
      /\ allKeywords s' = allKeywords s
      /\ thisStep s' = thisStep s
      /\ totalStep s' = totalStep s
      /\ snd r
         = snd acc
           ++ List.filter (search_found E)
                (map (fun kq => with_sites (q kq) hosts) queries)
      /\ length (fst r)
         = (length (fst acc)
            + length
                (List.filter (search_found E)
                   (map (fun kq => with_sites (q kq) hosts) queries)))%nat.
Proof.
  induction queries as [|query queries IH]; intros acc s.
  - exists acc, s. simpl. rewrite !app_nil_r. repeat split; lia.
  - cbn [for_of map].
    destruct (search_one_events E hosts query acc s)
      as (acc' & s1 & Hf & Hev & Hkw & Hts & Htot & Hsnd & Hlen).
    rewrite (bind_Ok _ _ _ _ _ Hf).
    destruct (IH acc' s1)
      as (r & s' & Hrun & Hev' & Hkw' & Hts' & Htot' & Hsnd' & Hlen').
    exists r, s'. split; [exact Hrun|].
    rewrite Hev', Hev, Hkw', Hkw, Hts', Hts, Htot', Htot, Hsnd', Hsnd,
      Hlen', Hlen.
    assert (Hcons : forall x l,
              List.filter (search_found E) (x :: l)
              = List.filter (search_found E) [x]
                ++ List.filter (search_found E) l)
      by (intros x l; simpl; by destruct (search_found E x)).
    rewrite (Hcons (with_sites (q query) hosts) (map _ queries)),
      !length_app, <- !app_assoc.
    repeat split; try done. lia.
Qed.

Lemma executeSearchQueries_events E queries hosts :
  forall s,
    exists r s',
      executeSearchQueries E queries hosts s = Ok r s'
      /\ events s'
         = events s
           ++ map (fun kq => EvSearch (with_sites (q kq) hosts)) queries
      /\ allKeywords s' = allKeywords s
      /\ thisStep s' = thisStep s
      /\ totalStep s' = totalStep s
      /\ snd r
         = List.filter (search_found E)
             (map (fun kq => with_sites (q kq) hosts) queries)
      /\ length (fst r) = length (snd r).
Proof.
  intros s. unfold executeSearchQueries.
  destruct (executeSearchQueries_run E queries hosts ([], []) s)
    as (r & s' & Hrun & Hev & Hkw & Hts & Htot & Hsnd & Hlen).
  exists r, s'. simpl in *. by rewrite Hlen, Hsnd.
Qed.

(** The first pass: the deduplication has no history, the capped
    survivors are searched, and the ones whose search found something
    become keywords and knowledge. *)
Lemma search_first_pass_spec E think searchRequests s unique us :
  dedupQueries E searchRequests [] = Some (unique, us) ->
  exists newKnowledge s1,
    search_first_pass E think searchRequests s = Ok newKnowledge s1
    /\ events s1
       = events s
         ++ EvDedupQueries searchRequests []
            :: map EvSearch (chooseK E unique (MAX_QUERIES_PER_STEP E))
    /\ allKeywords s1
       = allKeywords s
         ++ List.filter (search_found E)
              (chooseK E unique (MAX_QUERIES_PER_STEP E))
    /\ length newKnowledge
       = length
           (List.filter (search_found E)
              (chooseK E unique (MAX_QUERIES_PER_STEP E))).
Proof.
  intros Hdedup. unfold search_first_pass.
  rewrite (bind_Ok (emit _) _ _ tt _ eq_refl).
  rewrite Hdedup. unfold await. rewrite bind_assoc.
  rewrite (bind_Ok (track us) _ _ tt _ eq_refl).
  rewrite (bind_Ok (ret unique) _ _ unique _ eq_refl).
  rewrite (bind_Ok (modify _) _ _ tt _ eq_refl).
  match goal with
  | |- context [bind (executeSearchQueries E ?qs ?hosts) _ ?s0] =>
      destruct (executeSearchQueries_events E qs hosts s0)
        as (r & s' & Hrun & Hev & Hkw & _ & _ & Hsnd & Hlen)
  end.
  rewrite (bind_Ok _ _ _ _ _ Hrun).
  rewrite map_map in Hsnd. simpl in Hsnd. rewrite map_id in Hsnd.
  exists (fst r). eexists. split; [reflexivity|].
  simpl. rewrite Hev, Hkw, Hlen, Hsnd. simpl.
  split; [|done].
  rewrite <- app_assoc. simpl. do 2 f_equal.
  rewrite map_map. simpl. done.
Qed.

Lemma keeps_prefix pre ev :
  keeps (fun evs => exists rest, evs = pre ++ rest) ev.
Proof.
  intros evs [rest ->]. exists (rest ++ [ev]). by rewrite app_assoc.
Qed.

Lemma run_prefix {A} (m : M A) s :
  preserves (on_events (fun evs => exists rest, evs = events s ++ rest)) m ->
  exists s' rest,
    ((exists a, m s = Ok a s') \/ (exists e, m s = Throw e s'))
    /\ events s' = events s ++ rest.
Proof.
  intros Hp. specialize (Hp s (ex_intro _ [] (eq_sym (app_nil_r _)))).
  destruct (m s) as [a s'|e s']; destruct Hp as [rest Hrest];
    exists s', rest; eauto.
Qed.

(** C5, as amended. On a search dispatch, the query strings returned by
    the LLM are deduplicated with an empty history, that is among
    themselves only, and the survivors go through [chooseK] with
    [MAX_QUERIES_PER_STEP]; the first pass searches exactly these, whether
    or not they are in [allKeywords]. The ones whose search finds
    something are appended to [allKeywords], one knowledge item is made
    for each of them, and [allKeywords] so extended is the history the
    rewritten queries of the second pass are deduplicated against. The
    cap is the one of [chooseK], a helper outside the embedded sources,
    which is taken to return at most [k] entries. *)
Theorem C5_first_pass_dedup_without_history (E : Env) (C : Config)
    (currentQuestion think : jsstring) (searchRequests : list jsstring)
    (s : State) (unique : list jsstring) (us : list TokenUsage) :
  dedupQueries E searchRequests [] = Some (unique, us) ->
  (forall l k, (length (chooseK E l k) <= k)%nat) ->
  let firstPass := chooseK E unique (MAX_QUERIES_PER_STEP E) in
  let searched := List.filter (search_found E) firstPass in
  (length firstPass <= MAX_QUERIES_PER_STEP E)%nat
  /\ exists newKnowledge s1,
       search_first_pass E think searchRequests s = Ok newKnowledge s1
       /\ events s1
          = events s
            ++ EvDedupQueries searchRequests [] :: map EvSearch firstPass
       /\ allKeywords s1 = allKeywords s ++ searched
       /\ length newKnowledge = length searched
       /\ forall keywordsQueries us',
            rewriteQuery E (totalStep s1) (thisStep s1)
              (join (js " ") (map k_answer newKnowledge))
            = Some (keywordsQueries, us') ->
            exists s2 rest,
              ((exists ctl,
                  dispatch_search E C currentQuestion think searchRequests s
                  = Ok ctl s2)
               \/ (exists e,
                     dispatch_search E C currentQuestion think searchRequests s
                     = Throw e s2))
              /\ events s2
                 = events s1
                   ++ EvRewriteQuery
                      :: EvDedupQueries
                           (map q
                              (List.filter (fun kq => nonempty (q kq))
                                 keywordsQueries))
                           (allKeywords s ++ searched)
                      :: rest.
Proof.
  intros Hdedup Hcap firstPass searched. split; [apply Hcap|].
  destruct (search_first_pass_spec E think searchRequests s unique us Hdedup)
    as (newKnowledge & s1 & Hfirst & Hev & Hkw & Hlen).
  exists newKnowledge, s1.
  split; [exact Hfirst|]. split; [exact Hev|]. split; [exact Hkw|].
  split; [exact Hlen|].
  intros keywordsQueries us' Hrw.
  set (X := dispatch_search E C currentQuestion think searchRequests s).
  eassert (HX : X = _).
  { subst X. unfold dispatch_search. rewrite (bind_Ok _ _ _ _ _ Hfirst).
    unfold search_second_pass.
    rewrite bind_assoc, (bind_Ok get _ s1 s1 s1 eq_refl).
    rewrite bind_assoc, (bind_Ok (emit _) _ _ tt _ eq_refl).
    rewrite bind_assoc.
    change (totalStep (set_events (events s1 ++ [EvRewriteQuery]) s1))
      with (totalStep s1).
    change (thisStep (set_events (events s1 ++ [EvRewriteQuery]) s1))
      with (thisStep s1).
    rewrite Hrw. unfold await at 1. rewrite bind_assoc.
    rewrite (bind_Ok (track us') _ _ tt _ eq_refl).
    rewrite (bind_Ok (ret keywordsQueries) _ _ keywordsQueries _ eq_refl).
    rewrite bind_assoc, (bind_Ok (emit _) _ _ tt _ eq_refl).
    reflexivity. }
  rewrite HX. clear HX X. fold firstPass in Hkw. fold searched in Hkw.
  rewrite <- Hkw.
  match goal with
  | |- context [bind ?m ?k ?s3 = Ok _ _] =>
      destruct (run_prefix (bind m k) s3) as (s2 & rest & Hrun & Hrest);
      [|exists s2, rest; split; [exact Hrun|];
        rewrite Hrest; simpl; rewrite <- !app_assoc; reflexivity]
  end.
  unfold push_diary, push_knowledge, updateContext.
  emits keeps_prefix.
  apply executeSearchQueries_preserves. intros ev _. apply keeps_prefix.
Qed.

(** C5 at a search for [a] in a state where [a] was searched before,
    with a provider that finds a page: [a] is searched again and joins
    the keywords a second time. *)
Lemma C5_first_pass_dedup_without_history_witness :
  let E := with_searchProvider finds_one_page (exampleEnv llm_searches) in
  let s := searchedState E in
  let firstPass := chooseK E [js "a"] (MAX_QUERIES_PER_STEP E) in
  let searched := List.filter (search_found E) firstPass in
  searched = [js "a"]
  /\ (length firstPass <= MAX_QUERIES_PER_STEP E)%nat
  /\ exists newKnowledge s1,
       search_first_pass E (js "look it up") [js "a"] s = Ok newKnowledge s1
       /\ events s1
          = events s ++ EvDedupQueries [js "a"] [] :: map EvSearch firstPass
       /\ allKeywords s1 = allKeywords s ++ searched
       /\ length newKnowledge = length searched
       /\ forall keywordsQueries us',
            rewriteQuery E (totalStep s1) (thisStep s1)
              (join (js " ") (map k_answer newKnowledge))
            = Some (keywordsQueries, us') ->
            exists s2 rest,
              ((exists ctl,
                  dispatch_search E hiConfig (js "hi") (js "look it up")
                    [js "a"] s = Ok ctl s2)
               \/ (exists e,
                     dispatch_search E hiConfig (js "hi") (js "look it up")
                       [js "a"] s = Throw e s2))
              /\ events s2
                 = events s1
                   ++ EvRewriteQuery
                      :: EvDedupQueries
                           (map q
                              (List.filter (fun kq => nonempty (q kq))
                                 keywordsQueries))
                           (allKeywords s ++ searched)
                      :: rest.
Proof.
  split; [reflexivity|].
  apply (C5_first_pass_dedup_without_history
           (with_searchProvider finds_one_page (exampleEnv llm_searches))
           hiConfig (js "hi") (js "look it up") [js "a"]
           (searchedState
              (with_searchProvider finds_one_page (exampleEnv llm_searches)))
           [js "a"] []).
  - reflexivity.
  - intros l k. simpl. rewrite length_take. lia.
Defined.

(** C5, the claim as stated fails: [a] is in [allKeywords], so that a
    deduplication against [allKeywords] leaves nothing to search; the
    first pass deduplicates against the empty history and searches [a]
    again. *)
Lemma C5_counterexample_searched_again :
  let E := exampleEnv llm_searches in
  let s := searchedState E in
  allKeywords s = [js "a"]
  /\ dedupQueries E [js "a"] (allKeywords s) = Some ([], [])
  /\ exists newKnowledge s1,
       search_first_pass E (js "look it up") [js "a"] s = Ok newKnowledge s1
       /\ events s1
          = events s ++ [EvDedupQueries [js "a"] []; EvSearch (js "a")]
       /\ EvDedupQueries [js "a"] (allKeywords s) ∉ events s1.
Proof.
  split; [reflexivity|]. split; [reflexivity|].
  do 2 eexists. split; [vm_compute; reflexivity|].
  split; [reflexivity|].
  cbn [events set_events set_tokenTracker set_thisStep set_allKeywords
       set_allURLs]. simpl.
  rewrite !elem_of_cons, elem_of_nil. intros [H|[H|[]]]; discriminate H.
Qed.

(* --------------------------------------------------------------------- *)
(*  The original question among the gaps                                  *)
(* --------------------------------------------------------------------- *)

Lemma trimStart_fixed s :
  match s with
  | [] => True
  | c :: _ => is_space c = false
  end ->
  trimStart s = s.
Proof. destruct s as [|c s]; [done|]. simpl. by intros ->. Qed.

Lemma trimStart_head s :
  match trimStart s with
  | [] => True
  | c :: _ => is_space c = false
  end.
Proof.
  induction s as [|c s IH]; [done|]. simpl.
  destruct (is_space c) eqn:Hc; [done|]. by rewrite Hc.
Qed.

Lemma trimStart_idemp s : trimStart (trimStart s) = trimStart s.
Proof. apply trimStart_fixed, trimStart_head. Qed.

Lemma trimStart_snoc l c :
  is_space c = false -> trimStart (l ++ [c]) = trimStart l ++ [c].
Proof.
  intros Hc. induction l as [|d l IH]; simpl.
  - by rewrite Hc.
  - by destruct (is_space d).
Qed.

Lemma trimEnd_cons c s :
  is_space c = false -> trimEnd (c :: s) = c :: trimEnd s.
Proof.
  intros Hc. unfold trimEnd. simpl.
  rewrite trimStart_snoc by done. by rewrite rev_app_distr.
Qed.

Lemma trimEnd_idemp s : trimEnd (trimEnd s) = trimEnd s.
Proof.
  unfold trimEnd. by rewrite rev_involutive, trimStart_idemp.
Qed.

(** [s.trim().trim() === s.trim()] *)
Lemma trim_idemp s : trim (trim s) = trim s.
Proof.
  unfold trim.
  assert (H : trimStart (trimEnd (trimStart s)) = trimEnd (trimStart s)).
  { apply trimStart_fixed. pose proof (trimStart_head s) as Hh.
    destruct (trimStart s) as [|c t]; [done|].
    by rewrite trimEnd_cons. }
  by rewrite H, trimEnd_idemp.
Qed.

Lemma indexOf_elem_of {A} `{EqDecision A} (x : A) (l : list A) :
  x ∈ l -> exists i, indexOf x l = Some i /\ l !! i = Some x.
Proof.
  induction l as [|y l IH]; intros Hin; [by apply elem_of_nil in Hin|].
  simpl. destruct (decide (y = x)) as [->|Hne].
  - by exists 0%nat.
  - apply elem_of_cons in Hin as [->|Hin]; [done|].
    destruct (IH Hin) as (i & -> & Hi). by exists (S i).
Qed.

(** Removing a gap other than the first keeps the first. *)
Lemma splice1_keeps_head (q x : jsstring) (l : list jsstring) :
  head l = Some q -> x ∈ l -> x <> q ->
  head (splice1 (indexOf x l) l) = Some q.
Proof.
  intros Hhead Hin Hne. destruct l as [|y l]; [done|].
  simpl in Hhead. injection Hhead as ->.
  destruct (indexOf_elem_of x (q :: l) Hin) as (i & Hi & Hl).
  rewrite Hi. destruct i as [|i]; [|done].
  simpl in Hl. congruence.
Qed.

Lemma hoare_preserves {A} (I : State -> Prop) (m : M A) :
  preserves I m -> hoare I m (fun _ => I) I.
Proof. intros H s Hs. exact (H s Hs). Qed.

Lemma hoare_bind {A B} (P : State -> Prop) (R : A -> State -> Prop)
    (Q : B -> State -> Prop) (X : State -> Prop) (m : M A) (k : A -> M B) :
  hoare P m R X -> (forall a, hoare (R a) (k a) Q X) ->
  hoare P (bind m k) Q X.
Proof.
  intros Hm Hk s Hs. unfold bind. specialize (Hm s Hs).
  destruct (m s) as [a s'|e s']; [by apply Hk | done].
Qed.

Lemma hoare_bind_weak {A B} (P : State -> Prop) (R : A -> State -> Prop)
    (Q : B -> State -> Prop) (X X' : State -> Prop) (m : M A)
    (k : A -> M B) :
  hoare P m R X' -> (forall s, X' s -> X s) ->
  (forall a, hoare (R a) (k a) Q X) ->
  hoare P (bind m k) Q X.
Proof.
  intros Hm HX Hk s Hs. unfold bind. specialize (Hm s Hs).
  destruct (m s) as [a s'|e s']; [by apply Hk | by apply HX].
Qed.

(** A precondition with a part [F] that does not read the state. *)
Lemma hoare_pre {A} (P0 P : State -> Prop) (F : Prop) (m : M A)
    (Q : A -> State -> Prop) (X : State -> Prop) :
  (forall s, P0 s -> P s /\ F) -> (F -> hoare P m Q X) -> hoare P0 m Q X.
Proof. intros H0 Hm s Hs. destruct (H0 s Hs) as [HP HF]. by apply Hm. Qed.

Lemma hoare_post {A} (P : State -> Prop) (m : M A)
    (Q Q' : A -> State -> Prop) (X X' : State -> Prop) :
  hoare P m Q' X' -> (forall a s, Q' a s -> Q a s) ->
  (forall s, X' s -> X s) -> hoare P m Q X.
Proof.
  intros Hm HQ HX s Hs. specialize (Hm s Hs).
  destruct (m s) as [a s'|e s']; [by apply HQ | by apply HX].
Qed.

Section Gaps.

Variable E : Env.
Variable C : Config.
Variable g0 : list jsstring.

(** Run [preserves_step] to the leaves for an invariant that reads the
    gaps only. *)
Ltac frames :=
  repeat first
    [ preserves_step
    | match goal with
      | |- preserves _ (emit _) =>
          apply preserves_emit_frame; intros ? ? ?; assumption
      | |- preserves _ (await _ _) =>
          apply preserves_await_frame; intros ? ? ?; assumption
      | |- preserves _ (track _) =>
          apply preserves_track_frame; intros ? ? ?; assumption
      end ].

Lemma fillDates_gaps refs : preserves (gaps_are g0) (fillDates E refs).
Proof. unfold fillDates. frames. Qed.

Lemma executeSearchQueries_gaps queries hosts :
  preserves (gaps_are g0) (executeSearchQueries E queries hosts).
Proof.
  unfold executeSearchQueries. apply preserves_for_of. intros query acc.
  unfold search_one. frames.
Qed.

Lemma run_processURLs_gaps urls : preserves (gaps_are g0) (run_processURLs E urls).
Proof. unfold run_processURLs. frames. Qed.

Lemma choose_action_gaps :
  hoare (gaps_are g0) (choose_action E C)
    (fun chosen s' => (gaps_are g0) s' /\ fst chosen ∈ g0) (gaps_are g0).
Proof.
  unfold choose_action.
  apply hoare_bind with (R := fun _ => (gaps_are g0)).
  { apply hoare_preserves. unfold begin_step. frames. }
  intros _.
  apply hoare_bind
    with (R := fun currentQuestion s => (gaps_are g0) s /\ currentQuestion ∈ g0).
  { intros s Hs. unfold pick_question, bind, get.
    destruct (gaps s !! _) as [currentQuestion|] eqn:Hq; [|exact Hs].
    split; [exact Hs|]. rewrite <- Hs. eapply list_elem_of_lookup_2, Hq. }
  intros currentQuestion.
  apply hoare_pre with (P := (gaps_are g0)) (F := currentQuestion ∈ g0).
  { tauto. }
  intros Hin.
  do 4 (apply hoare_bind with (R := fun _ => (gaps_are g0));
        [ apply hoare_preserves;
          unfold seed_criteria, freshness_lockout, metrics_of, rank_urls,
            gate_actions; frames
        | intros _ ]).
  apply hoare_bind with (R := fun _ => (gaps_are g0)).
  { apply hoare_preserves. unfold ask_llm. frames. }
  intros urlList s Hs. by split.
Qed.

Lemma gaps_are_original_first s :
  head g0 = Some (question C) -> (gaps_are g0) s -> original_first C s.
Proof. unfold gaps_are, original_first. by intros H ->. Qed.

Ltac gaps_step Hhead :=
  apply hoare_bind_weak
    with (R := fun _ => gaps_are g0) (X' := gaps_are g0);
  [ apply hoare_preserves;
    unfold updateReferences, updateContext, metrics_of, push_diary,
      push_knowledge;
    frames;
    first [ apply fillDates_gaps | apply run_processURLs_gaps
          | apply executeSearchQueries_gaps ]
  | intros ?; apply gaps_are_original_first, Hhead
  | intros ? ].

Ltac gaps_leaf Hhead :=
  eapply hoare_post;
  [ apply hoare_preserves;
    unfold dispatch_search, search_first_pass, search_second_pass,
      dispatch_visit, dispatch_coding, updateContext, metrics_of,
      push_diary, push_knowledge;
    frames;
    first [ apply fillDates_gaps | apply run_processURLs_gaps
          | apply executeSearchQueries_gaps ]
  | intros ? ?; apply gaps_are_original_first, Hhead
  | intros ?; apply gaps_are_original_first, Hhead ].

(** With a trimmed original question at the head of the gaps, dispatching
    the action chosen for one of the gaps leaves it at the head. *)
Lemma dispatch_original_first currentQuestion urlList :
  trim (question C) = question C ->
  head g0 = Some (question C) ->
  currentQuestion ∈ g0 ->
  hoare (gaps_are g0) (dispatch E C currentQuestion urlList)
    (fun _ => original_first C) (original_first C).
Proof.
  intros Htrim Hhead Hin. unfold dispatch.
  gaps_step Hhead.
  destruct (thisStep a) as [t r|t a0 refs f|t qs|t [idx|urls]|t c].
  - gaps_leaf Hhead.
  - destruct (nonempty a0); [|gaps_leaf Hhead].
    unfold dispatch_answer.
    do 3 gaps_step Hhead.
    destruct (_ && _); [gaps_leaf Hhead|].
    do 6 gaps_step Hhead.
    case_bool_decide as Hq; [gaps_leaf Hhead|].
    destruct (pass _); [|gaps_leaf Hhead].
    do 2 gaps_step Hhead.
    intros s Hs. unfold bind, modify, ret. unfold original_first. simpl.
    rewrite Hs. apply splice1_keeps_head; [done..|].
    intros ->. by apply Hq.
  - unfold dispatch_reflect.
    do 4 gaps_step Hhead.
    apply hoare_bind with (R := fun _ => original_first C).
    + destruct (nonempty _); [|gaps_leaf Hhead].
      gaps_step Hhead.
      apply hoare_bind with (R := fun _ => original_first C).
      * intros s Hs. unfold modify, original_first. simpl. rewrite Hs.
        destruct g0; [done|]. exact Hhead.
      * intros _. apply hoare_preserves. unfold updateContext. frames.
    + intros _. apply hoare_preserves. frames.
  - destruct (_ && _); [|gaps_leaf Hhead]. gaps_leaf Hhead.
  - gaps_leaf Hhead.
  - destruct (nonempty c); gaps_leaf Hhead.
Qed.


End Gaps.

Lemma loop_body_original_first E C s :
  trim (question C) = question C ->
  original_first C s ->
  match loop_body E C s with
  | Ok _ s' => original_first C s'
  | Throw _ s' => original_first C s'
  end.
Proof.
  intros Htrim Hs.
  assert (H : hoare (gaps_are (gaps s)) (loop_body E C)
                (fun _ => original_first C) (original_first C)).
  { unfold loop_body. eapply hoare_bind.
    - eapply hoare_post; [apply choose_action_gaps | intros a s' H; exact H |].
      intros s'. by apply gaps_are_original_first.
    - intros chosen. eapply hoare_pre; [intros s' Hs'; exact Hs'|].
      intros Hin. by apply dispatch_original_first. }
  by apply H.
Qed.

Lemma main_loop_original_first E C fuel :
  trim (question C) = question C ->
  forall s,
    original_first C s ->
    original_first C (loop_state (main_loop E C fuel s)).
Proof.
  intros Htrim. induction fuel as [|fuel IH]; intros s Hs; simpl; [done|].
  destruct (within_budget C s); [|done].
  pose proof (loop_body_original_first E C s Htrim Hs) as Hbody.
  destruct (loop_body E C s) as [[|] s'|e s']; simpl; by auto.
Qed.

(** The half of C4 that holds, and the condition under which the other
    half holds. When the question handed to the loop equals its own
    trimmed form, as it does when it comes from the [question] argument or
    from a message whose content is a string, every iteration finds the
    original question at index 0 of [gaps] and processes
    [gaps[totalStep % gaps.length]]. *)
Lemma round_robin_with_trimmed_question E C s0 s :
  trim (question C) = question C ->
  gaps s0 = [question C] ->
  iterates E C s0 s ->
  gaps s !! 0%nat = Some (question C)
  /\ exists currentQuestion s',
       (begin_step E ;;; pick_question) s = Ok currentQuestion s'
       /\ gaps s !! (S (totalStep s) mod length (gaps s))%nat
          = Some currentQuestion.
Proof.
  intros Htrim H0 Hit.
  assert (Hhead : original_first C s).
  { induction Hit as [|s1 s2 _ IH Hbody _].
    - unfold original_first. by rewrite H0.
    - pose proof (loop_body_original_first E C s1 Htrim IH) as Hb.
      by rewrite Hbody in Hb. }
  unfold original_first in Hhead. split.
  - by destruct (gaps s).
  - pose proof (pick_question_round_robin E s) as Hp.
    destruct ((begin_step E ;;; pick_question) s) as [cq s'|e s'].
    + exists cq, s'. split; [done|]. apply Hp.
    + destruct Hp as [Hnil _]. by rewrite Hnil in Hhead.
Qed.

(** The question [getResponse] extracts from a string, be it the
    [question] argument or the content of the last message, is trimmed. *)
Lemma extract_question_from_string a question messages :
  extract_question a = inr (question, messages) ->
  (forall m ms parts,
     List.filter (fun m => negb (bool_decide (role m = system)))
       <$> a_messages a = Some (m :: ms) ->
     content (List.last ms m) <> CParts parts) ->
  trim question = question.
Proof.
  unfold extract_question. intros Hex Hstr.
  destruct (_ <$> a_messages a) as [[|m ms]|] eqn:Hm.
  - destruct (a_question a) as [q0|]; [|done]. simpl in Hex.
    injection Hex as <- _. apply trim_idemp.
  - specialize (Hstr m ms). destruct (content (List.last ms m)) as [c|parts].
    + injection Hex as <- _. apply trim_idemp.
    + by destruct (Hstr parts).
  - destruct (a_question a) as [q0|]; [|done]. simpl in Hex.
    injection Hex as <- _. apply trim_idemp.
Qed.

(* ===================================================================== *)
(*  Further properties of the code                                        *)
(* ===================================================================== *)

(* --------------------------------------------------------------------- *)
(*  Token tracker: tracking and the breakdown                             *)
(* --------------------------------------------------------------------- *)

(** X1. Tracking one more usage adds its three counts to the three totals,
    in the camel-case and in the snake-case reading alike, whatever was
    recorded before. *)
Theorem X1_trackUsage_adds_to_totals
    (t : jsstring) (u : LanguageModelUsage) (tr : TokenTracker) :
  getTotalUsage (trackUsage t u tr)
  = {| promptTokens := promptTokens (getTotalUsage tr) + promptTokens u;
       completionTokens :=
         completionTokens (getTotalUsage tr) + completionTokens u;
       totalTokens := totalTokens (getTotalUsage tr) + totalTokens u |}
  /\ getTotalUsageSnakeCase (trackUsage t u tr)
     = {| prompt_tokens :=
            prompt_tokens (getTotalUsageSnakeCase tr) + promptTokens u;
          completion_tokens :=
            completion_tokens (getTotalUsageSnakeCase tr)
            + completionTokens u;
          total_tokens :=
            total_tokens (getTotalUsageSnakeCase tr) + totalTokens u |}.
Proof.
  unfold getTotalUsage, getTotalUsageSnakeCase, trackUsage. simpl.
  by rewrite !fold_left_app.
Qed.

Lemma sum_field_app f l1 l2 :
  sum_field f (l1 ++ l2) = sum_field f l1 + sum_field f l2.
Proof.
  unfold sum_field. induction l1 as [|x l1 IH]; simpl; [done|].
  rewrite IH. lia.
Qed.

Lemma tool_total_cons t tu l :
  tool_total t (tu :: l)
  = (if bool_decide (tool tu = t) then totalTokens (usage tu) else 0)
    + tool_total t l.
Proof.
  unfold tool_total. cbn [List.filter].
  destruct (bool_decide (tool tu = t)); unfold sum_field; simpl; lia.
Qed.

Lemma tool_total_absent t l : t ∉ map tool l -> tool_total t l = 0.
Proof.
  induction l as [|tu l IH]; intros Hin; [done|].
  rewrite tool_total_cons, IH.
  - rewrite bool_decide_eq_false_2; [done|].
    intros H. apply Hin. rewrite <- H. apply list_elem_of_here.
  - intros H. apply Hin. by apply list_elem_of_further.
Qed.

Lemma add_tokens_lookup (t : jsstring) (l : list TokenUsage) :
  forall acc : gmap jsstring Z,
    fold_left add_tokens l acc !! t
    = if bool_decide (t ∈ map tool l)
      then Some (default 0 (acc !! t) + tool_total t l)
      else acc !! t.
Proof.
  induction l as [|tu l IH]; intros acc.
  - reflexivity.
  - cbn [fold_left map]. rewrite IH, tool_total_cons. unfold add_tokens.
    destruct (decide (tool tu = t)) as [Heq|Hne].
    + rewrite (bool_decide_eq_true_2 (tool tu = t)) by done.
      rewrite (bool_decide_eq_true_2 (t ∈ tool tu :: map tool l))
        by (rewrite Heq; apply list_elem_of_here).
      rewrite Heq, lookup_insert_eq. simpl.
      destruct (decide (t ∈ map tool l)) as [Hin|Hin].
      * rewrite (bool_decide_eq_true_2 _ Hin). f_equal; lia.
      * rewrite (bool_decide_eq_false_2 _ Hin).
        rewrite (tool_total_absent t l Hin). f_equal; lia.
    + rewrite (bool_decide_eq_false_2 (tool tu = t)) by done.
      rewrite lookup_insert_ne by done.
      destruct (decide (t ∈ map tool l)) as [Hin|Hin].
      * rewrite (bool_decide_eq_true_2 _ Hin).
        rewrite (bool_decide_eq_true_2 (t ∈ tool tu :: map tool l))
          by (by apply list_elem_of_further).
        f_equal; lia.
      * rewrite (bool_decide_eq_false_2 _ Hin).
        rewrite (bool_decide_eq_false_2 (t ∈ tool tu :: map tool l));
          [done|].
        intros H. apply elem_of_cons in H as [H|H]; [by subst|done].
Qed.

Lemma numbers_sum_insert (m : gmap jsstring Z) (k : jsstring) (v : Z) :
  numbers_sum (<[k := default 0 (m !! k) + v]> m) = numbers_sum m + v.
Proof.
  unfold numbers_sum.
  assert (Hcomm : forall z1 z2 y : Z, z1 + (z2 + y) = z2 + (z1 + y))
    by (intros; lia).
  destruct (m !! k) as [x|] eqn:Hk; simpl.
  - rewrite <- (insert_delete_id m k x Hk) at 2.
    rewrite <- (insert_delete_eq m).
    rewrite !map_fold_insert_L; try (by rewrite lookup_delete_eq);
      try (intros; apply Hcomm).
    lia.
  - rewrite map_fold_insert_L; [lia | intros; apply Hcomm | done].
Qed.

Lemma add_tokens_sum (l : list TokenUsage) :
  forall acc : gmap jsstring Z,
    numbers_sum (fold_left add_tokens l acc)
    = numbers_sum acc + sum_field totalTokens l.
Proof.
  induction l as [|tu l IH]; intros acc.
  - unfold sum_field. simpl. lia.
  - cbn [fold_left]. rewrite IH. unfold add_tokens.
    rewrite numbers_sum_insert.
    unfold sum_field. simpl. lia.
Qed.

(** With no inherited name among the tools, the breakdown is the
    reduction on numbers. *)
Lemma breakdown_numbers (l : list TokenUsage) :
  Forall (fun tu => tool tu ∉ object_prototype_names) l ->
  forall acc : gmap jsstring Z,
    fold_left breakdown_step l (BNumber <$> acc)
    = BNumber <$> fold_left add_tokens l acc.
Proof.
  induction 1 as [|tu l Htu Hl IH]; intros acc; [done|].
  cbn [fold_left]. rewrite <- IH. f_equal.
  unfold breakdown_step, add_tokens. rewrite lookup_fmap.
  destruct (acc !! tool tu) as [v|]; simpl.
  - by rewrite fmap_insert.
  - rewrite bool_decide_eq_false_2.
    + rewrite (bool_decide_eq_false_2 _ Htu). by rewrite fmap_insert.
    + intros Heq. apply Htu. rewrite Heq.
      do 10 apply list_elem_of_further. apply list_elem_of_here.
Qed.

Lemma breakdown_sum_numbers (m : gmap jsstring Z) :
  breakdown_sum (BNumber <$> m) = numbers_sum m.
Proof.
  unfold breakdown_sum, numbers_sum.
  induction m as [|k v m Hk IH] using map_ind.
  - by rewrite fmap_empty, !map_fold_empty.
  - rewrite fmap_insert.
    rewrite !map_fold_insert_L; try done;
      try (intros; lia); try (by rewrite lookup_fmap, Hk).
    simpl. by rewrite IH.
Qed.

(** X2. When no tool bears the name of a member of [Object.prototype],
    the breakdown has an entry exactly for the tools that recorded a
    usage; the entry of a tool is the number that sums the total tokens
    of its usages; and the entries add up to the total tokens of
    [getTotalUsage]. *)
Theorem X2_breakdown_partitions_total (tr : TokenTracker) :
  Forall (fun tu => tool tu ∉ object_prototype_names) (usages tr) ->
  (forall t,
     getUsageBreakdown tr !! t
     = if bool_decide (t ∈ map tool (usages tr))
       then Some (BNumber (tool_total t (usages tr)))
       else None)
  /\ breakdown_sum (getUsageBreakdown tr) = totalTokens (getTotalUsage tr).
Proof.
  intros Hnames.
  assert (Hb : getUsageBreakdown tr
               = BNumber <$> fold_left add_tokens (usages tr) ∅).
  { unfold getUsageBreakdown.
    rewrite <- (breakdown_numbers _ Hnames ∅). by rewrite fmap_empty. }
  rewrite Hb. split.
  - intros t. rewrite lookup_fmap, add_tokens_lookup.
    rewrite lookup_empty. simpl.
    case_bool_decide; [simpl; do 2 f_equal; lia | done].
  - rewrite breakdown_sum_numbers, add_tokens_sum.
    unfold getTotalUsage. rewrite camel_fold. simpl.
    unfold numbers_sum. rewrite map_fold_empty. lia.
Qed.

(** X2 at a tracker of the tools [agent] and [search]. *)
Lemma X2_breakdown_partitions_total_witness :
  Forall (fun tu => tool tu ∉ object_prototype_names) (usages two_tools)
  /\ (forall t,
        getUsageBreakdown two_tools !! t
        = if bool_decide (t ∈ map tool (usages two_tools))
          then Some (BNumber (tool_total t (usages two_tools)))
          else None)
  /\ breakdown_sum (getUsageBreakdown two_tools)
     = totalTokens (getTotalUsage two_tools).
Proof.
  assert (H : Forall (fun tu => tool tu ∉ object_prototype_names)
                (usages two_tools)).
  { cbv [two_tools trackAll fold_left trackUsage newTokenTracker usages
           app fst snd].
    do 3 (apply Forall_cons_2;
          [match goal with
           | |- ?P => apply (bool_decide_unpack P); vm_compute; exact I
           end|]).
    apply Forall_nil_2. }
  split; [exact H|].
  exact (X2_breakdown_partitions_total two_tools H).
Defined.

(** Inherited names do differ: a tool named [constructor] gets the
    string made of the inherited function and the numbers, and a tool
    named [__proto__] gets no entry. *)
Lemma breakdown_of_inherited_names :
  getUsageBreakdown inherited_tools !! js "constructor"
  = Some (BText (js "constructor") [5; 3])
  /\ getUsageBreakdown inherited_tools !! js "__proto__" = None
  /\ totalTokens (getTotalUsage inherited_tools) = 15.
Proof. repeat split; vm_compute; reflexivity. Qed.

(* --------------------------------------------------------------------- *)
(*  streamTextNaturally: burst mode                                       *)
(* --------------------------------------------------------------------- *)

Lemma short_run_snoc l chunk :
  short_run (l ++ [chunk])
  = if is_short_item chunk then S (short_run l) else 0%nat.
Proof. unfold short_run. by rewrite fold_left_app. Qed.

Lemma burst_modes_window chunks :
  forall pre,
    burst_modes (short_run pre) (3 <=? short_run pre)%nat chunks
    = map (fun k => (3 <=? short_run (pre ++ take k chunks))%nat)
        (seq 0 (length chunks)).
Proof.
  induction chunks as [|chunk chunks IH]; intros pre; [done|].
  cbn [burst_modes length seq map take]. rewrite app_nil_r. f_equal.
  rewrite <- fmap_S_seq.
  change (map ?f (S <$> ?l)) with (map f (map S l)). rewrite map_map.
  assert (Hrhs : forall k,
            pre ++ take (S k) (chunk :: chunks)
            = (pre ++ [chunk]) ++ take k chunks)
    by (intros k; simpl; by rewrite <- app_assoc).
  erewrite map_ext; [|intros k; rewrite Hrhs; reflexivity].
  rewrite <- IH, short_run_snoc.
  destruct (is_short_item chunk); [|done].
  destruct (3 <=? S (short_run pre))%nat eqn:H3; [done|].
  apply Nat.leb_gt in H3.
  destruct (Nat.leb_spec 3 (short_run pre)) as [Hle|_]; [lia|done].
Qed.

Lemma short_run_positive l :
  (1 <= short_run l)%nat ->
  exists l' chunk,
    l = l' ++ [chunk] /\ is_short_item chunk = true
    /\ short_run l = S (short_run l').
Proof.
  induction l as [|chunk l _] using rev_ind; intros H.
  - unfold short_run in H. simpl in H. lia.
  - rewrite short_run_snoc in *.
    destruct (is_short_item chunk) eqn:Hs; [|lia]. by exists l, chunk.
Qed.

Lemma short_run_three l :
  (3 <= short_run l)%nat
  <-> exists l' a b c,
        l = l' ++ [a; b; c]
        /\ is_short_item a = true /\ is_short_item b = true
        /\ is_short_item c = true.
Proof.
  split.
  - intros H.
    destruct (short_run_positive l) as (l1 & c & -> & Hc & H1); [lia|].
    destruct (short_run_positive l1) as (l2 & b & -> & Hb & H2); [lia|].
    destruct (short_run_positive l2) as (l3 & a & -> & Ha & H3); [lia|].
    exists l3, a, b, c. by rewrite <- !app_assoc.
  - intros (l' & a & b & c & -> & Ha & Hb & Hc).
    change [a; b; c] with ([a] ++ [b] ++ [c]).
    rewrite !app_assoc, !short_run_snoc, Ha, Hb, Hc. lia.
Qed.

Lemma lookup_map_seq_true (f : nat -> bool) n i :
  map f (seq 0 n) !! i = Some true <-> (i < n)%nat /\ f i = true.
Proof.
  change (map f (seq 0 n)) with (f <$> seq 0 n).
  rewrite list_lookup_fmap. split.
  - intros H. destruct (seq 0 n !! i) as [k|] eqn:Hk; [|done].
    apply lookup_seq in Hk as [-> Hlt]. simpl in H. by injection H.
  - intros [Hlt H]. rewrite lookup_seq_lt by done. simpl. by f_equal.
Qed.

(** X3. In a stream that is not interrupted, the delay of the chunk at
    index [i] is computed in burst mode exactly when the three chunks just
    before it are all short items (an effective length of at most 3 and
    not blank); one longer or blank chunk among them ends burst mode. *)
Theorem X3_burst_mode_after_three_short_items (text : jsstring) (i : nat) :
  streamBurstModes text !! i = Some true
  <-> (i < length (splitTextIntoChunks text))%nat
      /\ exists pre a b c,
           take i (splitTextIntoChunks text) = pre ++ [a; b; c]
           /\ is_short_item a = true /\ is_short_item b = true
           /\ is_short_item c = true.
Proof.
  unfold streamBurstModes.
  pose proof (burst_modes_window (splitTextIntoChunks text) []) as Hw.
  change (short_run []) with 0%nat in Hw. simpl in Hw. rewrite Hw.
  rewrite <- short_run_three, <- Nat.leb_le.
  apply (lookup_map_seq_true
           (fun k => (3 <=? short_run (take k (splitTextIntoChunks text)))%nat)).
Qed.

(** A blank chunk is not a short item, whatever its length. *)
Lemma blank_chunk_is_not_short chunk :
  trim chunk = [] -> is_short_item chunk = false.
Proof. unfold is_short_item. intros ->. apply andb_false_r. Qed.

(* --------------------------------------------------------------------- *)
(*  splitTextIntoChunks: white space                                      *)
(* --------------------------------------------------------------------- *)

Lemma space_alone_no_space chunk :
  Forall (fun c => is_space c = false) chunk -> space_alone chunk.
Proof.
  intros H c Hin Hc. rewrite Forall_forall in H.
  specialize (H c Hin). congruence.
Qed.

Lemma space_alone_single c : space_alone [c].
Proof. intros d Hin _. apply list_elem_of_singleton in Hin. by subst. Qed.

Lemma splitter_spaces_push st :
  Forall space_alone (sp_chunks st) ->
  Forall (fun c => is_space c = false) (currentChunk st) ->
  Forall space_alone (sp_chunks (pushCurrentChunk st))
  /\ currentChunk (pushCurrentChunk st) = []
  /\ inURL (pushCurrentChunk st) = inURL st.
Proof.
  intros Hch Hcur. unfold pushCurrentChunk.
  destruct (currentChunk st) as [|c cur] eqn:Hc; [done|]. simpl.
  split; [|done]. apply Forall_app. split; [done|].
  constructor; [|constructor]. by apply space_alone_no_space.
Qed.

Lemma is_url_end_space c : is_url_end c = false -> is_space c = false.
Proof. unfold is_url_end. destruct (is_space c); [done|done]. Qed.

Lemma split_loop_spaces suffix :
  forall st,
    splitter_spaces suffix st ->
    Forall space_alone
      (sp_chunks (pushCurrentChunk (split_loop suffix st))).
Proof.
  induction suffix as [|char rest IH]; intros st Hst.
  - destruct Hst as (Hch & Hcur & _). simpl.
    by apply splitter_spaces_push.
  - cbn [split_loop].
    set (st1 := if (char =? 104)%N && match_http (take 8 (char :: rest))
                then set_inURL true (pushCurrentChunk st) else st).
    assert (H1 : splitter_spaces (char :: rest) st1).
    { subst st1. destruct (char =? 104)%N eqn:Hh; [|exact Hst].
      destruct (match_http _); [|exact Hst]. cbn [andb].
      destruct Hst as (Hch & Hcur & _).
      destruct (splitter_spaces_push _ Hch Hcur) as (Hp & Hc & _).
      split; [exact Hp|]. split; [simpl; rewrite Hc; constructor|].
      intros _. simpl. apply N.eqb_eq in Hh. by subst. }
    clearbody st1. clear Hst st.
    destruct H1 as (Hch & Hcur & Hurl).
    assert (Happ : is_space char = false ->
                   Forall (fun c => is_space c = false)
                     (currentChunk (append_char char st1))).
    { intros Hsp. simpl. apply Forall_app. split; [done|by constructor]. }
    destruct (inURL st1) eqn:Hin.
    + specialize (Hurl eq_refl). simpl in Hurl. specialize (Happ Hurl).
      destruct (test_next is_url_end (head rest) || bool_decide (rest = []))
        eqn:Hend; apply IH.
      * destruct (splitter_spaces_push (append_char char st1) Hch Happ)
          as (Hp & Hc & _).
        split; [exact Hp|]. split; [simpl; rewrite Hc; constructor|done].
      * split; [exact Hch|]. split; [exact Happ|].
        intros _. apply orb_false_iff in Hend as [Hend _].
        destruct rest as [|c' rest']; [done|]. simpl in *.
        by apply is_url_end_space.
    + assert (Hpush : forall c,
                splitter_spaces rest
                  (push_chunk [c] (pushCurrentChunk st1))).
      { intros c.
        destruct (splitter_spaces_push st1 Hch Hcur) as (Hp & Hc & Hi).
        split; [|split].
        - simpl. apply Forall_app. split; [done|].
          constructor; [apply space_alone_single|constructor].
        - simpl. rewrite Hc. constructor.
        - simpl. rewrite Hi, Hin. done. }
      destruct (is_cjk char); [by apply IH|].
      destruct (is_space char) eqn:Hsp; [by apply IH|].
      specialize (Happ eq_refl).
      destruct (test_next is_break (head rest)); apply IH.
      * destruct (splitter_spaces_push (append_char char st1) Hch Happ)
          as (Hp & Hc & Hi).
        split; [exact Hp|]. split; [rewrite Hc; constructor|].
        rewrite Hi. simpl. by rewrite Hin.
      * split; [exact Hch|]. split; [exact Happ|]. simpl. by rewrite Hin.
Qed.

(** X4. In the chunks of any text, a white-space character is always a
    chunk by itself: no word, punctuation or URL chunk contains white
    space. *)
Theorem X4_white_space_is_a_chunk_of_its_own
    (text chunk : jsstring) (c : N) :
  chunk ∈ splitTextIntoChunks text ->
  c ∈ chunk ->
  is_space c = true ->
  chunk = [c].
Proof.
  unfold splitTextIntoChunks. intros Hin Hc Hsp.
  apply list_elem_of_filter in Hin as [_ Hin].
  pose proof (split_loop_spaces text
                {| sp_chunks := []; currentChunk := []; inURL := false |})
    as H.
  rewrite Forall_forall in H. apply (H ltac:(by repeat split) chunk Hin c Hc Hsp).
Qed.

(** X4 at the text [a b]: the space between the two words. *)
Lemma X4_white_space_is_a_chunk_of_its_own_witness :
  js " " ∈ splitTextIntoChunks (js "a b")
  /\ 32%N ∈ js " "
  /\ is_space 32 = true
  /\ js " " = [32%N].
Proof.
  assert (H1 : js " " ∈ splitTextIntoChunks (js "a b"))
    by (vm_compute; apply list_elem_of_further, list_elem_of_here).
  assert (H2 : 32%N ∈ js " ") by (vm_compute; apply list_elem_of_here).
  assert (H3 : is_space 32 = true) by reflexivity.
  split; [exact H1|]. split; [exact H2|]. split; [exact H3|].
  exact (X4_white_space_is_a_chunk_of_its_own (js "a b") (js " ") 32
           H1 H2 H3).
Defined.

(* --------------------------------------------------------------------- *)
(*  streamTextNaturally: what is yielded                                  *)
(* --------------------------------------------------------------------- *)

Lemma indexOf_first {A} `{EqDecision A} (l : list A) :
  forall k x, l !! k = Some x ->
    exists j, indexOf x l = Some j /\ (j <= k)%nat /\ l !! j = Some x.
Proof.
  induction l as [|y l IH]; intros k x Hk; [done|].
  simpl. destruct (decide (y = x)) as [->|Hne].
  - exists 0%nat. split; [done|]. split; [lia|done].
  - destruct k as [|k]; simpl in Hk; [congruence|].
    destruct (IH k x Hk) as (j & -> & Hle & Hj).
    exists (S j). split; [done|]. split; [lia|done].
Qed.

Lemma stream_loop_streaming chunks streaming :
  forall todo i,
    (forall j, (i <= j < i + length todo)%nat -> streaming j = true) ->
    stream_loop chunks streaming i todo = todo.
Proof.
  induction todo as [|chunk todo IH]; intros i Hon; [done|].
  simpl in *. rewrite (Hon i) by lia. simpl. f_equal.
  apply IH. intros j Hj. apply Hon. lia.
Qed.

Lemma stream_loop_first_off chunks streaming k chunk :
  chunks !! k = Some chunk ->
  streaming k = false ->
  forall todo i,
    drop i chunks = todo ->
    (i <= k)%nat ->
    (forall j, (i <= j < k)%nat -> streaming j = true) ->
    stream_loop chunks streaming i todo
    = take (k - i) todo
      ++ [join_empty (slice_from (indexOf chunk chunks) chunks)].
Proof.
  intros Hk Hoff. induction todo as [|c todo IH]; intros i Hdrop Hle Hon.
  - apply lookup_lt_Some in Hk.
    apply (f_equal length) in Hdrop. rewrite length_drop in Hdrop.
    simpl in Hdrop. lia.
  - assert (Hi : chunks !! i = Some c).
    { rewrite <- (Nat.add_0_r i), <- lookup_drop, Hdrop. done. }
    simpl. destruct (decide (i = k)) as [->|Hne].
    + rewrite Hoff. simpl. rewrite Nat.sub_diag. simpl.
      by replace c with chunk by congruence.
    + rewrite (Hon i) by lia. simpl.
      replace (k - i)%nat with (S (k - S i)) by lia. simpl. f_equal.
      apply IH; [|lia|intros j Hj; apply Hon; lia].
      rewrite (drop_S _ _ _ Hi) in Hdrop. congruence.
Qed.

Lemma splitTextIntoChunks_nonempty text chunk :
  chunk ∈ splitTextIntoChunks text -> chunk <> [].
Proof.
  unfold splitTextIntoChunks. intros H.
  by apply list_elem_of_filter in H as [H _].
Qed.

(** X5. When the flag is first found off at iteration [k], the generator
    has yielded the first [k] chunks one by one and then yields once more:
    the chunks from the first occurrence [j] of chunk [k] to the end,
    joined. What the client receives is the text exactly when chunk [k]
    did not occur earlier in the text; otherwise the part from the earlier
    occurrence is sent a second time. *)
Theorem X5_interrupted_stream_flushes_from_first_occurrence
    (text : jsstring) (streaming : nat -> bool) (k : nat)
    (chunk : jsstring) :
  splitTextIntoChunks text !! k = Some chunk ->
  streaming k = false ->
  (forall i, (i < k)%nat -> streaming i = true) ->
  exists j,
    indexOf chunk (splitTextIntoChunks text) = Some j
    /\ (j <= k)%nat
    /\ streamTextNaturally text streaming
       = take k (splitTextIntoChunks text)
         ++ [concat (drop j (splitTextIntoChunks text))]
    /\ (concat (streamTextNaturally text streaming) = text <-> j = k).
Proof.
  intros Hk Hoff Hon. unfold streamTextNaturally.
  set (chunks := splitTextIntoChunks text) in *.
  destruct (indexOf_first chunks k chunk Hk) as (j & Hj & Hle & Hlj).
  exists j. split; [done|]. split; [done|].
  assert (Hrun : stream_loop chunks streaming 0 chunks
                 = take k chunks ++ [concat (drop j chunks)]).
  { rewrite (stream_loop_first_off chunks streaming k chunk Hk Hoff
               chunks 0%nat eq_refl ltac:(lia)).
    - by rewrite Nat.sub_0_r, Hj.
    - intros i Hi. apply Hon. lia. }
  split; [done|]. rewrite Hrun, concat_app. simpl. rewrite app_nil_r.
  assert (Ht : concat (take k chunks) ++ concat (drop k chunks) = text)
    by (rewrite <- concat_app, take_drop; apply splitTextIntoChunks_concat).
  split; [|by intros ->].
  intros Heq. rewrite <- Ht in Heq. apply app_inv_head in Heq.
  destruct (decide (j = k)) as [|Hne]; [done|exfalso].
  assert (Hsplit : drop j chunks
                   = chunk :: take (k - S j) (drop (S j) chunks)
                     ++ drop k chunks).
  { rewrite (drop_S _ _ _ Hlj). f_equal.
    rewrite <- (take_drop (k - S j) (drop (S j) chunks)) at 1.
    f_equal. rewrite drop_drop. f_equal. lia. }
  rewrite Hsplit in Heq. simpl in Heq. rewrite concat_app in Heq.
  apply (f_equal length) in Heq. rewrite !length_app in Heq.
  assert (chunk <> [])
    by (eapply splitTextIntoChunks_nonempty, list_elem_of_lookup_2, Hk).
  destruct chunk; [done|]. simpl in Heq. lia.
Qed.

(** X5 at the text [a b c], interrupted at its third chunk, the word [b]:
    the chunks, the flag at iteration 2, and the streaming before it. *)
Lemma X5_interrupted_stream_flushes_from_first_occurrence_witness :
  exists j,
    indexOf (js "b") (splitTextIntoChunks (js "a b c")) = Some j
    /\ (j <= 2)%nat
    /\ streamTextNaturally (js "a b c") (off_after 2)
       = take 2 (splitTextIntoChunks (js "a b c"))
         ++ [concat (drop j (splitTextIntoChunks (js "a b c")))]
    /\ (concat (streamTextNaturally (js "a b c") (off_after 2)) = js "a b c"
        <-> j = 2%nat).
Proof.
  apply (X5_interrupted_stream_flushes_from_first_occurrence
           (js "a b c") (off_after 2) 2 (js "b")).
  - vm_compute. reflexivity.
  - vm_compute. reflexivity.
  - intros i Hi. unfold off_after. apply bool_decide_eq_true_2. exact Hi.
Defined.

(** X6. While the flag stays on, the generator yields the chunks of the
    text, one by one and in order, so the client receives the text. *)
Theorem X6_uninterrupted_stream_yields_the_chunks
    (text : jsstring) (streaming : nat -> bool) :
  (forall i, (i < length (splitTextIntoChunks text))%nat ->
             streaming i = true) ->
  streamTextNaturally text streaming = splitTextIntoChunks text
  /\ concat (streamTextNaturally text streaming) = text.
Proof.
  intros Hon.
  assert (H : streamTextNaturally text streaming = splitTextIntoChunks text).
  { unfold streamTextNaturally. apply stream_loop_streaming.
    intros j Hj. apply Hon. lia. }
  split; [done|]. rewrite H. apply splitTextIntoChunks_concat.
Qed.

(** X6 at the text [a a] with the flag always on. *)
Lemma X6_uninterrupted_stream_yields_the_chunks_witness :
  streamTextNaturally (js "a a") (fun _ => true)
  = splitTextIntoChunks (js "a a")
  /\ concat (streamTextNaturally (js "a a") (fun _ => true)) = js "a a".
Proof.
  apply (X6_uninterrupted_stream_yields_the_chunks (js "a a") (fun _ => true)).
  intros i _. reflexivity.
Defined.

(* --------------------------------------------------------------------- *)
(*  The attempts of an evaluation                                         *)
(* --------------------------------------------------------------------- *)

Lemma attempts_left_cons e checks :
  attempts_left (e :: checks) = numEvalsRequired e + attempts_left checks.
Proof. reflexivity. Qed.

(** X7. A failed evaluation charges one attempt to each criterion of the
    failed type and drops the criteria left without attempts: the
    criteria that stay all have attempts left and, when the criteria had,
    the attempts left go down by the number of criteria of the failed
    type. A failure of a type that is not among the criteria, or of no type,
    charges nothing. *)
Theorem X7_failed_evaluation_charges_its_criterion
    (failed : option EvaluationType) (checks : list RepeatEvaluationType) :
  Forall (fun e => 0 < numEvalsRequired e) checks ->
  Forall (fun e => 0 < numEvalsRequired e) (consume_attempt failed checks)
  /\ attempts_left (consume_attempt failed checks)
     = attempts_left checks
       - Z.of_nat
           (length
              (List.filter
                 (fun e => bool_decide (Some (ev_type e) = failed)) checks))
  /\ (Forall (fun e => Some (ev_type e) <> failed) checks ->
      consume_attempt failed checks = checks).
Proof.
  intros Hpos. unfold consume_attempt.
  induction Hpos as [|e checks He Hpos (IH1 & IH2 & IH3)]; [done|].
  cbn [map List.filter] in *.
  match type of IH2 with attempts_left ?l = _ => set (rest := l) in * end.
  rewrite (attempts_left_cons e checks).
  destruct (bool_decide (Some (ev_type e) = failed)) eqn:Hf;
    cbn [numEvalsRequired length].
  - assert (Hno : Forall (fun e0 => Some (ev_type e0) <> failed) (e :: checks)
                  -> False).
    { intros H. apply Forall_cons in H as [H _].
      by apply bool_decide_eq_true in Hf. }
    destruct (Z.ltb_spec 0 (numEvalsRequired e - 1)) as [Hlt|Hge].
    + split; [by constructor|]. split; [|by intros H; destruct Hno].
      rewrite attempts_left_cons. cbn [numEvalsRequired]. rewrite IH2. lia.
    + split; [done|]. split; [|by intros H; destruct Hno].
      rewrite IH2. lia.
  - destruct (Z.ltb_spec 0 (numEvalsRequired e)) as [Hlt|Hge]; [|lia].
    split; [by constructor|]. split.
    + rewrite attempts_left_cons, IH2. lia.
    + intros H. apply Forall_cons in H as [_ H]. f_equal. by apply IH3.
Qed.

(** X7 on a definitive criterion with two attempts and a strict one with
    its last attempt, when the strict evaluation fails. *)
Lemma X7_failed_evaluation_charges_its_criterion_witness :
  let checks :=
    [{| ev_type := definitive; numEvalsRequired := 2 |};
     {| ev_type := strict; numEvalsRequired := 1 |}] in
  Forall (fun e => 0 < numEvalsRequired e)
    (consume_attempt (Some strict) checks)
  /\ attempts_left (consume_attempt (Some strict) checks)
     = attempts_left checks
       - Z.of_nat
           (length
              (List.filter
                 (fun e => bool_decide (Some (ev_type e) = Some strict))
                 checks))
  /\ (Forall (fun e => Some (ev_type e) <> Some strict) checks ->
      consume_attempt (Some strict) checks = checks).
Proof.
  apply (X7_failed_evaluation_charges_its_criterion (Some strict)).
  repeat constructor.
Defined.

(* --------------------------------------------------------------------- *)
(*  updateReferences                                                      *)
(* --------------------------------------------------------------------- *)

Lemma normalized_Some E u n :
  normalized E u = Some n -> n <> [] /\ normalizeUrl E u = Some n.
Proof.
  unfold normalized. destruct (normalizeUrl E u) as [[|c m]|]; [done| |done].
  by intros [= <-].
Qed.

Lemma fillDates_loop E refs :
  forall done s refs' s',
    for_of refs done
      (fun ref done =>
         if nonempty (dateTime ref) then ret (done ++ [ref])
         else
           emit (EvGetLastModified (ref_url ref)) ;;;
           d <- await "getLastModified" (getLastModified E (ref_url ref)) ;;
           ret (done ++ [set_dateTime (default [] d) ref])) s
    = Ok refs' s' ->
    exists filled,
      refs' = done ++ filled
      /\ Forall2
           (fun ref r =>
              ref_url r = ref_url ref
              /\ exactQuote r = exactQuote ref
              /\ ref_title r = ref_title ref
              /\ (dateTime ref <> [] -> dateTime r = dateTime ref))
           refs filled.
Proof.
  induction refs as [|ref refs IH]; intros done s refs' s' Hrun.
  - injection Hrun as <- <-. exists []. by rewrite app_nil_r.
  - cbn [for_of] in Hrun. unfold bind at 1 in Hrun.
    destruct (nonempty (dateTime ref)) eqn:Hd.
    + cbn [ret] in Hrun. apply IH in Hrun as (filled & -> & Hall).
      exists (ref :: filled). rewrite <- app_assoc. split; [done|].
      by constructor.
    + match type of Hrun with
      | match ?m s with _ => _ end = _ =>
          destruct (m s) as [r1 s1|e s1] eqn:Hm; [|done]
      end.
      unfold bind at 1 in Hm. cbn [emit modify] in Hm.
      unfold bind at 1 in Hm.
      destruct (await _ _ _) as [d s2|e s2]; [|done].
      injection Hm as <- <-.
      apply IH in Hrun as (filled & -> & Hall).
      exists (set_dateTime (default [] d) ref :: filled).
      rewrite <- app_assoc. split; [done|].
      constructor; [|done]. repeat split.
      intros Hne. by destruct (dateTime ref).
Qed.

(** What [updateReferences] guarantees of a reference [r] it returns for
    the references [refs] of the LLM. *)
Lemma normalizeReferences_spec E m refs :
  (length (normalizeReferences E m refs) <= length refs)%nat
  /\ Forall
       (fun r =>
          ref_url r <> []
          /\ exists ref,
               ref ∈ refs
               /\ ref_url ref <> []
               /\ normalizeUrl E (ref_url ref) = Some (ref_url r)
               /\ (dateTime ref <> [] -> dateTime r = dateTime ref))
       (normalizeReferences E m refs).
Proof.
  induction refs as [|ref refs [IHl IHf]]; [by split|].
  cbn [normalizeReferences omap list_omap].
  fold (normalizeReferences E m refs).
  assert (Hweak :
    Forall
      (fun r =>
         ref_url r <> []
         /\ exists ref0,
              ref0 ∈ ref :: refs
              /\ ref_url ref0 <> []
              /\ normalizeUrl E (ref_url ref0) = Some (ref_url r)
              /\ (dateTime ref0 <> [] -> dateTime r = dateTime ref0))
      (normalizeReferences E m refs)).
  { eapply Forall_impl; [exact IHf|].
    intros r (Hr & ref0 & Hin & Hrest). split; [done|].
    exists ref0. split; [by apply list_elem_of_further|done]. }
  destruct (nonempty (ref_url ref)) eqn:Hu; [|split; [simpl; lia|done]].
  destruct (normalized E (ref_url ref)) as [n|] eqn:Hn;
    [|split; [simpl; lia|done]].
  apply normalized_Some in Hn as [Hne Hn].
  split; [simpl; lia|]. constructor; [|done].
  cbn [ref_url dateTime]. split; [done|].
  exists ref. split; [apply list_elem_of_here|].
  split; [by destruct (ref_url ref)|]. split; [done|].
  intros Hd. unfold or_else. by destruct (dateTime ref).
Qed.

(** X8. The references of an answer, once updated: each comes from a
    reference of the LLM whose URL is not empty and normalizes, in the
    order given; its URL is the normalized one, which is not empty; and
    a date given by the LLM is kept. References without a URL, or whose
    URL does not normalize, are dropped. *)
Theorem X8_updated_references_have_normal_urls
    (E : Env) (refs refs' : list Reference) (s s' : State) :
  updateReferences E refs s = Ok refs' s' ->
  (length refs' <= length refs)%nat
  /\ Forall
       (fun r =>
          ref_url r <> []
          /\ exists ref,
               ref ∈ refs
               /\ ref_url ref <> []
               /\ normalizeUrl E (ref_url ref) = Some (ref_url r)
               /\ (dateTime ref <> [] -> dateTime r = dateTime ref))
       refs'.
Proof.
  unfold updateReferences, bind at 1, get, fillDates. intros Hrun.
  apply fillDates_loop in Hrun as (filled & -> & Hall). simpl.
  destruct (normalizeReferences_spec E (allURLs s) refs) as [Hlen Hspec].
  split; [by rewrite <- (Forall2_length _ _ _ Hall)|].
  eapply Forall2_Forall_r; [exact Hall|].
  eapply Forall_impl; [exact Hspec|].
  intros r (Hr & ref & Hin & Hu & Hn & Hd) r' (Hu' & _ & _ & Hd').
  rewrite Hu'. split; [done|]. exists ref. do 3 (split; [done|]).
  intros Hne. specialize (Hd Hne). rewrite Hd', Hd; [done|].
  by rewrite Hd.
Qed.

(** X8 on three references to the page [https://a]: one without a date,
    one without a URL, one dated by the LLM. *)
Lemma X8_updated_references_have_normal_urls_witness :
  exists refs' s',
    updateReferences (exampleEnv llm_cites) cited
      (hiState (exampleEnv llm_cites)) = Ok refs' s'
    /\ (length refs' <= length cited)%nat
    /\ Forall
         (fun r =>
            ref_url r <> []
            /\ exists ref,
                 ref ∈ cited
                 /\ ref_url ref <> []
                 /\ normalizeUrl (exampleEnv llm_cites) (ref_url ref)
                    = Some (ref_url r)
                 /\ (dateTime ref <> [] -> dateTime r = dateTime ref))
         refs'.
Proof.
  eexists _, _.
  assert (H : forall x y,
            updateReferences (exampleEnv llm_cites) cited
              (hiState (exampleEnv llm_cites)) = Ok x y ->
            updateReferences (exampleEnv llm_cites) cited
              (hiState (exampleEnv llm_cites)) = Ok x y
            /\ (length x <= length cited)%nat
            /\ Forall
                 (fun r =>
                    ref_url r <> []
                    /\ exists ref,
                         ref ∈ cited
                         /\ ref_url ref <> []
                         /\ normalizeUrl (exampleEnv llm_cites) (ref_url ref)
                            = Some (ref_url r)
                         /\ (dateTime ref <> [] ->
                             dateTime r = dateTime ref)) x).
  { intros x y Hxy. split; [exact Hxy|].
    exact (X8_updated_references_have_normal_urls _ _ _ _ _ Hxy). }
  apply H. vm_compute. reflexivity.
Defined.

(* --------------------------------------------------------------------- *)
(*  Invariants of the events of a whole run                               *)
(* --------------------------------------------------------------------- *)

Lemma main_loop_on_events E C (J : list Event -> Prop) fuel :
  preserves (on_events J) (loop_body E C) ->
  forall s, J (events s) -> J (events (loop_state (main_loop E C fuel s))).
Proof.
  intros Hbody. induction fuel as [|fuel IH]; intros s Hs; simpl; [done|].
  destruct (within_budget C s); [|done].
  specialize (Hbody s Hs).
  destruct (loop_body E C s) as [[|] s'|e s']; simpl; by auto.
Qed.

(** An invariant of the events that holds of no event at all and that
    every iteration preserves holds when [getResponse] ends, however it
    ends. *)
Lemma getResponse_on_events E fuel a (J : list Event -> Prop) :
  J [] ->
  (forall C, preserves (on_events J) (loop_body E C)) ->
  J (final_events (getResponse E fuel a)).
Proof.
  intros Hnil Hbody. unfold getResponse.
  destruct (extract_question a) as [e|[question messages]]; [done|].
  pose proof (preserves_await J "setLanguage" (setLanguage E question)
                (initial_state E a question messages)) as H0.
  destruct (await _ _ _) as [[] s0|e s0]; [|by apply H0].
  specialize (H0 Hnil).
  pose proof (main_loop_on_events E (config_of a question messages) J fuel
                (Hbody _) s0 H0) as Hloop.
  destruct (main_loop _ _ _ _) as [s1|e s1|s1]; simpl in Hloop; try done.
  pose proof (finish_preserves E (config_of a question messages) J s1 Hloop)
    as Hfin.
  by destruct (finish _ _ _).
Qed.

(* --------------------------------------------------------------------- *)
(*  The batches of URLs that are read                                     *)
(* --------------------------------------------------------------------- *)

Lemma new_Set_spec l :
  forall seen,
    NoDup (new_Set seen l)
    /\ forall x, x ∈ new_Set seen l -> (x ∉ seen) /\ x ∈ l.
Proof.
  induction l as [|y l IH]; intros seen; simpl.
  - split; [constructor|]. intros x Hx. by apply elem_of_nil in Hx.
  - unfold includes. destruct (decide (y ∈ seen)) as [Hin|Hnin].
    + rewrite (bool_decide_eq_true_2 _ Hin).
      destruct (IH seen) as [Hnd Hsub]. split; [done|].
      intros x Hx. destruct (Hsub x Hx). split; [done|].
      by apply list_elem_of_further.
    + rewrite (bool_decide_eq_false_2 _ Hnin).
      destruct (IH (y :: seen)) as [Hnd Hsub]. split.
      * constructor; [|done]. intros Hy. destruct (Hsub y Hy) as [Hy' _].
        apply Hy'. apply list_elem_of_here.
      * intros x Hx. apply elem_of_cons in Hx as [->|Hx].
        -- split; [done|apply list_elem_of_here].
        -- destruct (Hsub x Hx) as [Hx1 Hx2]. split.
           ++ intros Hs. apply Hx1. by apply list_elem_of_further.
           ++ by apply list_elem_of_further.
Qed.

Lemma keeps_batches ev :
  batch_without_repeats ev -> keeps (Forall batch_without_repeats) ev.
Proof.
  intros Hev evs Hevs. apply Forall_app. split; [done|].
  by constructor.
Qed.

Lemma keeps_batches_others ev :
  is_batch_event ev = false -> keeps (Forall batch_without_repeats) ev.
Proof. intros Hev. apply keeps_batches. by destruct ev. Qed.

Lemma run_processURLs_batches E urls :
  NoDup urls ->
  preserves (on_events (Forall batch_without_repeats))
    (run_processURLs E urls).
Proof.
  intros Hnd. unfold run_processURLs.
  repeat first
    [ preserves_step
    | apply preserves_emit; by apply keeps_batches ].
Qed.

Lemma dispatch_batches E C currentQuestion urlList :
  preserves (on_events (Forall batch_without_repeats))
    (dispatch E C currentQuestion urlList).
Proof.
  pose proof keeps_batches_others as H.
  unfold dispatch. apply preserves_bind; [apply preserves_get|]. intros s.
  destruct (thisStep s) as [t r|t a refs f|t qs|t [idx|urls]|t c].
  - unfold dispatch_search, search_first_pass, search_second_pass,
      executeSearchQueries, search_one, push_diary, push_knowledge,
      updateContext.
    emits H.
  - destruct (nonempty a); [|apply preserves_ret].
    unfold dispatch_answer, updateReferences, fillDates, metrics_of,
      push_diary, push_knowledge, updateContext.
    emits H. apply run_processURLs_batches, new_Set_spec.
  - unfold dispatch_reflect, push_diary, updateContext. emits H.
  - destruct (_ && _); [|apply preserves_ret].
    unfold dispatch_visit, push_diary, updateContext.
    emits H. apply run_processURLs_batches.
    eapply sublist_NoDup; [apply new_Set_spec|apply sublist_take].
  - apply preserves_ret.
  - destruct (nonempty c); [|apply preserves_ret].
    unfold dispatch_coding, push_diary, push_knowledge, updateContext.
    emits H.
Qed.

(** X9. In every run of [getResponse], whatever the LLM and the other
    collaborators answer, no batch of URLs handed to [processURLs] holds a
    URL twice: a page cited by several references of an answer, or chosen
    by the LLM and ranked as well, is read once. *)
Theorem X9_pages_of_a_batch_are_read_once
    (E : Env) (fuel : nat) (a : Args) (urls : list jsstring) :
  EvProcessURLs urls ∈ final_events (getResponse E fuel a) ->
  NoDup urls.
Proof.
  intros Hin.
  assert (Hall : Forall batch_without_repeats
                   (final_events (getResponse E fuel a))).
  { apply getResponse_on_events; [constructor|]. intros C.
    unfold loop_body. apply preserves_bind.
    - apply choose_action_preserves. intros ev Hev.
      apply keeps_batches_others. by destruct ev.
    - intros chosen. apply dispatch_batches. }
  rewrite Forall_forall in Hall. exact (Hall _ Hin).
Qed.

(** X9 at a greeting answered with two references to the page
    [https://a]: the page is read once. *)
Lemma X9_pages_of_a_batch_are_read_once_witness :
  EvProcessURLs [js "https://a"]
    ∈ final_events (getResponse (exampleEnv llm_cites) 3 hiArgs)
  /\ NoDup [js "https://a"].
Proof.
  assert (H : EvProcessURLs [js "https://a"]
              ∈ final_events (getResponse (exampleEnv llm_cites) 3 hiArgs)).
  { vm_compute. do 5 apply list_elem_of_further. apply list_elem_of_here. }
  split; [exact H|].
  exact (X9_pages_of_a_batch_are_read_once (exampleEnv llm_cites) 3 hiArgs
           [js "https://a"] H).
Defined.

(* --------------------------------------------------------------------- *)
(*  The loop ends                                                         *)
(* --------------------------------------------------------------------- *)

Lemma track_usages us :
  forall tr,
    usages (fold_left (fun t u => trackUsage (tool u) (usage u) t) us tr)
    = usages tr ++ us.
Proof.
  induction us as [|u us IH]; intros tr; simpl.
  - by rewrite app_nil_r.
  - rewrite IH. simpl. destruct u. by rewrite <- app_assoc.
Qed.

Lemma tokens_track us s :
  tokens_used
    (set_tokenTracker
       (fold_left (fun t u => trackUsage (tool u) (usage u) t) us
          (tokenTracker s)) s)
  = tokens_used s + sum_field totalTokens us.
Proof.
  unfold tokens_used. cbn [tokenTracker set_tokenTracker].
  unfold getTotalUsage. rewrite !camel_fold, track_usages.
  cbn [totalTokens]. rewrite sum_field_app. lia.
Qed.

Lemma charges_elim {A} n (r : ext A) a us :
  r = Some (a, us) -> charges n r -> n <= sum_field totalTokens us.
Proof. intros Hr H. exact (H a us Hr). Qed.

Lemma preserves_track_charges t us :
  0 <= sum_field totalTokens us -> preserves (at_least t) (track us).
Proof.
  intros Hus. apply preserves_modify. intros s Hs.
  unfold at_least in *. rewrite tokens_track. lia.
Qed.

Lemma preserves_await_charges t {A} callee (r : ext A) :
  charges 0 r -> preserves (at_least t) (await callee r).
Proof.
  intros Hr. destruct r as [[a us]|]; simpl.
  - apply preserves_bind; [|intros; apply preserves_ret].
    apply preserves_track_charges. by apply (Hr a us).
  - apply preserves_throw.
Qed.

(** Run [preserves_step] to the leaves for the invariant that [t] tokens
    or more are used: an awaited call keeps it by [auto] from the
    hypotheses on the collaborators. *)
Ltac meters :=
  repeat first
    [ match goal with
      | |- preserves _ (emit _) =>
          apply preserves_emit_frame; intros ? ? ?; assumption
      | |- preserves _ (await _ _) =>
          apply preserves_await_charges; solve [auto]
      | |- preserves _ (match searchProvider ?E ?q with _ => _ end) =>
          destruct (searchProvider E q) as [?|] eqn:?
      | |- preserves _ (match solve ?E ?n ?c with _ => _ end) =>
          destruct (solve E n c) as [?|] eqn:?
      | H : _ = Some (_, ?us) |- preserves _ (track ?us) =>
          apply preserves_track_charges;
          apply (charges_elim _ _ _ _ H); solve [auto]
      end
    | preserves_step ].

Section Metered.

Variable E : Env.
Variable C : Config.
Hypothesis HE : metered E.

Lemma dispatch_tokens t currentQuestion urlList :
  preserves (at_least t) (dispatch E C currentQuestion urlList).
Proof.
  destruct HE.
  unfold dispatch. apply preserves_bind; [apply preserves_get|]. intros s.
  destruct (thisStep s) as [th r|th a refs f|th qs|th [idx|urls]|th c].
  - unfold dispatch_search, search_first_pass, search_second_pass,
      executeSearchQueries, search_one, push_diary, push_knowledge,
      updateContext.
    meters.
  - destruct (nonempty a); [|apply preserves_ret].
    unfold dispatch_answer, updateReferences, fillDates, run_processURLs,
      metrics_of, push_diary, push_knowledge, updateContext.
    meters.
  - unfold dispatch_reflect, push_diary, updateContext. meters.
  - destruct (_ && _); [|apply preserves_ret].
    unfold dispatch_visit, run_processURLs, push_diary, updateContext.
    meters.
  - apply preserves_ret.
  - destruct (nonempty c); [|apply preserves_ret].
    unfold dispatch_coding, push_diary, push_knowledge, updateContext.
    meters.
Qed.

(** The LLM is asked once in each iteration, so an iteration that goes on
    has used one token more, at least. *)
Lemma loop_body_tokens t :
  hoare (at_least t) (loop_body E C) (fun _ => at_least (t + 1))
    (fun _ => True).
Proof.
  pose proof (metered_generateObject E HE) as Hllm. destruct HE.
  assert (Hpre : forall u {A} (m : M A),
            preserves (at_least u) m ->
            hoare (at_least u) m (fun _ => at_least u) (fun _ => True)).
  { intros u A m Hm. eapply hoare_post; [by apply hoare_preserves|done..]. }
  unfold loop_body.
  apply hoare_bind with (R := fun _ => at_least (t + 1));
    [|intros chosen; apply Hpre, dispatch_tokens].
  unfold choose_action.
  apply hoare_bind with (R := fun _ => at_least t);
    [apply Hpre; unfold begin_step; meters|intros _].
  apply hoare_bind with (R := fun _ => at_least t);
    [apply Hpre; unfold pick_question; meters|intros currentQuestion].
  do 4 (apply hoare_bind with (R := fun _ => at_least t);
        [ apply Hpre;
          unfold seed_criteria, freshness_lockout, metrics_of, rank_urls,
            gate_actions; meters
        | intros _ ]).
  apply hoare_bind with (R := fun _ => at_least (t + 1));
    [|intros urlList s Hs; exact Hs].
  unfold ask_llm.
  apply hoare_bind with (R := fun _ => at_least t);
    [apply Hpre, preserves_get|intros s0; cbv zeta].
  apply hoare_bind with (R := fun _ => at_least t);
    [apply Hpre; meters|intros _].
  apply hoare_bind with (R := fun _ => at_least (t + 1)).
  { intros s Hs. unfold await.
    destruct (generateObject E _ _) as [[o us]|] eqn:Hgen; [|done].
    simpl. unfold at_least in *. rewrite tokens_track.
    pose proof (Hllm _ _ _ _ Hgen). lia. }
  intros object. apply Hpre. meters.
Qed.

Lemma main_loop_ends fuel :
  forall s,
    85 * c_tokenBudget C - 100 * tokens_used s <= 100 * Z.of_nat fuel ->
    forall s', main_loop E C (S fuel) s <> Running s'.
Proof.
  induction fuel as [|fuel IH]; intros s Hs s'; cbn [main_loop].
  - destruct (within_budget C s) eqn:Hguard; [|done].
    apply within_budget_bound in Hguard. unfold tokens_used in Hs. lia.
  - destruct (within_budget C s) eqn:Hguard; [|done].
    pose proof (loop_body_tokens (tokens_used s) s (Z.le_refl _)) as Hbody.
    destruct (loop_body E C s) as [[|] s1|e s1]; [|done..].
    apply IH. unfold at_least in Hbody. lia.
Qed.

End Metered.

(** X10. [getResponse] ends. When no collaborator records a negative
    usage and each action chosen by the LLM is recorded with one token or
    more, the main loop is left, by an answer, by the budget or by an
    exception, within [(85 * budget - 100 * used) / 100 + 1] iterations,
    where [used] is what the tracker handed in had recorded: a fresh
    tracker gives fewer iterations than tokens in the budget. *)
Theorem X10_getResponse_ends_within_the_budget
    (E : Env) (fuel : nat) (a : Args) :
  metered E ->
  85 * a_tokenBudget a
  - 100 * totalTokens
            (getTotalUsage
               (default (newTokenTracker (Some (a_tokenBudget a)))
                  (a_tokenTracker a)))
  <= 100 * Z.of_nat fuel ->
  forall s, getResponse E (S fuel) a <> Unfinished s.
Proof.
  intros HE Hfuel s. unfold getResponse.
  destruct (extract_question a) as [e|[question messages]]; [done|].
  pose proof (preserves_await_charges
                (tokens_used (initial_state E a question messages))
                "setLanguage" (setLanguage E question)
                (metered_setLanguage E HE question)
                (initial_state E a question messages) (Z.le_refl _)) as H0.
  destruct (await _ _ _) as [[] s0|e s0]; [|done].
  pose proof (main_loop_ends E (config_of a question messages) HE fuel s0)
    as Hloop.
  destruct (main_loop _ _ _ _) as [s1|e s1|s1] eqn:Hm.
  - by destruct (finish _ _ _).
  - done.
  - exfalso. apply (Hloop ltac:(unfold at_least in H0;
                                 unfold tokens_used in H0 at 1;
                                 simpl in *; lia) s1 eq_refl).
Qed.

Lemma exampleEnv_metered llm :
  (forall n req, charges 1 (llm n req)) -> metered (exampleEnv llm).
Proof.
  intros Hllm.
  split; simpl; try exact Hllm; intros; intros x us [= <- <-]; done.
Qed.

(** X10 at the request of 200 tokens that an LLM without an answer text
    does not satisfy: 170 iterations would be enough, and two are run. *)
Lemma X10_getResponse_ends_within_the_budget_witness :
  metered (exampleEnv llm_silent)
  /\ 85 * 200 - 100 * 0 <= 100 * Z.of_nat 170
  /\ forall s,
       getResponse (exampleEnv llm_silent) 171 (args_of says_hi 200 false)
       <> Unfinished s.
Proof.
  assert (H1 : metered (exampleEnv llm_silent)).
  { apply exampleEnv_metered. intros n req x us [= <- <-]. done. }
  assert (H2 : 85 * 200 - 100 * 0 <= 100 * Z.of_nat 170)
    by (vm_compute; discriminate).
  split; [exact H1|]. split; [exact H2|].
  exact (X10_getResponse_ends_within_the_budget (exampleEnv llm_silent) 170
           (args_of says_hi 200 false) H1 H2).
Defined.

(* --------------------------------------------------------------------- *)
(*  An action that was carried out is disabled                            *)
(* --------------------------------------------------------------------- *)

(** Run [preserves_step] to the leaves for the invariant that the step
    is of a given kind. *)
Ltac kinds :=
  repeat first
    [ match goal with
      | |- preserves _ (emit _) =>
          apply preserves_emit_frame; intros ? ? ?; assumption
      | |- preserves _ (await _ _) =>
          apply preserves_await_frame; intros ? ? ?; assumption
      | |- preserves _ (track _) =>
          apply preserves_track_frame; intros ? ? ?; assumption
      | |- preserves _ (modify _) =>
          apply preserves_modify; intros ? ?;
          first [ assumption | reflexivity ]
      end
    | preserves_step ].

Section Disabled.

Variable E : Env.
Variable C : Config.

Lemma hoare_kind {A} k (m : M A) :
  preserves (step_kind k) m ->
  hoare (step_kind k) m (fun _ => step_kind k) (fun _ => True).
Proof. intros Hm. eapply hoare_post; [by apply hoare_preserves|done..]. Qed.

Lemma dispatch_search_disables currentQuestion think searchRequests :
  hoare (step_kind act_search)
    (dispatch_search E C currentQuestion think searchRequests)
    (fun _ s => step_kind act_search s /\ allowSearch s = false)
    (fun _ => True).
Proof.
  unfold dispatch_search.
  apply hoare_bind with (R := fun _ => step_kind act_search).
  { apply hoare_kind.
    unfold search_first_pass, executeSearchQueries, search_one,
      push_knowledge.
    kinds. }
  intros newKnowledge.
  apply hoare_bind with (R := fun _ => step_kind act_search).
  { apply hoare_kind.
    unfold search_second_pass, executeSearchQueries, search_one,
      push_diary, push_knowledge, updateContext.
    kinds. }
  intros _ s Hs. by split.
Qed.

Lemma dispatch_reflect_disables currentQuestion think questionsToAnswer :
  hoare (step_kind act_reflect)
    (dispatch_reflect E currentQuestion think questionsToAnswer)
    (fun _ s => step_kind act_reflect s /\ allowReflect s = false)
    (fun _ => True).
Proof.
  unfold dispatch_reflect.
  do 5 (apply hoare_bind with (R := fun _ => step_kind act_reflect);
        [apply hoare_kind; unfold push_diary, updateContext; kinds
        |intros ?]).
  intros s Hs. by split.
Qed.

Lemma dispatch_visit_disables currentQuestion think URLTargets urlList :
  hoare (step_kind act_visit)
    (dispatch_visit E currentQuestion think URLTargets urlList)
    (fun _ s => step_kind act_visit s /\ allowRead s = false)
    (fun _ => True).
Proof.
  unfold dispatch_visit.
  do 3 (apply hoare_bind with (R := fun _ => step_kind act_visit);
        [apply hoare_kind;
         unfold run_processURLs, push_diary, updateContext; kinds
        |intros ?; cbv zeta]).
  intros s Hs. by split.
Qed.

Lemma dispatch_coding_disables think codingIssue :
  hoare (step_kind act_coding) (dispatch_coding E think codingIssue)
    (fun _ s => step_kind act_coding s /\ allowCoding s = false)
    (fun _ => True).
Proof.
  unfold dispatch_coding.
  do 3 (apply hoare_bind with (R := fun _ => step_kind act_coding);
        [apply hoare_kind;
         unfold push_diary, push_knowledge, updateContext; kinds
        |intros ?]).
  intros s Hs. by split.
Qed.

Lemma dispatch_answer_kind currentQuestion think answer references :
  preserves (step_kind act_answer)
    (dispatch_answer E C currentQuestion think answer references).
Proof.
  unfold dispatch_answer, updateReferences, fillDates, run_processURLs,
    metrics_of, push_diary, push_knowledge, updateContext.
  kinds.
Qed.

Lemma carried_out_kind s k :
  carried_out s = Some k -> kind_of (thisStep s) = k.
Proof.
  unfold carried_out.
  destruct (thisStep s) as [| | |? []|? c]; try done; try by intros [= <-].
  destruct (nonempty c); [by intros [= <-]|done].
Qed.

Lemma dispatch_disables currentQuestion urlList :
  hoare (fun s => exists o, thisStep s = toStep o)
    (dispatch E C currentQuestion urlList)
    (fun _ s => forall k, carried_out s = Some k -> allowed k s = false)
    (fun _ => True).
Proof.
  intros s [o Ho]. unfold dispatch, bind at 1, get. rewrite Ho.
  assert (Hpost : forall k0 s',
            (step_kind k0 s' /\ allowed k0 s' = false) ->
            forall k, carried_out s' = Some k -> allowed k s' = false).
  { intros k0 s' [Hk Hf] k Hc. apply carried_out_kind in Hc.
    unfold step_kind in Hk. congruence. }
  destruct o as [t r|t a refs|t qs|t idx|t c]; cbn [toStep].
  - pose proof (dispatch_search_disables currentQuestion t r s) as H.
    unfold step_kind in H at 1. rewrite Ho in H. specialize (H eq_refl).
    destruct (dispatch_search _ _ _ _ _ s); [|done].
    by apply (Hpost act_search).
  - assert (Hans : forall (m : M LoopCtl),
              preserves (step_kind act_answer) m ->
              match m s with
              | Ok _ s' =>
                  forall k, carried_out s' = Some k -> allowed k s' = false
              | Throw _ _ => True
              end).
    { intros m Hm. specialize (Hm s). unfold step_kind in Hm at 1.
      rewrite Ho in Hm. specialize (Hm eq_refl).
      destruct (m s) as [ctl s'|]; [|done].
      intros k Hc. exfalso. unfold step_kind in Hm.
      unfold carried_out in Hc. by destruct (thisStep s'). }
    destruct (nonempty a).
    + apply Hans, dispatch_answer_kind.
    + apply Hans, preserves_ret.
  - pose proof (dispatch_reflect_disables currentQuestion t qs s) as H.
    unfold step_kind in H at 1. rewrite Ho in H. specialize (H eq_refl).
    destruct (dispatch_reflect _ _ _ _ s); [|done].
    by apply (Hpost act_reflect).
  - destruct (_ && _).
    + pose proof (dispatch_visit_disables currentQuestion t idx urlList s)
        as H.
      unfold step_kind in H at 1. rewrite Ho in H. specialize (H eq_refl).
      destruct (dispatch_visit _ _ _ _ _ s); [|done].
      by apply (Hpost act_visit).
    + simpl. intros k. unfold carried_out. by rewrite Ho.
  - destruct (nonempty c) eqn:Hc.
    + pose proof (dispatch_coding_disables t c s) as H.
      unfold step_kind in H at 1. rewrite Ho in H. specialize (H eq_refl).
      destruct (dispatch_coding _ _ _ s); [|done].
      by apply (Hpost act_coding).
    + simpl. intros k. unfold carried_out. rewrite Ho. simpl.
      by rewrite Hc.
Qed.

Lemma choose_action_step :
  hoare (fun _ => True) (choose_action E C)
    (fun _ s => exists o, thisStep s = toStep o) (fun _ => True).
Proof.
  assert (Htriv : forall {A} (m : M A),
            hoare (fun _ => True) m (fun _ _ => True) (fun _ => True)).
  { intros A m s _. by destruct (m s). }
  unfold choose_action.
  do 6 (apply hoare_bind with (R := fun _ _ => True);
        [apply Htriv|intros ?]).
  apply hoare_bind with (R := fun _ s => exists o, thisStep s = toStep o);
    [|intros urlList s Hs; exact Hs].
  intros s _. unfold ask_llm, bind at 1, get. cbv zeta.
  unfold bind at 1, emit, modify. unfold bind at 1, await.
  destruct (generateObject E _ _) as [[o us]|]; [|done].
  simpl. by exists o.
Qed.

End Disabled.

(** X11. When an iteration has carried out a search, a reflection, a
    visit or a coding step, it leaves that action disabled: the flag of
    the action is off when the next iteration begins. *)
Theorem X11_action_carried_out_is_disabled
    (E : Env) (C : Config) (s s' : State) (ctl : LoopCtl)
    (k : ActionName) :
  loop_body E C s = Ok ctl s' ->
  carried_out s' = Some k ->
  allowed k s' = false.
Proof.
  intros Hrun Hk.
  assert (H : hoare (fun _ => True) (loop_body E C)
                (fun _ s => forall k, carried_out s = Some k ->
                                      allowed k s = false)
                (fun _ => True)).
  { unfold loop_body. eapply hoare_bind; [apply choose_action_step|].
    intros chosen. apply dispatch_disables. }
  specialize (H s I). rewrite Hrun in H. by apply H.
Qed.

(** X11 at a first iteration in which the LLM searches. *)
Lemma X11_action_carried_out_is_disabled_witness :
  exists s',
    loop_body (exampleEnv llm_searches) hiConfig
      (hiState (exampleEnv llm_searches)) = Ok Next s'
    /\ carried_out s' = Some act_search
    /\ allowed act_search s' = false.
Proof.
  eexists.
  assert (H : forall s',
            loop_body (exampleEnv llm_searches) hiConfig
              (hiState (exampleEnv llm_searches)) = Ok Next s' ->
            carried_out s' = Some act_search ->
            loop_body (exampleEnv llm_searches) hiConfig
              (hiState (exampleEnv llm_searches)) = Ok Next s'
            /\ carried_out s' = Some act_search
            /\ allowed act_search s' = false).
  { intros s' H1 H2. split; [exact H1|]. split; [exact H2|].
    exact (X11_action_carried_out_is_disabled _ _ _ _ _ _ H1 H2). }
  apply H; vm_compute; reflexivity.
Defined.

(* --------------------------------------------------------------------- *)
(*  A disabled action is not offered                                      *)
(* --------------------------------------------------------------------- *)

Lemma keeps_suffix (P : Event -> Prop) n ev :
  P ev -> keeps (fun evs => Forall P (drop n evs)) ev.
Proof.
  intros Hev evs Hevs. rewrite drop_app. apply Forall_app. split; [done|].
  apply Forall_drop. by constructor.
Qed.

Lemma kept_off_emit k n ev :
  not_offering k ev -> preserves (kept_off k n) (emit ev).
Proof.
  intros Hev. apply preserves_modify. intros s [Hf HJ]. split; [exact Hf|].
  by apply (keeps_suffix (not_offering k) n ev Hev (events s)).
Qed.

(** Run [preserves_step] to the leaves for the invariant that an action
    stays disabled: an assignment to its flag is a conjunction with the
    flag, or the constant false. *)
Ltac offs k :=
  repeat first
    [ match goal with
      | |- preserves _ (emit _) => apply kept_off_emit; exact I
      | |- preserves _ (await _ _) =>
          apply preserves_await_frame; intros ? ? ?; assumption
      | |- preserves _ (modify _) =>
          apply preserves_modify;
          let Hf := fresh "Hf" in
          let HJ := fresh "HJ" in
          intros ? [Hf HJ];
          repeat case_match;
          (split; [destruct k; simpl in *; rewrite ?Hf; done | exact HJ])
      end
    | preserves_step ].

Lemma not_offered_in_request E (s : State) k currentQuestion msgs :
  allowed k s = false ->
  offered k
    {| r_schema :=
         getAgentSchema (allowReflect s) (allowRead s) (allowAnswer s)
           (allowSearch s) (allowCoding s) (Some currentQuestion);
       r_system :=
         getPrompt E (diaryContext s) (allKeywords s) (allowReflect s)
           (allowAnswer s) (allowRead s) (allowSearch s) (allowCoding s)
           (weightedURLs s) false;
       r_messages := msgs |} = false.
Proof.
  unfold offered, getPrompt, getAgentSchema. cbn [r_schema r_system p_actions].
  intros Hf.
  destruct k; cbn [allowed in_schema s_answer s_reflect s_search s_read
                     s_coding] in *;
    rewrite Hf; cbn [orb andb app];
    repeat match goal with
           | |- context [if ?b then _ else _] => destruct b
           end; reflexivity.
Qed.

Lemma loop_body_kept_off E C k n :
  hoare (kept_off k n) (loop_body E C)
    (fun _ => on_events (fun evs => Forall (not_offering k) (drop n evs)))
    (on_events (fun evs => Forall (not_offering k) (drop n evs))).
Proof.
  set (J := fun evs => Forall (not_offering k) (drop n evs)).
  assert (Hweak : forall s, kept_off k n s -> on_events J s)
    by (by intros s [_ HJ]).
  unfold loop_body. apply hoare_bind with (R := fun _ => on_events J).
  - unfold choose_action.
    do 6 (apply hoare_bind_weak
            with (R := fun _ => kept_off k n) (X' := kept_off k n);
          [ apply hoare_preserves;
            unfold begin_step, pick_question, seed_criteria,
              freshness_lockout, metrics_of, rank_urls, gate_actions;
            offs k
          | exact Hweak
          | intros ? ]).
    apply hoare_bind with (R := fun _ => on_events J);
      [|intros urlList s Hs; exact Hs].
    intros s [Hf HJ]. unfold ask_llm, bind at 1, get. cbv zeta.
    unfold bind at 1, emit, modify. unfold bind at 1, await.
    pose proof (not_offered_in_request E s k) as Hreq.
    destruct (generateObject E _ _) as [[o us]|]; simpl.
    + unfold on_events. simpl.
      apply (keeps_suffix (not_offering k) n); [exact I|].
      apply (keeps_suffix (not_offering k) n); [by apply Hreq|done].
    + unfold on_events. simpl.
      apply (keeps_suffix (not_offering k) n); [by apply Hreq|done].
  - intros chosen. apply hoare_preserves. apply dispatch_preserves.
    intros ev Hev. apply keeps_suffix. by destruct ev.
Qed.

(** X12. An action that is disabled when an iteration begins is not
    offered to the LLM in that iteration: the request of the iteration
    has the action neither in the schema of the object to return nor in
    a section of the system prompt. *)
Theorem X12_disabled_action_is_not_offered
    (E : Env) (C : Config) (s : State) (k : ActionName) (req : Request) :
  allowed k s = false ->
  EvGenerateObject req
    ∈ drop (length (events s)) (events (res_state (loop_body E C s))) ->
  offered k req = false.
Proof.
  intros Hf Hin.
  pose proof (loop_body_kept_off E C k (length (events s)) s) as H.
  assert (H0 : kept_off k (length (events s)) s).
  { split; [exact Hf|]. rewrite drop_all. constructor. }
  specialize (H H0). unfold on_events in H.
  destruct (loop_body E C s) as [ctl s'|e s']; simpl in Hin;
    rewrite Forall_forall in H; exact (H _ Hin).
Qed.

(** X12 at the greeting request, begun with the search disabled. *)
Lemma X12_disabled_action_is_not_offered_witness :
  exists req,
    allowed act_search (set_allowSearch false (hiState (exampleEnv llm_greets)))
    = false
    /\ EvGenerateObject req
       ∈ drop
           (length
              (events
                 (set_allowSearch false (hiState (exampleEnv llm_greets)))))
           (events
              (res_state
                 (loop_body (exampleEnv llm_greets) hiConfig
                    (set_allowSearch false
                       (hiState (exampleEnv llm_greets))))))
    /\ offered act_search req = false.
Proof.
  eexists.
  assert (H : forall s req,
            allowed act_search s = false ->
            EvGenerateObject req
              ∈ drop (length (events s))
                  (events
                     (res_state
                        (loop_body (exampleEnv llm_greets) hiConfig s))) ->
            allowed act_search s = false
            /\ EvGenerateObject req
               ∈ drop (length (events s))
                   (events
                      (res_state
                         (loop_body (exampleEnv llm_greets) hiConfig s)))
            /\ offered act_search req = false).
  { intros s req H1 H2. split; [exact H1|]. split; [exact H2|].
    exact (X12_disabled_action_is_not_offered _ _ _ _ _ H1 H2). }
  apply H; [reflexivity|].
  vm_compute. do 2 apply list_elem_of_further. apply list_elem_of_here.
Defined.

(* --------------------------------------------------------------------- *)
(*  A question that is a string is never lost                             *)
(* --------------------------------------------------------------------- *)

Lemma finds_question_ret {A} (a : A) : finds_question (ret a).
Proof. by intros s. Qed.

Lemma finds_question_get : finds_question get.
Proof. by intros s. Qed.

Lemma finds_question_modify f : finds_question (modify f).
Proof. by intros s. Qed.

Lemma finds_question_throw {A} e :
  e <> no_question -> finds_question (@throw A e).
Proof. by intros He s. Qed.

Lemma finds_question_bind {A B} (m : M A) (k : A -> M B) :
  finds_question m -> (forall a, finds_question (k a)) ->
  finds_question (bind m k).
Proof.
  intros Hm Hk s. unfold bind. specialize (Hm s).
  destruct (m s) as [a s'|e s']; [apply Hk|done].
Qed.

Lemma finds_question_await {A} callee (r : ext A) :
  finds_question (await callee r).
Proof. intros s. by destruct r as [[a us]|]. Qed.

Lemma finds_question_for_of {A B} (l : list A) (f : A -> B -> M B) :
  (forall x acc, finds_question (f x acc)) ->
  forall acc, finds_question (for_of l acc f).
Proof.
  intros Hf. induction l as [|x l IH]; intros acc; simpl.
  - apply finds_question_ret.
  - apply finds_question_bind; [apply Hf|done].
Qed.

(** Walk a computation down to its leaves: the exceptions it can throw
    are written in it. *)
Ltac questions :=
  repeat
    match goal with
    | |- finds_question (bind _ _) => apply finds_question_bind; [|intros ?]
    | |- finds_question (ret _) => apply finds_question_ret
    | |- finds_question get => apply finds_question_get
    | |- finds_question (modify _) => apply finds_question_modify
    | |- finds_question (emit _) => apply finds_question_modify
    | |- finds_question (track _) => apply finds_question_modify
    | |- finds_question (throw _) => apply finds_question_throw; discriminate
    | |- finds_question (when ?b _) => destruct b; simpl when
    | |- finds_question (await _ _) => apply finds_question_await
    | |- finds_question (for_of _ _ _) =>
        apply finds_question_for_of; intros ? ?
    | |- finds_question (if ?b then _ else _) => destruct b
    | |- finds_question (match ?x with _ => _ end) => destruct x
    | |- finds_question (let (_, _) := ?x in _) => destruct x
    end.

Lemma dispatch_finds_question E C currentQuestion urlList :
  finds_question (dispatch E C currentQuestion urlList).
Proof.
  unfold dispatch. apply finds_question_bind; [apply finds_question_get|].
  intros s.
  destruct (thisStep s) as [t r|t a refs f|t qs|t [idx|urls]|t c].
  - unfold dispatch_search, search_first_pass, search_second_pass,
      executeSearchQueries, search_one, push_diary, push_knowledge,
      updateContext.
    questions.
  - destruct (nonempty a); [|apply finds_question_ret].
    unfold dispatch_answer, updateReferences, fillDates, run_processURLs,
      metrics_of, push_diary, push_knowledge, updateContext.
    questions.
  - unfold dispatch_reflect, push_diary, updateContext. questions.
  - destruct (_ && _); [|apply finds_question_ret].
    unfold dispatch_visit, run_processURLs, push_diary, updateContext.
    questions.
  - apply finds_question_ret.
  - destruct (nonempty c); [|apply finds_question_ret].
    unfold dispatch_coding, push_diary, push_knowledge, updateContext.
    questions.
Qed.

Lemma loop_body_split E C s :
  loop_body E C s
  = (currentQuestion <- (begin_step E ;;; pick_question) ;;
     chosen <-
       (seed_criteria E C currentQuestion ;;;
        freshness_lockout currentQuestion ;;;
        rank_urls E C currentQuestion ;;;
        gate_actions ;;;
        urlList <- ask_llm E C currentQuestion ;;
        ret (currentQuestion, urlList)) ;;
     dispatch E C (fst chosen) (snd chosen)) s.
Proof.
  unfold loop_body, choose_action, bind.
  destruct (begin_step E s) as [[] s1|e s1]; [|done].
  by destruct (pick_question s1).
Qed.

(** An iteration that begins with a gap does not fail for want of a
    question. *)
Lemma loop_body_finds_question E C s e s' :
  gaps s <> [] -> loop_body E C s = Throw e s' -> e <> no_question.
Proof.
  intros Hgaps Hrun.
  pose proof (pick_question_round_robin E s) as Hp.
  rewrite loop_body_split in Hrun. unfold bind at 1 in Hrun.
  destruct ((begin_step E ;;; pick_question) s) as [cq s1|e1 s1].
  - assert (Hrest :
      finds_question
        (chosen <-
           (seed_criteria E C cq ;;;
            freshness_lockout cq ;;;
            rank_urls E C cq ;;;
            gate_actions ;;;
            urlList <- ask_llm E C cq ;;
            ret (cq, urlList)) ;;
         dispatch E C (fst chosen) (snd chosen))).
    { apply finds_question_bind.
      - unfold seed_criteria, freshness_lockout, metrics_of, rank_urls,
          gate_actions, ask_llm.
        questions.
      - intros chosen. apply dispatch_finds_question. }
    specialize (Hrest s1). rewrite Hrun in Hrest. exact Hrest.
  - by destruct Hp as [Hnil _].
Qed.

Lemma main_loop_finds_question E C fuel :
  trim (question C) = question C ->
  forall s e s',
    original_first C s ->
    main_loop E C fuel s = Failed e s' -> e <> no_question.
Proof.
  intros Htrim. induction fuel as [|fuel IH]; intros s e s' Hs; [done|].
  cbn [main_loop]. destruct (within_budget C s); [|done].
  pose proof (loop_body_original_first E C s Htrim Hs) as Hnext.
  pose proof (loop_body_finds_question E C s) as Hbody.
  destruct (loop_body E C s) as [[|] s1|e1 s1]; [by apply IH|done|].
  intros [= <- <-]. apply (Hbody e1 s1); [|done].
  unfold original_first in Hs. by destruct (gaps s).
Qed.

(** X13. A question that arrives as a string, be it the [question]
    argument or the string content of the last message, is never lost:
    whatever the LLM and the other collaborators answer, [getResponse]
    does not fail with the [TypeError] of an iteration that finds no
    question. *)
Theorem X13_string_question_is_never_lost
    (E : Env) (fuel : nat) (a : Args) (s : option State) :
  (forall m ms parts,
     List.filter (fun m => negb (bool_decide (role m = system)))
       <$> a_messages a = Some (m :: ms) ->
     content (List.last ms m) <> CParts parts) ->
  getResponse E fuel a <> Threw no_question s.
Proof.
  intros Hstr. unfold getResponse.
  destruct (extract_question a) as [e|[question messages]] eqn:Hex.
  - assert (He : e = TypeError "question.trim").
    { unfold extract_question in Hex. repeat case_match; congruence. }
    by rewrite He.
  - pose proof (extract_question_from_string a question messages Hex Hstr)
      as Htrim.
    destruct (await _ _ _) as [[] s0|e s0] eqn:Hlang.
    + assert (H0 : original_first (config_of a question messages) s0).
      { unfold await in Hlang.
        destruct (setLanguage E question) as [[[] us]|]; [|done].
        by injection Hlang as <-. }
      pose proof (main_loop_finds_question E
                    (config_of a question messages) fuel Htrim s0) as Hloop.
      destruct (main_loop _ _ _ _) as [s1|e s1|s1]; [| |done].
      * destruct (finish _ _ s1) as [r s2|e s2] eqn:Hfin; [done|].
        intros [= -> _].
        assert (Hf : finds_question
                       (finish E (config_of a question messages))).
        { unfold finish, beast_mode. questions. }
        specialize (Hf s1). rewrite Hfin in Hf. done.
      * intros [= -> _]. by apply (Hloop no_question s1 H0).
    + unfold await in Hlang.
      destruct (setLanguage E question) as [[[] us]|]; [done|].
      injection Hlang as <- _. done.
Qed.

(** X13 at the greeting request, whose question is a string. *)
Lemma X13_string_question_is_never_lost_witness :
  getResponse (exampleEnv llm_greets) 3 hiArgs <> Threw no_question None.
Proof.
  apply (X13_string_question_is_never_lost (exampleEnv llm_greets) 3 hiArgs).
  intros m ms parts [= <- <-]. discriminate.
Defined.

(* --------------------------------------------------------------------- *)
(*  splitTextIntoChunks: URLs                                             *)
(* --------------------------------------------------------------------- *)

(** Every step of the loop hands a new splitter to the next step. *)
Lemma split_loop_app pre rest :
  forall st, exists st', split_loop (pre ++ rest) st = split_loop rest st'.
Proof.
  induction pre as [|char pre IH]; intros st; [by exists st|].
  cbn [app split_loop].
  repeat match goal with
         | |- context [if ?b then _ else _] => destruct b
         end; apply IH.
Qed.

Lemma split_loop_keeps_chunks suffix :
  forall st chunk,
    chunk ∈ sp_chunks st ->
    chunk ∈ sp_chunks (pushCurrentChunk (split_loop suffix st)).
Proof.
  assert (Hpush : forall st chunk,
            chunk ∈ sp_chunks st -> chunk ∈ sp_chunks (pushCurrentChunk st)).
  { intros st chunk Hin. unfold pushCurrentChunk.
    destruct (currentChunk st); [done|]. simpl.
    apply elem_of_app. by left. }
  assert (Hset : forall b st chunk,
            chunk ∈ sp_chunks st -> chunk ∈ sp_chunks (set_inURL b st))
    by done.
  assert (Happ : forall c st chunk,
            chunk ∈ sp_chunks st -> chunk ∈ sp_chunks (append_char c st))
    by done.
  assert (Hpc : forall c st chunk,
            chunk ∈ sp_chunks st -> chunk ∈ sp_chunks (push_chunk c st)).
  { intros c st chunk Hin. simpl. apply elem_of_app. by left. }
  induction suffix as [|char rest IH]; intros st chunk Hin;
    [by apply Hpush|].
  cbn [split_loop].
  repeat match goal with
         | |- context [if ?b then _ else _] => destruct b
         end;
    apply IH;
    repeat first [ exact Hin | apply Hset | apply Happ | apply Hpc
                 | apply Hpush ].
Qed.

Lemma url_run_tail body :
  forall post st c,
    inURL st = true ->
    (forall i, (i < length body)%nat ->
               url_start (drop i (body ++ post)) = false) ->
    Forall (fun c => is_url_end c = false) body ->
    test_next is_url_end (head post) = true \/ post = [] ->
    split_loop (body ++ post)
      (if test_next is_url_end (head (body ++ post))
          || bool_decide (body ++ post = [])
       then set_inURL false (pushCurrentChunk (append_char c st))
       else append_char c st)
    = split_loop post (close_run (c :: body) st).
Proof.
  induction body as [|c' body IH]; intros post st c Hin Hstart Hbody Hpost.
  - assert (Hend : test_next is_url_end (head post)
                   || bool_decide (post = []) = true).
    { destruct Hpost as [->| ->]; [done|]. by rewrite orb_true_r. }
    cbn [app]. rewrite Hend. f_equal.
    unfold pushCurrentChunk, append_char, close_run, set_inURL. simpl.
    by destruct (currentChunk st ++ [c]) eqn:Hc;
      [destruct (currentChunk st)|].
  - apply Forall_cons in Hbody as [Hc' Hbody].
    cbn [app head test_next]. rewrite Hc'.
    rewrite bool_decide_eq_false_2 by done. cbn [orb split_loop].
    pose proof (Hstart 0%nat ltac:(simpl; lia)) as H0.
    cbn [drop app url_start] in H0. rewrite H0.
    cbn [append_char inURL]. rewrite Hin.
    rewrite (IH post (append_char c st) c'); [|done| |done|done].
    + unfold close_run, append_char. simpl. by rewrite <- app_assoc.
    + intros i Hi. apply (Hstart (S i)). simpl. lia.
Qed.

(** X14. A URL is one chunk. A run of characters of the text at whose
    first character the loop detects a URL, and at no later one, that
    holds no white space, closing bracket or quote after its first
    character, and that is followed by one of these or by the end of the
    text, is a chunk of the text. *)
Theorem X14_url_is_one_chunk (pre url post : jsstring) :
  url_start (url ++ post) = true ->
  (forall i, (0 < i < length url)%nat ->
             url_start (drop i (url ++ post)) = false) ->
  Forall (fun c => is_url_end c = false) (tail url) ->
  test_next is_url_end (head post) = true \/ post = [] ->
  url ∈ splitTextIntoChunks (pre ++ url ++ post).
Proof.
  intros Hstart Hinner Hbody Hpost.
  destruct url as [|h body].
  - exfalso. destruct Hpost as [Hpost| ->]; [|done].
    destruct post as [|c post]; [done|]. simpl in *.
    apply andb_true_iff in Hstart as [Hh _]. apply N.eqb_eq in Hh.
    by subst.
  - unfold splitTextIntoChunks. apply list_elem_of_filter. split; [done|].
    destruct (split_loop_app pre ((h :: body) ++ post)
                {| sp_chunks := []; currentChunk := []; inURL := false |})
      as [st ->].
    cbn [app split_loop]. cbn [url_start app] in Hstart. rewrite Hstart.
    cbn [set_inURL inURL].
    change (append_char h
              {| sp_chunks := sp_chunks (pushCurrentChunk st);
                 currentChunk := currentChunk (pushCurrentChunk st);
                 inURL := true |})
      with (append_char h (set_inURL true (pushCurrentChunk st))).
    rewrite (url_run_tail body post (set_inURL true (pushCurrentChunk st)) h);
      [|done| |done|done].
    + apply split_loop_keeps_chunks. unfold close_run. simpl.
      rewrite currentChunk_pushCurrentChunk. simpl.
      apply elem_of_app. right. apply list_elem_of_here.
    + intros i Hi. apply (Hinner (S i)). simpl. lia.
Qed.

(** X14 at a sentence that cites a page. *)
Lemma X14_url_is_one_chunk_witness :
  js "https://a.b/c?d=e" ∈
    splitTextIntoChunks (js "see " ++ js "https://a.b/c?d=e" ++ js " now.").
Proof.
  apply (X14_url_is_one_chunk (js "see ") (js "https://a.b/c?d=e")
           (js " now.")).
  - vm_compute. reflexivity.
  - intros i Hi.
    do 17 (destruct i as [|i]; [try (vm_compute; reflexivity); simpl in Hi; lia|]).
    simpl in Hi. lia.
  - vm_compute. repeat constructor.
  - left. vm_compute. reflexivity.
Defined.

(* --------------------------------------------------------------------- *)
(*  What the loop has learnt stays                                        *)
(* --------------------------------------------------------------------- *)

Lemma main_loop_preserves E C (I : State -> Prop) fuel :
  preserves I (loop_body E C) ->
  forall s, I s -> I (loop_state (main_loop E C fuel s)).
Proof.
  intros Hbody. induction fuel as [|fuel IH]; intros s Hs; simpl; [done|].
  destruct (within_budget C s); [|done].
  specialize (Hbody s Hs).
  destruct (loop_body E C s) as [[|] s'|e s']; simpl; by auto.
Qed.

(** Run [preserves_step] to the leaves for the invariant [remembers]:
    the five lists are only ever extended at their end. *)
Ltac remembering :=
  repeat first
    [ match goal with
      | |- preserves _ (emit _) =>
          apply preserves_emit_frame; intros ? ? ?; assumption
      | |- preserves _ (await _ _) =>
          apply preserves_await_frame; intros ? ? ?; assumption
      | |- preserves _ (track _) =>
          apply preserves_track_frame; intros ? ? ?; assumption
      | |- preserves _ (modify _) =>
          apply preserves_modify; intros ? (? & ? & ? & ? & ?);
          repeat case_match;
          (do 4 (split; [first [assumption | by apply prefix_app_r]|]));
          first [assumption | by apply prefix_app_r]
      end
    | preserves_step ].

Lemma loop_body_remembers E C s0 :
  preserves (remembers s0) (loop_body E C).
Proof.
  unfold loop_body. apply preserves_bind.
  - unfold choose_action, begin_step, pick_question, seed_criteria,
      freshness_lockout, metrics_of, rank_urls, gate_actions, ask_llm.
    remembering.
  - intros chosen. unfold dispatch.
    apply preserves_bind; [apply preserves_get|]. intros s.
    destruct (thisStep s) as [t r|t a refs f|t qs|t [idx|urls]|t c].
    + unfold dispatch_search, search_first_pass, search_second_pass,
        executeSearchQueries, search_one, push_diary, push_knowledge,
        updateContext.
      remembering.
    + destruct (nonempty a); [|apply preserves_ret].
      unfold dispatch_answer, updateReferences, fillDates, run_processURLs,
        metrics_of, push_diary, push_knowledge, updateContext.
      remembering.
    + unfold dispatch_reflect, push_diary, updateContext. remembering.
    + destruct (_ && _); [|apply preserves_ret].
      unfold dispatch_visit, run_processURLs, push_diary, updateContext.
      remembering.
    + apply preserves_ret.
    + destruct (nonempty c); [|apply preserves_ret].
      unfold dispatch_coding, push_diary, push_knowledge, updateContext.
      remembering.
Qed.

(** X15. The loop forgets nothing. Whatever the collaborators answer and
    however the loop ends, the knowledge, the keywords searched, the
    questions asked, the URLs visited and the URLs found bad that it
    began with are still there when it stops, in the same order and at
    the front: these five lists are only ever extended at their end. *)
Theorem X15_loop_forgets_nothing (E : Env) (C : Config) (fuel : nat)
    (s : State) :
  remembers s (loop_state (main_loop E C fuel s)).
Proof.
  apply main_loop_preserves; [apply loop_body_remembers|].
  by repeat split.
Qed.

(* --------------------------------------------------------------------- *)
(*  What getResponse returns                                              *)
(* --------------------------------------------------------------------- *)

(** Run [preserves_step] to the leaves for the invariant that a final
    step has a text. *)
Ltac texts :=
  repeat first
    [ match goal with
      | |- preserves _ (emit _) =>
          apply preserves_emit_frame; intros ? ? ?; assumption
      | |- preserves _ (await _ _) =>
          apply preserves_await_frame; intros ? ? ?; assumption
      | |- preserves _ (track _) =>
          apply preserves_track_frame; intros ? ? ?; assumption
      | |- preserves _ (modify _) =>
          apply preserves_modify; intros ? ?;
          first [ assumption
                | done
                | simpl; repeat case_match; first [assumption | done] ]
      end
    | preserves_step ].

Lemma loop_body_final_with_text E C :
  preserves (fun s => final_with_text (thisStep s)) (loop_body E C).
Proof.
  unfold loop_body. apply preserves_bind.
  - unfold choose_action, begin_step, pick_question, seed_criteria,
      freshness_lockout, metrics_of, rank_urls, gate_actions, ask_llm.
    texts.
    apply preserves_modify. intros s _. simpl.
    by match goal with o : AgentObject |- _ => destruct o end.
  - intros chosen. unfold dispatch.
    apply preserves_bind; [apply preserves_get|]. intros s.
    destruct (thisStep s) as [t r|t a refs f|t qs|t [idx|urls]|t c].
    + unfold dispatch_search, search_first_pass, search_second_pass,
        executeSearchQueries, search_one, push_diary, push_knowledge,
        updateContext.
      texts.
    + destruct (nonempty a) eqn:Ha; [|apply preserves_ret].
      assert (a <> []) by (by destruct a).
      unfold dispatch_answer, updateReferences, fillDates, run_processURLs,
        metrics_of, push_diary, push_knowledge, updateContext.
      texts.
    + unfold dispatch_reflect, push_diary, updateContext. texts.
    + destruct (_ && _); [|apply preserves_ret].
      unfold dispatch_visit, run_processURLs, push_diary, updateContext.
      texts.
    + apply preserves_ret.
    + destruct (nonempty c); [|apply preserves_ret].
      unfold dispatch_coding, push_diary, push_knowledge, updateContext.
      texts.
Qed.

Lemma finish_result E C s r s' :
  finish E C s = Ok r s' -> result r = thisStep s /\ isFinal_of (thisStep s) = true.
Proof.
  destruct (isFinal_of (thisStep s)) eqn:Hfinal.
  - unfold finish, bind at 1, get. rewrite Hfinal. simpl when.
    unfold bind at 1, ret at 1. unfold bind at 1, get.
    destruct (trivialQuestion s).
    + simpl. by intros [= <- <-].
    + simpl. destruct (markdownRepaired E _ _) as [[md us]|]; [|done].
      simpl. by intros [= <- <-].
  - by rewrite finish_without_final_answer.
Qed.

(** X16. What [getResponse] returns, when it returns, is an answer
    marked final whose text is not empty. *)
Theorem X16_returned_answer_is_final_and_has_text
    (E : Env) (fuel : nat) (a : Args) (r : Response) (s : State) :
  getResponse E fuel a = Returned r s ->
  exists think answer references,
    result r = AnswerAction think answer references true
    /\ answer <> [].
Proof.
  unfold getResponse.
  destruct (extract_question a) as [e|[question messages]]; [done|].
  destruct (await _ _ _) as [[] s0|e s0] eqn:Hlang; [|done].
  assert (H0 : final_with_text (thisStep s0)).
  { unfold await in Hlang.
    destruct (setLanguage E question) as [[[] us]|]; [|done].
    by injection Hlang as <-. }
  pose proof (main_loop_preserves E (config_of a question messages)
                (fun s => final_with_text (thisStep s)) fuel
                (loop_body_final_with_text E _) s0 H0) as Hloop.
  destruct (main_loop _ _ _ _) as [s1|e s1|s1]; [|done..].
  simpl in Hloop.
  destruct (finish _ _ s1) as [r' s2|e s2] eqn:Hfin; [|done].
  intros [= <- <-]. apply finish_result in Hfin as [-> Hfinal].
  destruct (thisStep s1) as [| think answer references [] | | |]; try done.
  by exists think, answer, references.
Qed.

(** X16 at the greeting request. *)
Lemma X16_returned_answer_is_final_and_has_text_witness :
  exists r s think answer references,
    getResponse (exampleEnv llm_greets) 3 hiArgs = Returned r s
    /\ result r = AnswerAction think answer references true
    /\ answer <> [].
Proof.
  assert (H : exists r s,
            getResponse (exampleEnv llm_greets) 3 hiArgs = Returned r s).
  { do 2 eexists. vm_compute. reflexivity. }
  destruct H as (r & s & H). exists r, s.
  destruct (X16_returned_answer_is_final_and_has_text _ _ _ _ _ H)
    as (think & answer & references & H1 & H2).
  by exists think, answer, references.
Defined.

(* --------------------------------------------------------------------- *)
(*  The progress lines                                                    *)
(* --------------------------------------------------------------------- *)

Lemma step_numbers_snoc evs ev :
  step_numbers (evs ++ [ev])
  = step_numbers evs
    ++ match ev with EvStep n _ => [n] | _ => [] end.
Proof. unfold step_numbers. rewrite omap_app. by destruct ev. Qed.

Lemma steps_are_emit n l ev :
  is_step_event ev = false -> preserves (steps_are n l) (emit ev).
Proof.
  intros Hev. apply preserves_modify. intros s [Hn Hl].
  split; [exact Hn|]. simpl. rewrite step_numbers_snoc, Hl.
  destruct ev; try done; by rewrite app_nil_r.
Qed.

(** Run [preserves_step] to the leaves for the invariant [steps_are]:
    past the start of an iteration nothing writes a progress line, and
    nothing assigns [totalStep]. *)
Ltac counting :=
  repeat first
    [ match goal with
      | |- preserves _ (emit _) =>
          apply steps_are_emit; reflexivity
      | |- preserves _ (await _ _) =>
          apply preserves_await_frame; intros ? ? ?; assumption
      | |- preserves _ (track _) =>
          apply preserves_track_frame; intros ? ? ?; assumption
      | |- preserves _ (modify _) =>
          apply preserves_modify; intros ? ?;
          first [ assumption | repeat case_match; assumption ]
      end
    | preserves_step ].

Lemma begin_step_counted E n l :
  hoare (steps_are n l) (begin_step E)
    (fun _ => steps_are (S n) (l ++ [S n])) (steps_are (S n) (l ++ [S n])).
Proof.
  intros s [Hn Hl]. unfold steps_are.
  cbn [begin_step bind modify emit get events totalStep set_events
         set_totalStep set_step set_allowReflect].
  by rewrite step_numbers_snoc, Hl, Hn.
Qed.

(** An iteration, however it ends, has added one to [totalStep] and
    written one progress line, which bears the new number. *)
Lemma loop_body_counted E C n l :
  hoare (steps_are n l) (loop_body E C)
    (fun _ => steps_are (S n) (l ++ [S n])) (steps_are (S n) (l ++ [S n])).
Proof.
  unfold loop_body.
  apply hoare_bind with (R := fun _ => steps_are (S n) (l ++ [S n])).
  - unfold choose_action.
    apply hoare_bind with (R := fun _ => steps_are (S n) (l ++ [S n]));
      [apply begin_step_counted|intros _].
    apply hoare_preserves.
    unfold pick_question, seed_criteria, freshness_lockout, metrics_of,
      rank_urls, gate_actions, ask_llm.
    counting.
  - intros chosen. apply hoare_preserves. unfold dispatch.
    apply preserves_bind; [apply preserves_get|]. intros s.
    destruct (thisStep s) as [t r|t a refs f|t qs|t [idx|urls]|t c].
    + unfold dispatch_search, search_first_pass, search_second_pass,
        executeSearchQueries, search_one, push_diary, push_knowledge,
        updateContext.
      counting.
    + destruct (nonempty a); [|apply preserves_ret].
      unfold dispatch_answer, updateReferences, fillDates, run_processURLs,
        metrics_of, push_diary, push_knowledge, updateContext.
      counting.
    + unfold dispatch_reflect, push_diary, updateContext. counting.
    + destruct (_ && _); [|apply preserves_ret].
      unfold dispatch_visit, run_processURLs, push_diary, updateContext.
      counting.
    + apply preserves_ret.
    + destruct (nonempty c); [|apply preserves_ret].
      unfold dispatch_coding, push_diary, push_knowledge, updateContext.
      counting.
Qed.

Lemma main_loop_counted E C fuel :
  forall s,
    steps_are (totalStep s + iterations_begun E C fuel s)
      (step_numbers (events s)
       ++ seq (S (totalStep s)) (iterations_begun E C fuel s))
      (loop_state (main_loop E C fuel s)).
Proof.
  induction fuel as [|fuel IH]; intros s; cbn [main_loop iterations_begun].
  - split; [simpl; lia|]. simpl. by rewrite app_nil_r.
  - destruct (within_budget C s);
      [|split; [simpl; lia|]; simpl; by rewrite app_nil_r].
    pose proof (loop_body_counted E C (totalStep s)
                  (step_numbers (events s)) s (conj eq_refl eq_refl))
      as Hbody.
    destruct (loop_body E C s) as [[|] s1|e s1]; cbn [loop_state].
    + destruct Hbody as [Hn Hl]. destruct (IH s1) as [Hn' Hl'].
      rewrite Hn, Hl in *. split.
      * rewrite Hn'. lia.
      * rewrite Hl'. cbn [seq]. by rewrite <- app_assoc.
    + destruct Hbody as [Hn Hl]. split; [rewrite Hn; lia|]. by rewrite Hl.
    + destruct Hbody as [Hn Hl]. split; [rewrite Hn; lia|]. by rewrite Hl.
Qed.

(** X17. The main loop writes one progress line for each iteration it
    begins, numbered consecutively: when it stops, however it stops,
    [totalStep] has grown by the number of iterations begun and the
    lines written since bear the numbers that follow the [totalStep] it
    began with. So the progress lines of a run of [getResponse] are
    numbered 1, 2, 3, ... up to the number of iterations the run began,
    whether it returns, throws or is still running. *)
Theorem X17_progress_lines_are_numbered_from_one (E : Env) (fuel : nat) :
  (forall C s,
     totalStep (loop_state (main_loop E C fuel s))
     = (totalStep s + iterations_begun E C fuel s)%nat
     /\ step_numbers (events (loop_state (main_loop E C fuel s)))
        = step_numbers (events s)
          ++ seq (S (totalStep s)) (iterations_begun E C fuel s))
  /\ forall a,
       step_numbers (final_events (getResponse E fuel a))
       = seq 1 (iterations_of E fuel a).
Proof.
  split; [intros C s; apply main_loop_counted|].
  intros a. unfold getResponse, iterations_of.
  destruct (extract_question a) as [e|[question messages]]; [done|].
  destruct (await _ _ _) as [[] s0|e s0] eqn:Hlang.
  - assert (H0 : totalStep s0 = 0%nat /\ events s0 = []).
    { unfold await in Hlang.
      destruct (setLanguage E question) as [[[] us]|]; [|done].
      by injection Hlang as <-. }
    destruct H0 as [Hn0 Hev0].
    destruct (main_loop_counted E (config_of a question messages) fuel s0)
      as [_ Hl].
    rewrite Hn0, Hev0 in Hl. simpl in Hl.
    destruct (main_loop _ _ _ _) as [s1|e s1|s1]; simpl in Hl; try done.
    pose proof (finish_preserves E (config_of a question messages)
                  (fun evs =>
                     step_numbers evs
                     = seq 1 (iterations_begun E
                                (config_of a question messages) fuel s0))
                  s1 Hl) as Hfin.
    by destruct (finish _ _ s1).
  - unfold await in Hlang.
    destruct (setLanguage E question) as [[[] us]|]; [done|].
    by injection Hlang as _ <-.
Qed.

(** The count at the request of 200 tokens that an LLM without an answer
    text does not satisfy: two iterations are begun, and the two lines
    are numbered 1 and 2. *)
Lemma two_iterations_two_lines :
  iterations_of (exampleEnv llm_silent) 10 (args_of says_hi 200 false)
  = 2%nat
  /\ step_numbers
       (final_events
          (getResponse (exampleEnv llm_silent) 10 (args_of says_hi 200 false)))
     = [1; 2]%nat.
Proof. split; vm_compute; reflexivity. Qed.
